(** * Call negotiation service: a shallow embedding of [CallService]
    (services/calls) and of the incoming-call guard of [CallProvider]
    (contexts/CallContext.tsx).

    The service is a JavaScript class whose methods are [async] functions
    running on a single-threaded event loop.  An [async] body is embedded as
    a term of the resumption monad [Async]: synchronous reads and writes of
    the world, exceptions, and [Await] nodes marking the points where the
    body yields to the event loop.  [exec] runs a body to completion with
    nothing interleaved; [resume] runs exactly one turn.  The drain loop of
    the signaling queue is embedded as a transition system over the set of
    suspended loop activations, so that message arrivals can interleave
    with a suspended dispatch.  A call through a method name is resolved
    against the prototype and run on an engine whose call stack is
    bounded. *)

From stdpp Require Import base option list gmap strings pretty.

Local Open Scope string_scope.
Local Open Scope list_scope.

(** ** 1. Data model *)

Inductive CallType := voice | video.
Inductive CallStatus := ringing | answered | rejected | ended | missed.
Inductive SignalingType := offer | answer | ice_candidate | hangup.

(** [RTCPeerConnection.signalingState]. *)
Inductive SignalingState :=
| stable | have_local_offer | have_remote_offer
| have_local_pranswer | have_remote_pranswer | closed.

#[global] Instance CallType_eq_dec : EqDecision CallType.
Proof. solve_decision. Defined.
#[global] Instance CallStatus_eq_dec : EqDecision CallStatus.
Proof. solve_decision. Defined.
#[global] Instance SignalingType_eq_dec : EqDecision SignalingType.
Proof. solve_decision. Defined.
#[global] Instance SignalingState_eq_dec : EqDecision SignalingState.
Proof. solve_decision. Defined.

Definition SignalingState_str (s : SignalingState) : string :=
  match s with
  | stable => "stable"
  | have_local_offer => "have-local-offer"
  | have_remote_offer => "have-remote-offer"
  | have_local_pranswer => "have-local-pranswer"
  | have_remote_pranswer => "have-remote-pranswer"
  | closed => "closed"
  end.

(** A thrown JavaScript value; only its [message] is ever inspected. *)
Record JsError := { message : string }.

(** [error.message || fallback] *)
Definition message_or (e : JsError) (fallback : string) : string :=
  if decide (message e = "") then fallback else message e.

(** The [{ success, error? }] object every public operation returns. *)
Record Result := { success : bool; error : option string }.

Definition ok : Result := {| success := true; error := None |}.
Definition failure (msg : string) : Result :=
  {| success := false; error := Some msg |}.

(** The user-facing failure texts of [acceptCall], [rejectCall], [endCall]
    and [sendSignaling]. *)
Definition CallNotFound : string := "المكالمة غير موجودة".
Definition CallNotActive : string := "المكالمة لم تعد نشطة".
Definition AcceptFailed : string := "فشل قبول المكالمة".
Definition RejectFailed : string := "فشل رفض المكالمة".
Definition EndFailed : string := "فشل إنهاء المكالمة".
Definition SendFailed : string := "فشل إرسال الإشارة".

(** A document of the [calls] collection.  Firestore documents are
    untyped and [setDoc(.., { merge: true })] creates the document when it
    is absent, so every field of the [CallOffer] interface is optional
    here; [None] is a field the document does not have. *)
Record CallDoc := {
  callId : option string;
  callerId : option string;
  callerName : option string;
  callerPhoto : option string;
  receiverId : option string;
  receiverName : option string;
  receiverPhoto : option string;
  callType : option CallType;
  status : option CallStatus;
  createdAt : option nat;
  answeredAt : option nat;
  endedAt : option nat;
  duration : option nat;
}.

Definition emptyDoc : CallDoc :=
  {| callId := None; callerId := None; callerName := None;
     callerPhoto := None; receiverId := None; receiverName := None;
     receiverPhoto := None; callType := None; status := None;
     createdAt := None; answeredAt := None; endedAt := None;
     duration := None |}.

(** Field-wise merge: a field the patch mentions replaces the stored one. *)
Definition patched {A} (new old : option A) : option A :=
  match new with Some _ => new | None => old end.

Definition mergeDoc (patch old : CallDoc) : CallDoc :=
  {| callId := patched (callId patch) (callId old);
     callerId := patched (callerId patch) (callerId old);
     callerName := patched (callerName patch) (callerName old);
     callerPhoto := patched (callerPhoto patch) (callerPhoto old);
     receiverId := patched (receiverId patch) (receiverId old);
     receiverName := patched (receiverName patch) (receiverName old);
     receiverPhoto := patched (receiverPhoto patch) (receiverPhoto old);
     callType := patched (callType patch) (callType old);
     status := patched (status patch) (status old);
     createdAt := patched (createdAt patch) (createdAt old);
     answeredAt := patched (answeredAt patch) (answeredAt old);
     endedAt := patched (endedAt patch) (endedAt old);
     duration := patched (duration patch) (duration old) |}.

(** The three merge patches the service writes; [t] is the value the
    server substitutes for [serverTimestamp()]. *)
Definition answeredPatch (t : nat) : CallDoc :=
  {| callId := None; callerId := None; callerName := None;
     callerPhoto := None; receiverId := None; receiverName := None;
     receiverPhoto := None; callType := None; status := Some answered;
     createdAt := None; answeredAt := Some t; endedAt := None;
     duration := None |}.

Definition rejectedPatch (t : nat) : CallDoc :=
  {| callId := None; callerId := None; callerName := None;
     callerPhoto := None; receiverId := None; receiverName := None;
     receiverPhoto := None; callType := None; status := Some rejected;
     createdAt := None; answeredAt := None; endedAt := Some t;
     duration := None |}.

Definition endedPatch (d : nat) (t : nat) : CallDoc :=
  {| callId := None; callerId := None; callerName := None;
     callerPhoto := None; receiverId := None; receiverName := None;
     receiverPhoto := None; callType := None; status := Some ended;
     createdAt := None; answeredAt := None; endedAt := Some t;
     duration := Some d |}.

(** ** 2. The native collaborators

    The WebRTC engine, the media devices and the audio session are
    external.  Their operations are taken as an interface: each maps the
    state of the native object to its next state and an outcome, so a
    theorem proved against the interface holds for every engine. *)

Inductive Completion (A : Type) : Type :=
| Normal (a : A)
| Abrupt (e : JsError).
Arguments Normal {A} a.
Arguments Abrupt {A} e.

Class Native : Type := {
  Payload : Type;         (* [data?: any] of a signaling message *)
  Description : Type;     (* an SDP description object *)
  IceCandidate : Type;
  PeerConn : Type;        (* state of one RTCPeerConnection *)
  MediaStream : Type;
  MediaTrack : Type;
  Device : Type;          (* media devices and audio session *)
  platform_is_web : bool;
  payload_truthy : Payload → bool;
  payload_null : Payload;
  JSON_copy : Payload → Payload;
  description_data : Description → Payload;
  new_RTCSessionDescription : Payload → Completion Description;
  new_RTCIceCandidate : Payload → Completion IceCandidate;
  new_RTCPeerConnection : list (list string) → Completion PeerConn;
  setAudioModeAsync : Device → Device * Completion unit;
  getUserMedia : bool → Device → Device * Completion MediaStream;
  getTracks : MediaStream → list MediaTrack;
  has_release : MediaStream → bool;
  addTrack : MediaTrack → MediaStream → PeerConn → PeerConn * Completion unit;
  createOffer : bool → PeerConn → PeerConn * Completion Description;
  createAnswer : PeerConn → PeerConn * Completion Description;
  setLocalDescription : Description → PeerConn → PeerConn * Completion unit;
  setRemoteDescription : Description → PeerConn → PeerConn * Completion unit;
  addIceCandidate : IceCandidate → PeerConn → PeerConn * Completion unit;
  signalingState : PeerConn → SignalingState;
}.

(** The callbacks [CallProvider] registers on the service. *)
Inductive StreamCallback := setLocalStream | setRemoteStream | noop.

Section Service.
Context `{Native}.

Record CallSignaling := {
  sig_callId : string;
  sig_type : SignalingType;
  sig_from : string;
  sig_to : string;
  sig_data : Payload;
}.

(** The fields of [class CallService]. *)
Record CallService := {
  peerConnection : option PeerConn;
  localStream : option MediaStream;
  remoteStream : option MediaStream;
  signalingQueue : list CallSignaling;
  isProcessingSignal : bool;
  isRemoteDescriptionSet : bool;
  pendingCandidates : list IceCandidate;
  onRemoteStreamCallback : option StreamCallback;
  onLocalStreamCallback : option StreamCallback;
  signalingUnsubscribe : option (string * string);
  currentCallId : string;
}.

(** [new CallService()] *)
Definition newCallService : CallService :=
  {| peerConnection := None; localStream := None; remoteStream := None;
     signalingQueue := []; isProcessingSignal := false;
     isRemoteDescriptionSet := false; pendingCandidates := [];
     onRemoteStreamCallback := None; onLocalStreamCallback := None;
     signalingUnsubscribe := None; currentCallId := "" |}.

Definition set_peerConnection (v : option PeerConn) (s : CallService) :=
  {| peerConnection := v; localStream := localStream s;
     remoteStream := remoteStream s; signalingQueue := signalingQueue s;
     isProcessingSignal := isProcessingSignal s;
     isRemoteDescriptionSet := isRemoteDescriptionSet s;
     pendingCandidates := pendingCandidates s;
     onRemoteStreamCallback := onRemoteStreamCallback s;
     onLocalStreamCallback := onLocalStreamCallback s;
     signalingUnsubscribe := signalingUnsubscribe s;
     currentCallId := currentCallId s |}.

Definition set_localStream (v : option MediaStream) (s : CallService) :=
  {| peerConnection := peerConnection s; localStream := v;
     remoteStream := remoteStream s; signalingQueue := signalingQueue s;
     isProcessingSignal := isProcessingSignal s;
     isRemoteDescriptionSet := isRemoteDescriptionSet s;
     pendingCandidates := pendingCandidates s;
     onRemoteStreamCallback := onRemoteStreamCallback s;
     onLocalStreamCallback := onLocalStreamCallback s;
     signalingUnsubscribe := signalingUnsubscribe s;
     currentCallId := currentCallId s |}.

Definition set_remoteStream (v : option MediaStream) (s : CallService) :=
  {| peerConnection := peerConnection s; localStream := localStream s;
     remoteStream := v; signalingQueue := signalingQueue s;
     isProcessingSignal := isProcessingSignal s;
     isRemoteDescriptionSet := isRemoteDescriptionSet s;
     pendingCandidates := pendingCandidates s;
     onRemoteStreamCallback := onRemoteStreamCallback s;
     onLocalStreamCallback := onLocalStreamCallback s;
     signalingUnsubscribe := signalingUnsubscribe s;
     currentCallId := currentCallId s |}.

Definition set_signalingQueue (v : list CallSignaling) (s : CallService) :=
  {| peerConnection := peerConnection s; localStream := localStream s;
     remoteStream := remoteStream s; signalingQueue := v;
     isProcessingSignal := isProcessingSignal s;
     isRemoteDescriptionSet := isRemoteDescriptionSet s;
     pendingCandidates := pendingCandidates s;
     onRemoteStreamCallback := onRemoteStreamCallback s;
     onLocalStreamCallback := onLocalStreamCallback s;
     signalingUnsubscribe := signalingUnsubscribe s;
     currentCallId := currentCallId s |}.

Definition set_isProcessingSignal (v : bool) (s : CallService) :=
  {| peerConnection := peerConnection s; localStream := localStream s;
     remoteStream := remoteStream s; signalingQueue := signalingQueue s;
     isProcessingSignal := v;
     isRemoteDescriptionSet := isRemoteDescriptionSet s;
     pendingCandidates := pendingCandidates s;
     onRemoteStreamCallback := onRemoteStreamCallback s;
     onLocalStreamCallback := onLocalStreamCallback s;
     signalingUnsubscribe := signalingUnsubscribe s;
     currentCallId := currentCallId s |}.

Definition set_isRemoteDescriptionSet (v : bool) (s : CallService) :=
  {| peerConnection := peerConnection s; localStream := localStream s;
     remoteStream := remoteStream s; signalingQueue := signalingQueue s;
     isProcessingSignal := isProcessingSignal s;
     isRemoteDescriptionSet := v;
     pendingCandidates := pendingCandidates s;
     onRemoteStreamCallback := onRemoteStreamCallback s;
     onLocalStreamCallback := onLocalStreamCallback s;
     signalingUnsubscribe := signalingUnsubscribe s;
     currentCallId := currentCallId s |}.

Definition set_pendingCandidates (v : list IceCandidate) (s : CallService) :=
  {| peerConnection := peerConnection s; localStream := localStream s;
     remoteStream := remoteStream s; signalingQueue := signalingQueue s;
     isProcessingSignal := isProcessingSignal s;
     isRemoteDescriptionSet := isRemoteDescriptionSet s;
     pendingCandidates := v;
     onRemoteStreamCallback := onRemoteStreamCallback s;
     onLocalStreamCallback := onLocalStreamCallback s;
     signalingUnsubscribe := signalingUnsubscribe s;
     currentCallId := currentCallId s |}.

Definition set_onRemoteStreamCallback (v : option StreamCallback)
    (s : CallService) :=
  {| peerConnection := peerConnection s; localStream := localStream s;
     remoteStream := remoteStream s; signalingQueue := signalingQueue s;
     isProcessingSignal := isProcessingSignal s;
     isRemoteDescriptionSet := isRemoteDescriptionSet s;
     pendingCandidates := pendingCandidates s;
     onRemoteStreamCallback := v;
     onLocalStreamCallback := onLocalStreamCallback s;
     signalingUnsubscribe := signalingUnsubscribe s;
     currentCallId := currentCallId s |}.

Definition set_onLocalStreamCallback (v : option StreamCallback)
    (s : CallService) :=
  {| peerConnection := peerConnection s; localStream := localStream s;
     remoteStream := remoteStream s; signalingQueue := signalingQueue s;
     isProcessingSignal := isProcessingSignal s;
     isRemoteDescriptionSet := isRemoteDescriptionSet s;
     pendingCandidates := pendingCandidates s;
     onRemoteStreamCallback := onRemoteStreamCallback s;
     onLocalStreamCallback := v;
     signalingUnsubscribe := signalingUnsubscribe s;
     currentCallId := currentCallId s |}.

Definition set_signalingUnsubscribe (v : option (string * string))
    (s : CallService) :=
  {| peerConnection := peerConnection s; localStream := localStream s;
     remoteStream := remoteStream s; signalingQueue := signalingQueue s;
     isProcessingSignal := isProcessingSignal s;
     isRemoteDescriptionSet := isRemoteDescriptionSet s;
     pendingCandidates := pendingCandidates s;
     onRemoteStreamCallback := onRemoteStreamCallback s;
     onLocalStreamCallback := onLocalStreamCallback s;
     signalingUnsubscribe := v;
     currentCallId := currentCallId s |}.

Definition set_currentCallId (v : string) (s : CallService) :=
  {| peerConnection := peerConnection s; localStream := localStream s;
     remoteStream := remoteStream s; signalingQueue := signalingQueue s;
     isProcessingSignal := isProcessingSignal s;
     isRemoteDescriptionSet := isRemoteDescriptionSet s;
     pendingCandidates := pendingCandidates s;
     onRemoteStreamCallback := onRemoteStreamCallback s;
     onLocalStreamCallback := onLocalStreamCallback s;
     signalingUnsubscribe := signalingUnsubscribe s;
     currentCallId := v |}.

(** The Firestore backend: the [calls] collection, the append-only
    [signaling] log, the server clock that [serverTimestamp()] reads, and
    a schedule of outcomes for the coming requests ([Some e]: the request
    is rejected with [e]; an exhausted schedule lets every request
    through). *)
Record Firestore := {
  calls : gmap string CallDoc;
  signaling : list (CallSignaling * nat);
  serverTime : nat;
  faults : list (option JsError);
}.

(** Everything observable from outside the service, in program order. *)
Inductive Level := c_log | c_warn | c_error.

Inductive Event :=
| Console (l : Level) (text : string)
| ev_setAudioMode
| ev_getUserMedia (withVideo : bool)
| ev_newPeerConnection
| ev_addTrack (t : MediaTrack)
| ev_onicecandidate
| ev_ontrack
| ev_createOffer (withVideo : bool)
| ev_createAnswer
| ev_setLocalDescription (d : Description)
| ev_setRemoteDescription (d : Description)
| ev_addIceCandidate (c : IceCandidate)
| ev_close
| ev_trackStop (t : MediaTrack)
| ev_release
| ev_subscribe (sub : string * string)
| ev_unsubscribe (sub : string * string)
| ev_localStreamCallback (cb : StreamCallback) (s : option MediaStream)
| ev_remoteStreamCallback (cb : StreamCallback) (s : option MediaStream).

Record World := {
  this : CallService;
  db : Firestore;
  device : Device;
  trace : list Event;
}.

Definition set_this (f : CallService → CallService) (w : World) : World :=
  {| this := f (this w); db := db w; device := device w; trace := trace w |}.
Definition set_db (v : Firestore) (w : World) : World :=
  {| this := this w; db := v; device := device w; trace := trace w |}.
Definition set_device (v : Device) (w : World) : World :=
  {| this := this w; db := db w; device := v; trace := trace w |}.
Definition emit (e : Event) (w : World) : World :=
  {| this := this w; db := db w; device := device w;
     trace := trace w ++ [e] |}.

(** ** 3. The resumption monad of [async] bodies

    [Act write next] is one atomic action of the running turn: the world
    becomes [write w] and the body continues as [next w], where [w] is
    the world the action found.  [Await k] yields to the event loop. *)

Inductive Async (A : Type) : Type :=
| Ret (a : A)
| Throw (e : JsError)
| Act (write : World → World) (next : World → Async A)
| Await (k : Async A).
Arguments Ret {A} a.
Arguments Throw {A} e.
Arguments Act {A} write next.
Arguments Await {A} k.

Fixpoint bind {A B} (m : Async A) (f : A → Async B) : Async B :=
  match m with
  | Ret a => f a
  | Throw e => Throw e
  | Act g k => Act g (λ w, bind (k w) f)
  | Await k => Await (bind k f)
  end.

#[global] Instance Async_ret : MRet Async := λ A a, Ret a.
#[global] Instance Async_bind : MBind Async := λ A B f m, bind m f.

(** [try { m } catch (e) { h e }] *)
Fixpoint try_catch {A} (m : Async A) (h : JsError → Async A) : Async A :=
  match m with
  | Ret a => Ret a
  | Throw e => h e
  | Act g k => Act g (λ w, try_catch (k w) h)
  | Await k => Await (try_catch k h)
  end.

(** [await m]: run [m], yield once more when it settles, then continue
    with its value or rethrow its rejection. *)
Fixpoint await {A} (m : Async A) : Async A :=
  match m with
  | Ret a => Await (Ret a)
  | Throw e => Await (Throw e)
  | Act g k => Act g (λ w, await (k w))
  | Await k => Await (await k)
  end.

Definition atomically {A} (step : World → World * Async A) : Async A :=
  Act (λ w, (step w).1) (λ w, (step w).2).
Definition gets {A} (f : World → A) : Async A := Act id (λ w, Ret (f w)).
Definition modify (f : World → World) : Async unit :=
  Act f (λ _, Ret tt).
Definition complete {A} (c : Completion A) : Async A :=
  match c with Normal a => Ret a | Abrupt e => Throw e end.
Definition console (l : Level) (text : string) : Async unit :=
  modify (emit (Console l text)).

(** Run to completion, nothing interleaved. *)
Fixpoint exec {A} (m : Async A) (w : World) : World * Completion A :=
  match m with
  | Ret a => (w, Normal a)
  | Throw e => (w, Abrupt e)
  | Act g k => exec (k w) (g w)
  | Await k => exec k w
  end.

(** One turn of the event loop: run up to the next [Await]. *)
Inductive Turn (A : Type) : Type :=
| Settled (c : Completion A)
| Suspended (k : Async A).
Arguments Settled {A} c.
Arguments Suspended {A} k.

Fixpoint resume {A} (m : Async A) (w : World) : World * Turn A :=
  match m with
  | Ret a => (w, Settled (Normal a))
  | Throw e => (w, Settled (Abrupt e))
  | Act g k => resume (k w) (g w)
  | Await k => (w, Suspended k)
  end.

(** ** 4. Firestore requests *)

(** Consume the outcome scheduled for the next request. *)
Definition request (fs : Firestore) : Firestore * option JsError :=
  match faults fs with
  | [] => (fs, None)
  | o :: rest =>
      ({| calls := calls fs; signaling := signaling fs;
          serverTime := serverTime fs; faults := rest |}, o)
  end.

(** [getDoc(doc(db, 'calls', callId))]; the result is [None] when
    [callSnap.exists()] is false and [Some (callSnap.data())] otherwise. *)
Definition getDoc (id : string) : Async (option CallDoc) :=
  atomically (λ w,
    let '(fs, o) := request (db w) in
    (set_db fs w,
     match o with Some e => Throw e | None => Ret (calls fs !! id) end)).

Definition commitMerge (id : string) (patch : nat → CallDoc)
    (fs : Firestore) : Firestore :=
  {| calls := <[id := mergeDoc (patch (serverTime fs))
                         (default emptyDoc (calls fs !! id))]> (calls fs);
     signaling := signaling fs;
     serverTime := S (serverTime fs);
     faults := faults fs |}.

(** [setDoc(doc(db, 'calls', callId), patch, { merge: true })] *)
Definition setDoc_merge (id : string) (patch : nat → CallDoc) : Async unit :=
  atomically (λ w,
    let '(fs, o) := request (db w) in
    match o with
    | Some e => (set_db fs w, Throw e)
    | None => (set_db (commitMerge id patch fs) w, Ret tt)
    end).

Definition commitSignaling (m : CallSignaling) (fs : Firestore) : Firestore :=
  {| calls := calls fs;
     signaling := signaling fs ++ [(m, serverTime fs)];
     serverTime := S (serverTime fs);
     faults := faults fs |}.

(** [setDoc(doc(db, 'signaling', ...), { ...signaling, data, timestamp })] *)
Definition setDoc_signaling (m : CallSignaling) : Async unit :=
  atomically (λ w,
    let '(fs, o) := request (db w) in
    match o with
    | Some e => (set_db fs w, Throw e)
    | None => (set_db (commitSignaling m fs) w, Ret tt)
    end).

(** [onSnapshot(query(collection(db, 'signaling'), ...), ...)] *)
Definition onSnapshot_signaling (callId userId : string)
    : Async (string * string) :=
  atomically (λ w,
    let '(fs, o) := request (db w) in
    match o with
    | Some e => (set_db fs w, Throw e)
    | None =>
        (emit (ev_subscribe (callId, userId)) (set_db fs w),
         Ret (callId, userId))
    end).

(** ** 5. Calls into the peer connection *)

Definition TypeError : JsError :=
  {| message := "Cannot read properties of null" |}.

(** [await this.peerConnection.op(..)]: a [TypeError] when the field is
    null, otherwise the call is issued, the body yields, and the outcome
    of the native promise is delivered on resumption. *)
Definition native {A} (ev : Event)
    (op : PeerConn → PeerConn * Completion A) : Async A :=
  atomically (λ w,
    match peerConnection (this w) with
    | None => (w, Throw TypeError)
    | Some pc =>
        let '(pc', r) := op pc in
        (emit ev (set_this (set_peerConnection (Some pc')) w),
         Await (complete r))
    end).

(** [await this.peerConnection.op(new C(data))]: the member is looked up
    before the argument is constructed, and the constructor may throw. *)
Definition native_new {A B} (arg : Completion B) (ev : B → Event)
    (op : B → PeerConn → PeerConn * Completion A) : Async A :=
  atomically (λ w,
    match peerConnection (this w) with
    | None => (w, Throw TypeError)
    | Some pc =>
        match arg with
        | Abrupt e => (w, Throw e)
        | Normal b =>
            let '(pc', r) := op b pc in
            (emit (ev b) (set_this (set_peerConnection (Some pc')) w),
             Await (complete r))
        end
    end).

(** A synchronous method of the peer connection. *)
Definition native_sync {A} (ev : Event)
    (op : PeerConn → PeerConn * Completion A) : Async A :=
  atomically (λ w,
    match peerConnection (this w) with
    | None => (w, Throw TypeError)
    | Some pc =>
        let '(pc', r) := op pc in
        (emit ev (set_this (set_peerConnection (Some pc')) w), complete r)
    end).

(** [this.peerConnection.signalingState] *)
Definition read_signalingState : Async SignalingState :=
  atomically (λ w,
    match peerConnection (this w) with
    | None => (w, Throw TypeError)
    | Some pc => (w, Ret (signalingState pc))
    end).

Fixpoint forEach {A} (l : list A) (f : A → Async unit) : Async unit :=
  match l with
  | [] => Ret tt
  | x :: l' => f x ;; forEach l' f
  end.

Definition when (b : bool) (m : Async unit) : Async unit :=
  if b then m else Ret tt.

Definition bool_str (b : bool) : string := if b then "true" else "false".

(** ** 6. The methods of [CallService] *)

(** [sendSignaling], lines 607-628. *)
Definition sendSignaling (m : CallSignaling) : Async Result :=
  try_catch
    (let safeData :=
       if payload_truthy (sig_data m) then JSON_copy (sig_data m)
       else payload_null in
     await (setDoc_signaling
              {| sig_callId := sig_callId m; sig_type := sig_type m;
                 sig_from := sig_from m; sig_to := sig_to m;
                 sig_data := safeData |}) ;;
     Ret ok)
    (λ e, console c_error "❌ Error sending signaling:" ;;
          Ret (failure (message_or e SendFailed))).

(** [closeWebRTCConnection], lines 640-674.  The body has no [await]. *)
Definition closeWebRTCConnection (callId : string) : Async unit :=
  console c_log "🔴 Closing WebRTC connection" ;;
  unsub ← gets (λ w, signalingUnsubscribe (this w));
  match unsub with
  | Some sub =>
      modify (emit (ev_unsubscribe sub)) ;;
      modify (set_this (set_signalingUnsubscribe None))
  | None => Ret tt
  end ;;
  ls ← gets (λ w, localStream (this w));
  match ls with
  | Some stream =>
      forEach (getTracks stream) (λ t, modify (emit (ev_trackStop t))) ;;
      when (has_release stream) (modify (emit ev_release)) ;;
      modify (set_this (set_localStream None)) ;;
      cb ← gets (λ w, onLocalStreamCallback (this w));
      match cb with
      | Some f => modify (emit (ev_localStreamCallback f None))
      | None => Ret tt
      end
  | None => Ret tt
  end ;;
  pc ← gets (λ w, peerConnection (this w));
  match pc with
  | Some _ =>
      modify (emit ev_close) ;;
      modify (set_this (set_peerConnection None))
  | None => Ret tt
  end ;;
  modify (set_this (set_remoteStream None)) ;;
  modify (set_this (set_isRemoteDescriptionSet false)) ;;
  modify (set_this (set_pendingCandidates [])) ;;
  modify (set_this (set_signalingQueue [])) ;;
  cb ← gets (λ w, onRemoteStreamCallback (this w));
  match cb with
  | Some f => modify (emit (ev_remoteStreamCallback f None))
  | None => Ret tt
  end ;;
  console c_log "✅ WebRTC connection closed".

(** [cleanup], lines 679-681: the call is not awaited, and the callee
    runs to its end without yielding. *)
Definition cleanup : Async unit :=
  id ← gets (λ w, currentCallId (this w));
  closeWebRTCConnection id.

(** [processPendingCandidates], lines 562-574. *)
Definition processPendingCandidates : Async unit :=
  cands ← gets (λ w, pendingCandidates (this w));
  if decide (length cands = 0) then Ret tt
  else
    console c_log ("⏳ Processing " +:+ pretty (length cands)
                   +:+ " pending ICE candidates") ;;
    forEach cands (λ candidate,
      try_catch
        (native (ev_addIceCandidate candidate) (addIceCandidate candidate))
        (λ e, console c_error "⚠️ Error adding pending ICE candidate:")) ;;
    modify (set_this (set_pendingCandidates [])).

(** [processSignalingMessage], lines 498-560. *)
Definition processSignalingMessage (message : CallSignaling) : Async unit :=
  pc ← gets (λ w, peerConnection (this w));
  match pc with
  | None => console c_warn "⚠️ PeerConnection not initialized"
  | Some _ =>
    try_catch
      match sig_type message with
      | offer =>
          console c_log "📨 Received Offer" ;;
          native_new (new_RTCSessionDescription (sig_data message))
            ev_setRemoteDescription setRemoteDescription ;;
          modify (set_this (set_isRemoteDescriptionSet true)) ;;
          await processPendingCandidates ;;
          ans ← native ev_createAnswer createAnswer;
          native (ev_setLocalDescription ans) (setLocalDescription ans) ;;
          await (sendSignaling
                   {| sig_callId := sig_callId message; sig_type := answer;
                      sig_from := sig_to message; sig_to := sig_from message;
                      sig_data := description_data ans |}) ;;
          console c_log "✅ Answer sent"
      | answer =>
          console c_log "📨 Received Answer" ;;
          st ← read_signalingState;
          if decide (st = have_local_offer) then
            native_new (new_RTCSessionDescription (sig_data message))
              ev_setRemoteDescription setRemoteDescription ;;
            modify (set_this (set_isRemoteDescriptionSet true)) ;;
            await processPendingCandidates ;;
            console c_log "✅ Answer processed"
          else
            console c_warn ("⚠️ Ignoring Answer: signalingState is "
                            +:+ SignalingState_str st)
      | ice_candidate =>
          isSet ← gets (λ w, isRemoteDescriptionSet (this w));
          if (isSet : bool) then
            try_catch
              (native_new (new_RTCIceCandidate (sig_data message))
                 ev_addIceCandidate addIceCandidate ;;
               console c_log "✅ ICE candidate added")
              (λ e, console c_error "⚠️ Error adding ICE candidate:")
          else
            console c_log
              "⏳ Queueing ICE candidate (waiting for RemoteDescription)" ;;
            c ← complete (new_RTCIceCandidate (sig_data message));
            modify (set_this (λ s,
              set_pendingCandidates (pendingCandidates s ++ [c]) s))
      | hangup => Ret tt
      end
      (λ e, console c_error "❌ Error processing signaling message:")
  end.

(** [subscribeToSignalingMessages], lines 579-602.  The subscription is
    remembered by the query it listens to; what its listener (lines
    590-597) does with a snapshot is [onSignalingSnapshot] of section 9. *)
Definition subscribeToSignalingMessages (callId userId : string)
    : Async unit :=
  try_catch
    (sub ← onSnapshot_signaling callId userId;
     modify (set_this (set_signalingUnsubscribe (Some sub))) ;;
     console c_log "✅ Subscribed to signaling")
    (λ e, console c_error "❌ Error subscribing to signaling:").

Definition configuration : list (list string) :=
  [ ["stun:stun.l.google.com:19302"; "stun:stun1.l.google.com:19302"];
    ["stun:stun2.l.google.com:19302"; "stun:stun3.l.google.com:19302"] ].

(** [await mediaDevices.getUserMedia({ audio: true, video })]; the
    argument tells whether video constraints are requested. *)
Definition mediaDevices_getUserMedia (withVideo : bool)
    : Async MediaStream :=
  atomically (λ w,
    let '(d, r) := getUserMedia withVideo (device w) in
    (emit (ev_getUserMedia withVideo) (set_device d w),
     Await (complete r))).

(** [await Audio.setAudioModeAsync({...})] *)
Definition Audio_setAudioModeAsync : Async unit :=
  atomically (λ w,
    let '(d, r) := setAudioModeAsync (device w) in
    (emit ev_setAudioMode (set_device d w), Await (complete r))).

(** [new RTCPeerConnection(configuration)] *)
Definition construct_peerConnection : Async PeerConn :=
  modify (emit ev_newPeerConnection) ;;
  complete (new_RTCPeerConnection configuration).

(** [startConnection], lines 329-461. *)
Definition startConnection (callId userId otherUserId : string)
    (isCaller isVideoCall : bool) : Async unit :=
  existing ← gets (λ w, peerConnection (this w));
  match existing with
  | Some _ => console c_warn "⚠️ Call already initialized. Skipping..."
  | None =>
    try_catch
      (console c_log ("Starting WebRTC connection as "
                      +:+ (if isCaller then "Caller" else "Callee")) ;;
       when (negb platform_is_web)
         (try_catch
            (Audio_setAudioModeAsync ;;
             console c_log "✅ Audio mode configured")
            (λ e, console c_warn "⚠️ Failed to set audio mode:")) ;;
       console c_log ("📹 Requesting media (Video: "
                      +:+ bool_str isVideoCall +:+ ")") ;;
       stream ← try_catch
                  (mediaDevices_getUserMedia isVideoCall)
                  (λ e,
                     console c_error
                       "❌ getUserMedia failed with constraints:" ;;
                     fallback ← mediaDevices_getUserMedia false;
                     console c_warn "⚠️ Fallback to audio only" ;;
                     Ret fallback);
       modify (set_this (set_localStream (Some stream))) ;;
       cb ← gets (λ w, onLocalStreamCallback (this w));
       match cb with
       | Some f => modify (emit (ev_localStreamCallback f (Some stream)))
       | None => Ret tt
       end ;;
       pc ← construct_peerConnection;
       modify (set_this (set_peerConnection (Some pc))) ;;
       forEach (getTracks stream) (λ track,
         native_sync (ev_addTrack track) (addTrack track stream)) ;;
       modify (emit ev_onicecandidate) ;;
       modify (emit ev_ontrack) ;;
       subscribeToSignalingMessages callId userId ;;
       when isCaller
         (sdp ← native (ev_createOffer isVideoCall) (createOffer isVideoCall);
          native (ev_setLocalDescription sdp) (setLocalDescription sdp) ;;
          await (sendSignaling
                   {| sig_callId := callId; sig_type := offer;
                      sig_from := userId; sig_to := otherUserId;
                      sig_data := description_data sdp |}) ;;
          console c_log "✅ Offer sent") ;;
       console c_log "✅ WebRTC connection started")
      (λ e, console c_error "❌ Failed to start WebRTC connection:" ;;
            cleanup)
  end.

(** A string field read off a document; a missing field reads as the
    empty string. *)
Definition field (o : option string) : string := default "" o.

(** [acceptCall], lines 102-136. *)
Definition acceptCall (callId userId : string) : Async Result :=
  try_catch
    (modify (set_this (set_currentCallId callId)) ;;
     callSnap ← await (getDoc callId);
     match callSnap with
     | None => Ret (failure CallNotFound)
     | Some callData =>
         if decide (status callData = Some ringing) then
           await (setDoc_merge callId answeredPatch) ;;
           let isVideoCall := bool_decide (callType callData = Some video) in
           await (startConnection callId userId (field (callerId callData))
                    false isVideoCall) ;;
           console c_log "✅ Call accepted" ;;
           Ret ok
         else Ret (failure CallNotActive)
     end)
    (λ e, console c_error "❌ Error accepting call:" ;;
          Ret (failure (message_or e AcceptFailed))).

(** [rejectCall], lines 141-158. *)
Definition rejectCall (callId : string) : Async Result :=
  try_catch
    (await (setDoc_merge callId rejectedPatch) ;;
     console c_log "✅ Call rejected" ;;
     Ret ok)
    (λ e, console c_error "❌ Error rejecting call:" ;;
          Ret (failure (message_or e RejectFailed))).

(** [endCall], lines 163-183; [duration || 0]. *)
Definition endCall (callId : string) (duration : option nat)
    : Async Result :=
  try_catch
    (await (setDoc_merge callId (endedPatch (default 0 duration))) ;;
     await (closeWebRTCConnection callId) ;;
     console c_log "✅ Call ended" ;;
     Ret ok)
    (λ e, console c_error "❌ Error ending call:" ;;
          Ret (failure (message_or e EndFailed))).

(** ** 7. The negotiation queue on the event loop

    [processSignalingQueue] (lines 476-496) is a [while] loop with two
    suspension points: the [await] of the dispatch (line 483) and the
    50 ms pause (line 493).  An activation of the loop is therefore in
    one of two states whenever the event loop has control. *)

Inductive Drain :=
| Dispatching (k : Async unit)
| Pausing.

(** Lines 489-495, reached once the dispatch has settled.  With an empty
    queue the pause is skipped and the loop test of line 477 fails. *)
Definition processSignalingQueue_settled (w : World)
    : World * option Drain :=
  let w' := set_this (set_isProcessingSignal false) w in
  match signalingQueue (this w') with
  | [] => (w', None)
  | _ :: _ => (w', Some Pausing)
  end.

(** Resume a suspended dispatch for one turn. *)
Definition processSignalingQueue_dispatch (k : Async unit) (w : World)
    : World * option Drain :=
  match resume k w with
  | (w', Suspended k') => (w', Some (Dispatching k'))
  | (w', Settled _) => processSignalingQueue_settled w'
  end.

(** Lines 477-488: the loop test, then the synchronous head of one
    iteration up to the first suspension of the dispatch. *)
Definition processSignalingQueue_head (w : World) : World * option Drain :=
  match signalingQueue (this w) with
  | [] => (w, None)
  | message :: rest =>
      if isProcessingSignal (this w) then (w, None)
      else
        let w1 := set_this (set_isProcessingSignal true) w in
        let w2 := set_this (set_signalingQueue rest) w1 in
        processSignalingQueue_dispatch
          (try_catch
             (await (processSignalingMessage message))
             (λ e, console c_error "❌ Error processing signaling:"))
          w2
  end.

(** The event loop's view of a session: the world and the suspended
    activations of the drain loop. *)
Record Sched := { world : World; drains : list Drain }.

Definition spawn (d : option Drain) (ds : list Drain) : list Drain :=
  match d with Some x => ds ++ [x] | None => ds end.

Definition settle (i : nat) (d : option Drain) (ds : list Drain)
    : list Drain :=
  match d with Some x => <[i := x]> ds | None => delete i ds end.

(** [handleSignalingMessage] as declared at lines 466-474: the turn that
    a call of this body runs.  The class declares the name a second time,
    at line 633; section 8 has the body a call through the name enters. *)
Definition handleSignalingMessage (message : CallSignaling) (s : Sched)
    : Sched :=
  let w := set_this (λ t,
             set_signalingQueue (signalingQueue t ++ [message]) t) (world s) in
  if isProcessingSignal (this w) then {| world := w; drains := drains s |}
  else
    let '(w', d) := processSignalingQueue_head w in
    {| world := w'; drains := spawn d (drains s) |}.

(** The event loop resumes the [i]-th suspended activation. *)
Definition wake (i : nat) (s : Sched) : Sched :=
  match drains s !! i with
  | None => s
  | Some (Dispatching k) =>
      let '(w', d) := processSignalingQueue_dispatch k (world s) in
      {| world := w'; drains := settle i d (drains s) |}
  | Some Pausing =>
      let '(w', d) := processSignalingQueue_head (world s) in
      {| world := w'; drains := settle i d (drains s) |}
  end.

(** [closeWebRTCConnection] run as one turn. *)
Definition teardown (s : Sched) : Sched :=
  {| world := (exec cleanup (world s)).1; drains := drains s |}.

(** What can happen to the queue: the body of line 466 is called with a
    message ([Arrive]), the event loop resumes a suspended activation,
    or the connection is torn down. *)
Inductive Occurrence :=
| Arrive (m : CallSignaling)
| Wake (i : nat)
| Teardown.

Definition occur (o : Occurrence) (s : Sched) : Sched :=
  match o with
  | Arrive m => handleSignalingMessage m s
  | Wake i => wake i s
  | Teardown => teardown s
  end.

Definition run_schedule (os : list Occurrence) (s : Sched) : Sched :=
  foldl (λ s o, occur o s) s os.

(** The messages a schedule delivers, in delivery order. *)
Definition arrivals (os : list Occurrence) : list CallSignaling :=
  omap (λ o, match o with Arrive m => Some m | _ => None end) os.

Definition no_teardown (os : list Occurrence) : bool :=
  forallb (λ o, match o with Teardown => false | _ => true end) os.

(** [n] turns that each resume the oldest suspended activation. *)
Definition drain_turns (n : nat) : list Occurrence := replicate n (Wake 0).

(** The synchronous reference of the queue: each message is dispatched to
    completion before the next one is looked at. *)
Definition apply_synchronously (ms : list CallSignaling) (w : World)
    : World :=
  foldl (λ w m, (exec (processSignalingMessage m) w).1) w ms.

(** The dispatch an activation is suspended in, if any. *)
Definition continuation (d : Drain) : option (Async unit) :=
  match d with Dispatching k => Some k | Pausing => None end.

(** The dispatches in flight. *)
Definition dispatches (s : Sched) : list (Async unit) :=
  omap continuation (drains s).

Definition in_flight (s : Sched) : nat := length (dispatches s).

Definition quiescent (s : Sched) : Prop :=
  drains s = [] ∧ signalingQueue (this (world s)) = []
  ∧ isProcessingSignal (this (world s)) = false.

(** ** 8. Method binding and the call through a name

    The members of the class body that declare a method, as (name, line
    of the declaration).  A class body installs its methods on the
    prototype in source order, so a later declaration of a name replaces
    an earlier one. *)
Definition CallService_members : list (string * nat) :=
  [ ("initiateCall", 58); ("acceptCall", 102); ("rejectCall", 141);
    ("endCall", 163); ("subscribeToIncomingCalls", 188);
    ("getCallDetails", 217); ("sendCallNotification", 242);
    ("setOnRemoteStream", 267); ("setOnLocalStream", 271);
    ("toggleAudio", 277); ("toggleVideo", 285); ("toggleSpeaker", 293);
    ("switchCamera", 311); ("startConnection", 329);
    ("handleSignalingMessage", 466); ("processSignalingQueue", 476);
    ("processSignalingMessage", 498); ("processPendingCandidates", 562);
    ("subscribeToSignalingMessages", 579); ("sendSignaling", 607);
    ("handleSignalingMessage", 633); ("closeWebRTCConnection", 640);
    ("cleanup", 679) ].

Definition prototype : gmap string nat :=
  foldl (λ (p : gmap string nat) (d : string * nat), <[d.1 := d.2]> p)
        ∅ CallService_members.

(** A frame of the call stack: the declaration whose body runs and its
    argument. *)
Record Frame := { decl : nat; arg : CallSignaling }.

(** [this.name(message)]: the body entered is the one the prototype
    binds. *)
Definition enter (name : string) (message : CallSignaling) : option Frame :=
  line ← prototype !! name;
  Some {| decl := line; arg := message |}.

(** *** The call through the name

    Both call sites, [this.handleSignalingMessage(message)] in the
    snapshot listener (line 593) and
    [callService.handleSignalingMessage(signaling)] in the provider
    (CallContext.tsx line 281), call through the name and drop the
    promise.  What follows is the engine for such calls: a call stack
    of bounded depth, the promises of [async] functions, and the job
    queue that runs their reactions. *)

(** [RangeError: Maximum call stack size exceeded] *)
Definition RangeError : JsError :=
  {| message := "Maximum call stack size exceeded" |}.

(** A promise as its holder finds it. *)
Inductive PromiseState :=
| p_pending
| p_fulfilled
| p_rejected (e : JsError).

(** A promise with the frames suspended on it: the head awaits the
    promise itself, every further frame the promise of the frame before
    it. *)
Record Chain := { promise : PromiseState; awaiting : list Frame }.

(** The engine while a listener hands messages to the handler. *)
Record Engine := {
  (* the messages the running listener has still to hand over *)
  calling : list CallSignaling;
  (* the frames above the listener's, innermost first *)
  stack : list Frame;
  (* the promise a callee has just returned to the frame below it *)
  returned : option Chain;
  (* settled promises whose reactions are due, in job-queue order *)
  jobs : list Chain;
  (* pending promises and the frames that wait for them *)
  parked : list Chain;
  (* rejections that no handler was registered for *)
  unhandled : list JsError;
  sched : Sched;
}.

(** The listener calls [this.handleSignalingMessage(message)] (line 593;
    [callService.handleSignalingMessage(signaling)] at CallContext.tsx
    line 281) and drops the promise it gets. *)
Definition listener_step (st : Engine) : option Engine :=
  match returned st, calling st with
  | Some c, _ =>
      Some {| calling := calling st; stack := []; returned := None;
              jobs := match promise c with
                      | p_pending => jobs st
                      | _ => jobs st ++ [c]
                      end;
              parked := match promise c with
                        | p_pending => parked st ++ [c]
                        | _ => parked st
                        end;
              unhandled := unhandled st; sched := sched st |}
  | None, message :: rest =>
      f ← enter "handleSignalingMessage" message;
      Some {| calling := rest; stack := [f]; returned := None;
              jobs := jobs st; parked := parked st;
              unhandled := unhandled st; sched := sched st |}
  | None, [] => None
  end.

(** One step of the innermost frame [f].  [room] is the number of
    nested calls the stack has room for above the listener's call. *)
Definition frame_step (room : nat) (f : Frame) (below : list Frame)
    (st : Engine) : option Engine :=
  if decide (decl f = 633) then
    match returned st with
    | None =>
        (* line 634, [this.handleSignalingMessage(message)] *)
        f' ← enter "handleSignalingMessage" (arg f);
        if decide (length (stack st) ≤ room)%nat then
          Some {| calling := calling st; stack := f' :: f :: below;
                  returned := None; jobs := jobs st; parked := parked st;
                  unhandled := unhandled st; sched := sched st |}
        else
          (* no room for the callee: the [RangeError] is thrown in the
             body of [f], an [async] function, and rejects its promise *)
          Some {| calling := calling st; stack := below;
                  returned := Some {| promise := p_rejected RangeError;
                                      awaiting := [] |};
                  jobs := jobs st; parked := parked st;
                  unhandled := unhandled st; sched := sched st |}
    | Some c =>
        (* line 634, [await]: [f] suspends on the promise of its callee
           and returns its own *)
        Some {| calling := calling st; stack := below;
                returned := Some {| promise := promise c;
                                    awaiting := awaiting c ++ [f] |};
                jobs := jobs st; parked := parked st;
                unhandled := unhandled st; sched := sched st |}
    end
  else if decide (decl f = 466) then
    match returned st with
    | None =>
        (* lines 466-474: the turn of section 7.  The promise is
           fulfilled when line 471 finds the flag raised, and otherwise
           pending until the activation of the drain loop ends *)
        Some {| calling := calling st; stack := below;
                returned :=
                  Some {| promise :=
                            if isProcessingSignal (this (world (sched st)))
                            then p_fulfilled else p_pending;
                          awaiting := [] |};
                jobs := jobs st; parked := parked st;
                unhandled := unhandled st;
                sched := handleSignalingMessage (arg f) (sched st) |}
    | Some _ => None
    end
  else None.

(** One job: the reaction to the settled promise at the head of the
    queue.  A frame resumes at line 634, where a rejection is rethrown
    and, no handler enclosing it, rejects the promise of the frame in
    turn; on fulfilment the body ends and the promise of the frame is
    fulfilled.  A rejected promise that nothing waits for is reported as
    unhandled. *)
Definition job_step (st : Engine) : option Engine :=
  match jobs st with
  | [] => None
  | c :: rest =>
      match awaiting c with
      | [] =>
          Some {| calling := calling st; stack := stack st;
                  returned := returned st; jobs := rest;
                  parked := parked st;
                  unhandled := unhandled st
                               ++ match promise c with
                                  | p_rejected e => [e]
                                  | _ => []
                                  end;
                  sched := sched st |}
      | f :: ws =>
          Some {| calling := calling st; stack := stack st;
                  returned := returned st;
                  jobs := rest ++ [{| promise := promise c;
                                      awaiting := ws |}];
                  parked := parked st; unhandled := unhandled st;
                  sched := sched st |}
      end
  end.

(** Jobs run when the stack is empty and the listener has returned. *)
Definition engine_step (room : nat) (st : Engine) : option Engine :=
  match stack st with
  | f :: below => frame_step room f below st
  | [] =>
      match returned st, calling st with
      | None, [] => job_step st
      | _, _ => listener_step st
      end
  end.

Fixpoint engine_run (room fuel : nat) (st : Engine) : Engine :=
  match fuel with
  | 0 => st
  | S n =>
      match engine_step room st with
      | Some st' => engine_run room n st'
      | None => st
      end
  end.

(** Nothing is running and nothing is due. *)
Definition idle (s : Sched) : Engine :=
  {| calling := []; stack := []; returned := None; jobs := [];
     parked := []; unhandled := []; sched := s |}.

(** A listener starts to run with [messages] to hand over. *)
Definition hand_over (messages : list CallSignaling) (st : Engine)
    : Engine :=
  {| calling := messages; stack := stack st; returned := returned st;
     jobs := jobs st; parked := parked st; unhandled := unhandled st;
     sched := sched st |}.

(** Steps enough for [n] messages: one takes [3 * room + 4], namely the
    call, [room] nested calls, the call that finds no room, [room]
    awaits, the return to the listener, and [room + 1] jobs. *)
Definition engine_fuel (room n : nat) : nat := n * (3 * room + 4).

(** Every frame alive in the engine satisfies [P]. *)
Definition all_frames (P : Frame → Prop) (st : Engine) : Prop :=
  Forall P (stack st)
  ∧ from_option (λ c, Forall P (awaiting c)) True (returned st)
  ∧ Forall (λ c, Forall P (awaiting c)) (jobs st)
  ∧ Forall (λ c, Forall P (awaiting c)) (parked st).


(** ** 9. [CallProvider]: the incoming-call listener
    (CallContext.tsx, lines 226-270) *)

(** The React state the listener is concerned with. *)
Record Provider := {
  user : option string;
  activeCall : option string;
  manualCall : option CallDoc;
}.

Inductive UiEvent :=
| ui_playRingtone
| ui_stopAllSounds
| ui_setTimeout (ms : N) (callId : option string).

(** The callback handed to [subscribeToIncomingCalls] is created by the
    effect of lines 226-270, whose dependency list is [[user]].  It closes
    over the [activeCall] and [manualCall] bindings of the render in which
    that effect ran. *)
Record IncomingListener := {
  l_uid : string;
  l_activeCall : option string;
  l_manualCall : option CallDoc;
}.

Record App := {
  state : Provider;
  listener : option IncomingListener;
  backend : World;
  ui : list UiEvent;
}.

(** [setManualCall(v)] and [setActiveCall(v)]: the component renders
    again; the effect of lines 226-270 does not run again, because
    [user] is unchanged. *)
Definition setManualCall (v : option CallDoc) (a : App) : App :=
  {| state := {| user := user (state a); activeCall := activeCall (state a);
                 manualCall := v |};
     listener := listener a; backend := backend a; ui := ui a |}.

Definition setActiveCall (v : option string) (a : App) : App :=
  {| state := {| user := user (state a); activeCall := v;
                 manualCall := manualCall (state a) |};
     listener := listener a; backend := backend a; ui := ui a |}.

(** The body of the effect, lines 227-262. *)
Definition manualSubscriptionEffect (a : App) : App :=
  match user (state a) with
  | None => a
  | Some uid =>
      {| state := {| user := Some uid; activeCall := activeCall (state a);
                     manualCall := None |};
         listener := Some {| l_uid := uid;
                             l_activeCall := activeCall (state a);
                             l_manualCall := manualCall (state a) |};
         backend :=
           set_this (λ t, set_onRemoteStreamCallback (Some setRemoteStream)
                            (set_onLocalStreamCallback (Some setLocalStream) t))
                    (backend a);
         ui := ui a ++ [ui_stopAllSounds] |}
  end.

(** [user] changes: React renders and then runs the effect. *)
Definition setUser (u : option string) (a : App) : App :=
  manualSubscriptionEffect
    {| state := {| user := u; activeCall := activeCall (state a);
                   manualCall := manualCall (state a) |};
       listener := None; backend := backend a; ui := ui a |}.

(** Line 237. *)
Definition isManualBusy (l : IncomingListener) (call : CallDoc) : bool :=
  match l_manualCall l with
  | Some mc =>
      (bool_decide (status mc = Some ringing)
       || bool_decide (status mc = Some answered))
      && bool_decide (callId mc ≠ callId call)
  | None => false
  end.

(** The callback, lines 234-259. *)
Definition onIncomingCall (l : IncomingListener) (call : CallDoc) (a : App)
    : App :=
  let b := emit (Console c_log "📞 Incoming manual call:") (backend a) in
  if bool_decide (is_Some (l_activeCall l)) || isManualBusy l call then
    {| state := state a; listener := listener a;
       backend :=
         (exec (console c_log
                  "⚠️ User already in a call, rejecting incoming manual call" ;;
                rejectCall (field (callId call))) b).1;
       ui := ui a |}
  else
    setManualCall (Some call)
      {| state := state a; listener := listener a; backend := b;
         ui := ui a ++ [ui_playRingtone; ui_setTimeout 45000%N (callId call)] |}.

Inductive ChangeType := added | modified | removed.

(** [subscribeToIncomingCalls], lines 188-212: one change of the [calls]
    collection reaches the listener. *)
Definition docChange (c : ChangeType) (callData : CallDoc) (a : App) : App :=
  match listener a with
  | None => a
  | Some l =>
      match c with
      | removed => a
      | _ =>
          if bool_decide (receiverId callData = Some (l_uid l))
             && bool_decide (status callData = Some ringing)
          then onIncomingCall l callData a
          else a
      end
  end.

(** The call is shown to the local user as a ringing call. *)
Definition surfaced (call : CallDoc) (a : App) : Prop :=
  manualCall (state a) = Some call.

(** *** The signaling listener
    ([subscribeToSignalingMessages], lines 590-597) *)

(** The messages the snapshot listener of lines 590-597 hands over: the
    documents of the [added] changes, in the order of the snapshot. *)
Definition added_messages (changes : list (ChangeType * CallSignaling))
    : list CallSignaling :=
  omap (λ change, match change.1 with
                  | added => Some change.2
                  | _ => None
                  end) changes.

(** One snapshot handed to the listener, and the jobs the calls leave
    behind. *)
Definition onSignalingSnapshot (room : nat)
    (changes : list (ChangeType * CallSignaling)) (st : Engine) : Engine :=
  engine_run room (engine_fuel room (length (added_messages changes)))
    (hand_over (added_messages changes) st).

(** [f] applied to the session. *)
Definition set_sched (f : Sched → Sched) (st : Engine) : Engine :=
  {| calling := calling st; stack := stack st; returned := returned st;
     jobs := jobs st; parked := parked st; unhandled := unhandled st;
     sched := f (sched st) |}.

(** The session as the class binds its methods: a delivery is a snapshot
    with one added document; the drain loop and the teardown are those
    of section 7. *)
Definition occur_bound (room : nat) (o : Occurrence) (st : Engine)
    : Engine :=
  match o with
  | Arrive m => onSignalingSnapshot room [(added, m)] st
  | Wake i => set_sched (wake i) st
  | Teardown => set_sched teardown st
  end.

Definition run_bound (room : nat) (os : list Occurrence) (st : Engine)
    : Engine :=
  foldl (λ st o, occur_bound room o st) st os.


End Service.

Arguments Ret {H A} a.
Arguments Throw {H A} e.
Arguments Act {H A} write next.
Arguments Await {H A} k.
Arguments Settled {H A} c.
Arguments Suspended {H A} k.

(** ** 10. A reference engine

    A small engine following the WebRTC signaling state machine; it gives
    the theorems of the interface concrete worlds to be evaluated on. *)
Module Sim.

Inductive payload :=
| p_null
| p_sdp (kind : SignalingType) (body : string)
| p_candidate (c : string).

Record pc := {
  sig : SignalingState;
  remote : option string;
  local : option string;
  candidates : list string;
}.

Definition InvalidState : JsError := {| message := "InvalidStateError" |}.
Definition Malformed : JsError := {| message := "TypeError" |}.
Definition NotAllowed : JsError := {| message := "NotAllowedError" |}.

Definition set_remote (d : SignalingType * string) (p : pc)
    : pc * Completion unit :=
  match d.1, sig p with
  | offer, stable =>
      ({| sig := have_remote_offer; remote := Some d.2; local := local p;
          candidates := candidates p |}, Normal tt)
  | answer, have_local_offer =>
      ({| sig := stable; remote := Some d.2; local := local p;
          candidates := candidates p |}, Normal tt)
  | _, _ => (p, Abrupt InvalidState)
  end.

Definition set_local (d : SignalingType * string) (p : pc)
    : pc * Completion unit :=
  match d.1, sig p with
  | offer, stable =>
      ({| sig := have_local_offer; remote := remote p; local := Some d.2;
          candidates := candidates p |}, Normal tt)
  | answer, have_remote_offer =>
      ({| sig := stable; remote := remote p; local := Some d.2;
          candidates := candidates p |}, Normal tt)
  | _, _ => (p, Abrupt InvalidState)
  end.

Definition add_candidate (c : string) (p : pc) : pc * Completion unit :=
  match remote p with
  | Some _ =>
      ({| sig := sig p; remote := remote p; local := local p;
          candidates := candidates p ++ [c] |}, Normal tt)
  | None => (p, Abrupt InvalidState)
  end.

Definition create_answer (p : pc)
    : pc * Completion (SignalingType * string) :=
  match sig p with
  | have_remote_offer => (p, Normal (answer, "answer-sdp"))
  | _ => (p, Abrupt InvalidState)
  end.

(** The device grants or denies the coming media requests in turn; an
    exhausted list grants. *)
Definition get_user_media (withVideo : bool) (d : list bool)
    : list bool * Completion (list string) :=
  match d with
  | false :: d' => (d', Abrupt NotAllowed)
  | true :: d' => (d', Normal (if withVideo then ["audio"; "video"] else ["audio"]))
  | [] => ([], Normal (if withVideo then ["audio"; "video"] else ["audio"]))
  end.

Definition engine : Native := {|
  Payload := payload;
  Description := SignalingType * string;
  IceCandidate := string;
  PeerConn := pc;
  MediaStream := list string;
  MediaTrack := string;
  Device := list bool;
  platform_is_web := false;
  payload_truthy := λ p, match p with p_null => false | _ => true end;
  payload_null := p_null;
  JSON_copy := λ p, p;
  description_data := λ d, p_sdp d.1 d.2;
  new_RTCSessionDescription := λ p,
    match p with p_sdp k b => Normal (k, b) | _ => Abrupt Malformed end;
  new_RTCIceCandidate := λ p,
    match p with p_candidate c => Normal c | _ => Abrupt Malformed end;
  new_RTCPeerConnection := λ _,
    Normal {| sig := stable; remote := None; local := None;
              candidates := [] |};
  setAudioModeAsync := λ d, (d, Normal tt);
  getUserMedia := get_user_media;
  getTracks := λ s, s;
  has_release := λ _, true;
  addTrack := λ _ _ p, (p, Normal tt);
  createOffer := λ _ p, (p, Normal (offer, "offer-sdp"));
  createAnswer := create_answer;
  setLocalDescription := set_local;
  setRemoteDescription := set_remote;
  addIceCandidate := add_candidate;
  signalingState := sig;
|}.

#[local] Existing Instance engine.

Definition firestore0 : Firestore :=
  {| calls := ∅; signaling := []; serverTime := 100; faults := [] |}.

(** A fresh service on a healthy backend. *)
Definition world0 : World :=
  {| this := newCallService; db := firestore0; device := [];
     trace := [] |}.

Definition fresh_pc : pc :=
  {| sig := stable; remote := None; local := None; candidates := [] |}.

(** A callee's session right after [startConnection]: a peer connection
    exists and no description has been applied. *)
Definition session0 : World :=
  set_this (set_peerConnection (Some fresh_pc)) world0.

Definition msg (t : SignalingType) (d : payload) : CallSignaling :=
  {| sig_callId := "call_1"; sig_type := t; sig_from := "alice";
     sig_to := "bob"; sig_data := d |}.

Definition ringingDoc (id caller receiver : string) : CallDoc :=
  {| callId := Some id; callerId := Some caller;
     callerName := Some caller; callerPhoto := None;
     receiverId := Some receiver; receiverName := None;
     receiverPhoto := None; callType := Some voice;
     status := Some ringing; createdAt := Some 1; answeredAt := None;
     endedAt := None; duration := None |}.

Definition with_call (id : string) (d : CallDoc) (w : World) : World :=
  set_db {| calls := <[id := d]> (calls (db w));
            signaling := signaling (db w);
            serverTime := serverTime (db w);
            faults := faults (db w) |} w.

Definition with_status (st : CallStatus) (d : CallDoc) : CallDoc :=
  mergeDoc {| callId := None; callerId := None; callerName := None;
              callerPhoto := None; receiverId := None;
              receiverName := None; receiverPhoto := None;
              callType := None; status := Some st; createdAt := None;
              answeredAt := None; endedAt := None; duration := None |} d.

End Sim.
(** * Properties *)

Section Properties.
Context `{Native}.

(** ** Laws of the resumption monad *)

Lemma exec_bind {A B} (m : Async A) (f : A → Async B) w :
  exec (m ≫= f) w =
  match exec m w with
  | (w', Normal a) => exec (f a) w'
  | (w', Abrupt e) => (w', Abrupt e)
  end.
Proof.
  unfold mbind, Async_bind. revert w.
  induction m as [a|e|g k IH|k IH]; intros w; cbn; auto.
Qed.

Lemma exec_try_catch {A} (m : Async A) h w :
  exec (try_catch m h) w =
  match exec m w with
  | (w', Normal a) => (w', Normal a)
  | (w', Abrupt e) => exec (h e) w'
  end.
Proof.
  revert w. induction m as [a|e|g k IH|k IH]; intros w; cbn; auto.
Qed.

Lemma exec_await {A} (m : Async A) w : exec (await m) w = exec m w.
Proof.
  revert w. induction m as [a|e|g k IH|k IH]; intros w; cbn; auto.
Qed.

(** A turn followed by a run to completion is a run to completion. *)
Lemma exec_resume {A} (m : Async A) w :
  exec m w =
  match resume m w with
  | (w', Settled c) => (w', c)
  | (w', Suspended k) => exec k w'
  end.
Proof.
  revert w. induction m as [a|e|g k IH|k IH]; intros w; cbn; auto.
Qed.

Lemma resume_bind {A B} (m : Async A) (f : A → Async B) w :
  resume (m ≫= f) w =
  match resume m w with
  | (w', Settled (Normal a)) => resume (f a) w'
  | (w', Settled (Abrupt e)) => (w', Settled (Abrupt e))
  | (w', Suspended k) => (w', Suspended (k ≫= f))
  end.
Proof.
  unfold mbind, Async_bind. revert w.
  induction m as [a|e|g k IH|k IH]; intros w; cbn; auto.
Qed.

Lemma exec_gets {A} (f : World → A) w : exec (gets f) w = (w, Normal (f w)).
Proof. reflexivity. Qed.

Lemma exec_modify f w : exec (modify f) w = (f w, Normal tt).
Proof. reflexivity. Qed.

Lemma exec_console l t w :
  exec (console l t) w = (emit (Console l t) w, Normal tt).
Proof. reflexivity. Qed.

Lemma exec_atomically {A} (step : World → World * Async A) w :
  exec (atomically step) w = exec (step w).2 (step w).1.
Proof. reflexivity. Qed.

Lemma exec_Ret {A} (a : A) w : exec (Ret a) w = (w, Normal a).
Proof. reflexivity. Qed.

Lemma exec_Throw {A} e w : exec (Throw e : Async A) w = (w, Abrupt e).
Proof. reflexivity. Qed.

Lemma exec_Await {A} (k : Async A) w : exec (Await k) w = exec k w.
Proof. reflexivity. Qed.

Lemma exec_complete {A} (c : Completion A) w : exec (complete c) w = (w, c).
Proof. destruct c; reflexivity. Qed.

Lemma exec_when_true m w : exec (when true m) w = exec m w.
Proof. reflexivity. Qed.

Lemma exec_when_false m w : exec (when false m) w = (w, Normal tt).
Proof. reflexivity. Qed.

Ltac exec_simpl :=
  repeat (progress
    (rewrite ?exec_bind, ?exec_try_catch, ?exec_await, ?exec_gets,
       ?exec_modify, ?exec_console, ?exec_atomically, ?exec_Ret,
       ?exec_Throw, ?exec_Await, ?exec_complete, ?exec_when_true,
       ?exec_when_false;
     cbn beta iota zeta delta
       [fst snd this db device trace set_this set_db set_device emit
        peerConnection localStream remoteStream signalingQueue
        isProcessingSignal isRemoteDescriptionSet pendingCandidates
        onRemoteStreamCallback onLocalStreamCallback signalingUnsubscribe
        currentCallId set_peerConnection set_localStream set_remoteStream
        set_signalingQueue set_isProcessingSignal set_isRemoteDescriptionSet
        set_pendingCandidates set_onRemoteStreamCallback
        set_onLocalStreamCallback set_signalingUnsubscribe
        set_currentCallId])).

Lemma exec_forEach_emit {A} (l : list A) (ev : A → Event) w :
  exec (forEach l (λ x, modify (emit (ev x)))) w =
  ({| this := this w; db := db w; device := device w;
      trace := trace w ++ map ev l |}, Normal tt).
Proof.
  revert w. induction l as [|x l IH]; intros w; cbn [forEach map].
  - rewrite app_nil_r. by destruct w.
  - exec_simpl. rewrite IH. cbn. by rewrite <- app_assoc.
Qed.

(** ** Programs whose every write is related to the world it found *)

Fixpoint writes {A} (R : World → World → Prop) (m : Async A) : Prop :=
  match m with
  | Ret _ | Throw _ => True
  | Act g k => (∀ w, R w (g w)) ∧ (∀ w, writes R (k w))
  | Await k => writes R k
  end.

Section Writes.
Context (R : World → World → Prop) `{!PreOrder R}.

Lemma writes_bind {A B} (m : Async A) (f : A → Async B) :
  writes R m → (∀ a, writes R (f a)) → writes R (m ≫= f).
Proof.
  unfold mbind, Async_bind. intros Hm Hf.
  induction m as [a|e|g k IH|k IH]; cbn in *; auto.
  destruct Hm as [Hg Hk]. split; auto.
Qed.

Lemma writes_try_catch {A} (m : Async A) h :
  writes R m → (∀ e, writes R (h e)) → writes R (try_catch m h).
Proof.
  intros Hm Hh. induction m as [a|e|g k IH|k IH]; cbn in *; auto.
  destruct Hm as [Hg Hk]. split; auto.
Qed.

Lemma writes_await {A} (m : Async A) : writes R m → writes R (await m).
Proof.
  intros Hm. induction m as [a|e|g k IH|k IH]; cbn in *; auto.
  destruct Hm as [Hg Hk]. split; auto.
Qed.

Lemma writes_atomically {A} (step : World → World * Async A) :
  (∀ w, R w (step w).1) → (∀ w, writes R (step w).2) →
  writes R (atomically step).
Proof. intros H1 H2. cbn. auto. Qed.

Lemma writes_gets {A} (f : World → A) : writes R (gets f).
Proof. cbn. split; [reflexivity|done]. Qed.

Lemma writes_modify f : (∀ w, R w (f w)) → writes R (modify f).
Proof. cbn. auto. Qed.

Lemma writes_complete {A} (c : Completion A) : writes R (complete c).
Proof. by destruct c. Qed.

Lemma writes_forEach {A} (l : list A) f :
  (∀ x, writes R (f x)) → writes R (forEach l f).
Proof.
  intros Hf. induction l as [|x l IH]; cbn [forEach]; [done|].
  apply writes_bind; auto.
Qed.

Lemma writes_when b m : writes R m → writes R (when b m).
Proof. by destruct b. Qed.

Lemma writes_exec {A} (m : Async A) w : writes R m → R w (exec m w).1.
Proof.
  revert w. induction m as [a|e|g k IH|k IH]; intros w Hm; cbn in *;
    try reflexivity.
  - destruct Hm as [Hg Hk]. etrans; [apply Hg|]. by apply IH.
  - by apply IH.
Qed.

Lemma writes_resume {A} (m : Async A) w :
  writes R m →
  R w (resume m w).1 ∧
  match (resume m w).2 with
  | Suspended k => writes R k
  | Settled _ => True
  end.
Proof.
  revert w. induction m as [a|e|g k IH|k IH]; intros w Hm; cbn in *;
    try (split; [reflexivity|done]).
  destruct Hm as [Hg Hk]. destruct (IH w (g w) (Hk w)) as [H1 H2].
  split; [etrans; [apply Hg|apply H1]|done].
Qed.

End Writes.

(** Structural decomposition of a [writes] goal; [leaf] closes the
    obligations on the atomic actions. *)
Ltac writes_step :=
  match goal with
  | |- writes _ (_ ≫= _) => apply writes_bind; [|intros ?]
  | |- writes _ (try_catch _ _) => apply writes_try_catch; [|intros ?]
  | |- writes _ (await _) => apply writes_await
  | |- writes _ (gets _) => apply writes_gets
  | |- writes _ (modify _) => apply writes_modify; intros ?
  | |- writes _ (console _ _) => apply writes_modify; intros ?
  | |- writes _ (complete _) => apply writes_complete
  | |- writes _ (forEach _ _) => apply writes_forEach; intros ?
  | |- writes _ (when _ _) => apply writes_when
  | |- writes _ (atomically _) => apply writes_atomically; intros ?
  | |- writes _ (Ret _) => exact I
  | |- writes _ (mret _) => exact I
  | |- writes _ (Throw _) => exact I
  | |- writes _ (Await _) => cbn [writes]
  | |- writes _ (match ?x with _ => _ end) => destruct x eqn:?
  | |- writes _ (if ?x then _ else _) => destruct x eqn:?
  | |- writes _ (let '(_, _) := ?x in _).2 => destruct x eqn:?; cbn [fst snd]
  | |- writes _ (match ?x with _ => _ end).2 => destruct x eqn:?; cbn [fst snd]
  | |- _ _ (let '(_, _) := ?x in _).1 => destruct x eqn:?; cbn [fst snd]
  | |- _ _ (match ?x with _ => _ end).1 => destruct x eqn:?; cbn [fst snd]
  end.

(** ** Firestore requests *)

Lemma request_calls fs : calls (request fs).1 = calls fs.
Proof. unfold request. destruct (faults fs); reflexivity. Qed.

Lemma request_signaling fs : signaling (request fs).1 = signaling fs.
Proof. unfold request. destruct (faults fs); reflexivity. Qed.

Lemma request_serverTime fs : serverTime (request fs).1 = serverTime fs.
Proof. unfold request. destruct (faults fs); reflexivity. Qed.

Lemma request_healthy fs : faults fs = [] → request fs = (fs, None).
Proof. unfold request. by intros ->. Qed.

(** ** C8: the double-start guard *)

Lemma resume_try_catch {A} (m : Async A) h w :
  resume (try_catch m h) w =
  match resume m w with
  | (w', Settled (Normal a)) => (w', Settled (Normal a))
  | (w', Settled (Abrupt e)) => resume (h e) w'
  | (w', Suspended k) => (w', Suspended (try_catch k h))
  end.
Proof.
  revert w. induction m as [a|e|g k IH|k IH]; intros w; cbn; auto.
Qed.

(** C8 (as amended).  The guard of lines 336-339 reads
    [this.peerConnection], which line 404 assigns.  A call that finds
    the field set settles in the turn it is made in, and the world is
    the one it found plus one console warning: no media is requested,
    no peer connection constructed, nothing subscribed, nothing sent.
    A call that finds the field null passes the guard and is suspended
    at its first [await] (the audio mode, on the web the media request)
    with the service as it found it, so the field is still null: a
    second call made during that suspension passes the guard too. *)
Theorem startConnection_double_start_guard
    callId userId otherUserId isCaller isVideoCall w :
  let call := startConnection callId userId otherUserId isCaller isVideoCall in
  let warning := Console c_warn "⚠️ Call already initialized. Skipping..." in
  match peerConnection (this w) with
  | Some _ =>
      resume call w = (emit warning w, Settled (Normal tt))
      ∧ exec call w = (emit warning w, Normal tt)
  | None =>
      ∃ k, (resume call w).2 = Suspended k
           ∧ this (resume call w).1 = this w
           ∧ db (resume call w).1 = db w
           ∧ trace (resume call w).1
             = trace w
               ++ Console c_log ("Starting WebRTC connection as "
                                 +:+ (if isCaller then "Caller" else "Callee"))
               :: (if platform_is_web
                   then [Console c_log ("📹 Requesting media (Video: "
                                        +:+ bool_str isVideoCall +:+ ")");
                         ev_getUserMedia isVideoCall]
                   else [ev_setAudioMode])
  end.
Proof.
  intros call warning. subst call warning.
  destruct (peerConnection (this w)) as [pc|] eqn:Hpc.
  - assert (resume (startConnection callId userId otherUserId isCaller
                      isVideoCall) w
            = (emit (Console c_warn "⚠️ Call already initialized. Skipping...")
                 w, Settled (Normal tt))) as Hres.
    { unfold startConnection. rewrite resume_bind.
      cbn [gets resume fst snd id]. rewrite Hpc. reflexivity. }
    split; [exact Hres|]. rewrite exec_resume, Hres. reflexivity.
  - unfold startConnection. rewrite resume_bind.
    cbn [gets resume fst snd id]. rewrite Hpc.
    rewrite resume_try_catch, resume_bind.
    cbn [console modify resume].
    rewrite resume_bind.
    destruct platform_is_web; cbn [negb when].
    + cbn [resume]. rewrite resume_bind. cbn [console modify resume].
      rewrite resume_bind, resume_try_catch.
      unfold mediaDevices_getUserMedia, atomically. cbn [resume].
      destruct (getUserMedia isVideoCall _) as [d r]. cbn [fst snd resume].
      eexists. split; [reflexivity|].
      split_and!; try reflexivity.
      cbn [trace emit set_device]. by rewrite <- !app_assoc.
    + rewrite resume_try_catch, resume_bind.
      unfold Audio_setAudioModeAsync, atomically. cbn [resume].
      destruct (setAudioModeAsync _) as [d r]. cbn [fst snd resume].
      eexists. split; [reflexivity|].
      split_and!; try reflexivity.
      cbn [trace emit set_device]. by rewrite <- !app_assoc.
Qed.

(** Two calls that overlap: the second is made while the first is
    suspended for the first time; the first then runs to its end before
    the second is resumed. *)
Definition overlapped {A B} (m1 : Async A) (m2 : Async B) (w : World)
    : World :=
  match resume m1 w with
  | (w1, Suspended k1) =>
      match resume m2 w1 with
      | (w2, Suspended k2) => (exec k2 (exec k1 w2).1).1
      | (w2, Settled _) => (exec k1 w2).1
      end
  | (w1, Settled _) => (exec m2 w1).1
  end.

(** The warnings among the events of a trace. *)
Definition is_warning (e : Event) : bool :=
  match e with Console c_warn _ => true | _ => false end.

Definition warnings (t : list Event) : list Event :=
  filter (λ e, is_warning e = true) t.

(** ** C3: accepting a call that is not ringing *)

(** C3 (as amended).  When the read of the record succeeds and the record
    is absent or its status is not [ringing], [acceptCall] returns the
    failure [CallNotFound], respectively [CallNotActive]; the [calls]
    collection, the signaling log, the device and the trace are
    untouched, and of the service's own fields exactly [currentCallId]
    changes: it holds the [callId] that was passed. *)
Theorem acceptCall_not_ringing callId userId w :
  (request (db w)).2 = None →
  (calls (db w) !! callId ≫= status) ≠ Some ringing →
  let r := exec (acceptCall callId userId) w in
  r.2 = Normal (failure (match calls (db w) !! callId with
                         | Some _ => CallNotActive
                         | None => CallNotFound
                         end))
  ∧ calls (db r.1) = calls (db w)
  ∧ signaling (db r.1) = signaling (db w)
  ∧ serverTime (db r.1) = serverTime (db w)
  ∧ device r.1 = device w
  ∧ trace r.1 = trace w
  ∧ this r.1 = set_currentCallId callId (this w).
Proof.
  intros Hreq Hst r. subst r. unfold acceptCall, getDoc. exec_simpl.
  pose proof (request_calls (db w)) as Hc.
  pose proof (request_signaling (db w)) as Hs.
  pose proof (request_serverTime (db w)) as Ht.
  destruct (request (db w)) as [fs o]. cbn in Hreq, Hc, Hs, Ht. subst o.
  exec_simpl. rewrite Hc.
  destruct (calls (db w) !! callId) as [d|]; cbn in Hst.
  - rewrite decide_False by done. exec_simpl. done.
  - exec_simpl. done.
Qed.

(** ** The dispatch of one signaling message *)

Definition is_console (e : Event) : bool :=
  match e with Console _ _ => true | _ => false end.

(** The calls made to collaborators, console lines left out. *)
Definition native_calls (t : list Event) : list Event :=
  filter (λ e, is_console e = false) t.

Lemma native_calls_app t1 t2 :
  native_calls (t1 ++ t2) = native_calls t1 ++ native_calls t2.
Proof. apply filter_app. Qed.

Lemma native_calls_console l t tr :
  native_calls (Console l t :: tr) = native_calls tr.
Proof. unfold native_calls. by rewrite filter_cons_False by done. Qed.

Lemma native_calls_native e tr :
  is_console e = false → native_calls (e :: tr) = e :: native_calls tr.
Proof. intros He. unfold native_calls. by rewrite filter_cons_True by done. Qed.

Ltac native_calls_simpl :=
  repeat first [ rewrite native_calls_console
               | rewrite native_calls_native by done
               | rewrite native_calls_app ].

Lemma native_calls_addIce (cs : list IceCandidate) :
  native_calls (map ev_addIceCandidate cs) = map ev_addIceCandidate cs.
Proof.
  induction cs as [|c cs IH]; [done|]. cbn [map].
  unfold native_calls in *. rewrite filter_cons_True by done. by rewrite IH.
Qed.

(** One iteration of the loop of [processPendingCandidates]: the
    candidate is handed to the peer connection, and a rejection is only
    logged. *)
Lemma exec_add_pending (c : IceCandidate) w pc :
  peerConnection (this w) = Some pc →
  ∃ l,
    exec (try_catch
            (native (ev_addIceCandidate c) (addIceCandidate c))
            (λ e, console c_error "⚠️ Error adding pending ICE candidate:")) w
    = ({| this := set_peerConnection (Some (addIceCandidate c pc).1) (this w);
          db := db w; device := device w;
          trace := trace w ++ ev_addIceCandidate c :: l |}, Normal tt)
    ∧ native_calls l = [].
Proof.
  intros Hpc. unfold native. exec_simpl. rewrite Hpc.
  destruct (addIceCandidate c pc) as [pc' o]. exec_simpl.
  destruct o as [[]|e]; exec_simpl.
  - exists []. done.
  - exists [Console c_error "⚠️ Error adding pending ICE candidate:"].
    unfold emit, set_this. cbn [this db device trace].
    rewrite <- app_assoc. done.
Qed.

(** The loop applies the candidates to the peer connection one after the
    other, in the order of the buffer, whatever each attempt yields. *)
Lemma flush_loop (cands : list IceCandidate) w pc :
  peerConnection (this w) = Some pc →
  ∃ l,
    exec (forEach cands (λ candidate,
            try_catch
              (native (ev_addIceCandidate candidate)
                      (addIceCandidate candidate))
              (λ e, console c_error
                      "⚠️ Error adding pending ICE candidate:"))) w
    = ({| this := set_peerConnection
                    (Some (foldl (λ p c, (addIceCandidate c p).1) pc cands))
                    (this w);
          db := db w; device := device w; trace := trace w ++ l |},
       Normal tt)
    ∧ native_calls l = map ev_addIceCandidate cands.
Proof.
  revert w pc. induction cands as [|c cands IH]; intros w pc Hpc.
  - exists []. cbn. rewrite app_nil_r. split; [|done].
    destruct w as [[] ? ? ?]; cbn in *. by subst.
  - cbn [forEach]. rewrite exec_bind.
    destruct (exec_add_pending c w pc Hpc) as (l1 & -> & Hl1).
    cbn beta iota.
    match goal with |- context [exec _ ?w1] =>
      destruct (IH w1 (addIceCandidate c pc).1 eq_refl) as (l2 & -> & Hl2)
    end.
    exists (ev_addIceCandidate c :: l1 ++ l2). split.
    + cbn [this db device trace foldl]. rewrite <- !app_assoc.
      by destruct (this w).
    + unfold native_calls in *. rewrite filter_cons_True by done.
      rewrite filter_app, Hl1, Hl2. done.
Qed.

Lemma processPendingCandidates_spec w pc :
  peerConnection (this w) = Some pc →
  ∃ l,
    exec processPendingCandidates w
    = ({| this := set_pendingCandidates []
                    (set_peerConnection
                       (Some (foldl (λ p c, (addIceCandidate c p).1) pc
                                (pendingCandidates (this w))))
                       (this w));
          db := db w; device := device w; trace := trace w ++ l |},
       Normal tt)
    ∧ native_calls l = map ev_addIceCandidate (pendingCandidates (this w)).
Proof.
  intros Hpc. unfold processPendingCandidates. exec_simpl.
  destruct (decide (length (pendingCandidates (this w)) = 0)) as [Hn|Hn].
  - apply nil_length_inv in Hn. rewrite Hn. exec_simpl.
    exists []. rewrite app_nil_r. split; [|done].
    destruct w as [[] ? ? ?]; cbn in *. by subst.
  - exec_simpl.
    edestruct (flush_loop (pendingCandidates (this w))) as (l & -> & Hl);
      [exact Hpc|].
    exec_simpl. eexists (_ :: l). rewrite <- app_assoc. split; [done|].
    unfold native_calls in *. rewrite filter_cons_False by done. done.
Qed.

(** The events a run added to the trace. *)
Definition new_events (w w' : World) : list Event :=
  drop (length (trace w)) (trace w').

Lemma new_events_app w w' l : trace w' = trace w ++ l → new_events w w' = l.
Proof. unfold new_events. intros ->. by rewrite drop_app_length. Qed.

Lemma world_ext (a b : World) :
  this a = this b → db a = db b → device a = device b → trace a = trace b →
  a = b.
Proof. destruct a, b; cbn; congruence. Qed.

Ltac trace_simpl :=
  unfold emit, set_this, set_db, set_device;
  cbn [this db device trace
       peerConnection localStream remoteStream signalingQueue
       isProcessingSignal isRemoteDescriptionSet pendingCandidates
       onRemoteStreamCallback onLocalStreamCallback signalingUnsubscribe
       currentCallId set_peerConnection set_localStream set_remoteStream
       set_signalingQueue set_isProcessingSignal set_isRemoteDescriptionSet
       set_pendingCandidates set_onRemoteStreamCallback
       set_onLocalStreamCallback set_signalingUnsubscribe set_currentCallId];
  rewrite <- ?app_assoc.

(** Componentwise comparison of two worlds built by many writes. *)
Ltac world_eq :=
  apply world_ext;
  cbn [emit set_this set_db set_device this db device trace
       peerConnection localStream remoteStream signalingQueue
       isProcessingSignal isRemoteDescriptionSet pendingCandidates
       onRemoteStreamCallback onLocalStreamCallback signalingUnsubscribe
       currentCallId set_peerConnection set_localStream set_remoteStream
       set_signalingQueue set_isProcessingSignal set_isRemoteDescriptionSet
       set_pendingCandidates set_onRemoteStreamCallback
       set_onLocalStreamCallback set_signalingUnsubscribe set_currentCallId
       app];
  repeat (progress (rewrite <- ?app_assoc; cbn [app])); try reflexivity.

Ltac world_eq_pair := f_equal; world_eq.

(** ** C4: an answer is applied only in [have-local-offer] *)

(** C4. Dispatching an [answer] applies it as the remote description only
    when a peer connection exists and its [signalingState] is
    [have-local-offer].  In every other signaling state the dispatch
    leaves the service, the backend and the device as they were and adds
    two console lines, the second being the warning; without a peer
    connection it adds the "not initialized" warning only. *)
Theorem answer_applied_only_in_have_local_offer message w :
  sig_type message = answer →
  let w' := (exec (processSignalingMessage message) w).1 in
  (∀ pc, peerConnection (this w) = Some pc →
         signalingState pc ≠ have_local_offer →
         w' = emit (Console c_warn
                      ("⚠️ Ignoring Answer: signalingState is "
                       +:+ SignalingState_str (signalingState pc)))
                (emit (Console c_log "📨 Received Answer") w))
  ∧ (peerConnection (this w) = None →
     w' = emit (Console c_warn "⚠️ PeerConnection not initialized") w)
  ∧ (∀ sdp, ev_setRemoteDescription sdp ∈ new_events w w' →
            ∃ pc, peerConnection (this w) = Some pc
                  ∧ signalingState pc = have_local_offer)
  ∧ (∀ pc sdp, peerConnection (this w) = Some pc →
               signalingState pc = have_local_offer →
               new_RTCSessionDescription (sig_data message) = Normal sdp →
               ∃ rest, native_calls (new_events w w')
                       = ev_setRemoteDescription sdp :: rest).
Proof.
  intros Hty w'.
  assert (∀ pc, peerConnection (this w) = Some pc →
            signalingState pc ≠ have_local_offer →
            w' = emit (Console c_warn
                      ("⚠️ Ignoring Answer: signalingState is "
                       +:+ SignalingState_str (signalingState pc)))
                   (emit (Console c_log "📨 Received Answer") w)) as Hlate.
  { intros pc Hpc Hst. subst w'. unfold processSignalingMessage.
    exec_simpl. rewrite Hpc, Hty. unfold read_signalingState. exec_simpl.
    rewrite Hpc. exec_simpl. rewrite decide_False by done. exec_simpl. done. }
  assert (peerConnection (this w) = None →
          w' = emit (Console c_warn "⚠️ PeerConnection not initialized") w)
    as Hnone.
  { intros Hpc. subst w'. unfold processSignalingMessage.
    exec_simpl. rewrite Hpc. exec_simpl. done. }
  split_and!; [exact Hlate|exact Hnone| |].
  - intros sdp Hin. destruct (peerConnection (this w)) as [pc|] eqn:Hpc.
    + destruct (decide (signalingState pc = have_local_offer)) as [Hst|Hst];
        [by eauto|].
      rewrite (Hlate pc eq_refl Hst) in Hin.
      erewrite new_events_app in Hin; [|by trace_simpl].
      cbn [app] in Hin. rewrite !elem_of_cons, elem_of_nil in Hin.
      destruct Hin as [Hin|[Hin|[]]]; discriminate.
    + rewrite (Hnone eq_refl) in Hin.
      erewrite new_events_app in Hin; [|by trace_simpl].
      cbn [app] in Hin. rewrite !elem_of_cons, elem_of_nil in Hin.
      destruct Hin as [Hin|[]]; discriminate.
  - intros pc sdp Hpc Hst Hsdp. subst w'. unfold processSignalingMessage.
    exec_simpl. rewrite Hpc, Hty. unfold read_signalingState. exec_simpl.
    rewrite Hpc. exec_simpl. rewrite decide_True by done.
    unfold native_new. exec_simpl. rewrite Hpc, Hsdp.
    destruct (setRemoteDescription sdp pc) as [pc1 o]. exec_simpl.
    destruct o as [[]|e]; exec_simpl.
    + match goal with |- context [exec processPendingCandidates ?wf] =>
        destruct (processPendingCandidates_spec wf pc1 eq_refl)
          as (l & -> & Hl)
      end.
      exec_simpl. erewrite new_events_app; [|by trace_simpl].
      cbn [app]. native_calls_simpl. eauto.
    + erewrite new_events_app; [|by trace_simpl]. cbn [app].
      native_calls_simpl. eauto.
Qed.

(** ** C2: candidates are deferred until a remote description is applied *)

(** What the steps that follow the flush leave alone. *)
Definition after_flush (w1 w2 : World) : Prop :=
  isRemoteDescriptionSet (this w2) = isRemoteDescriptionSet (this w1)
  ∧ pendingCandidates (this w2) = pendingCandidates (this w1)
  ∧ ∃ l, trace w2 = trace w1 ++ l.

#[local] Instance after_flush_preorder : PreOrder after_flush.
Proof.
  split.
  - intros w. split_and!; try done. exists []. by rewrite app_nil_r.
  - intros w1 w2 w3 (H1 & H2 & l1 & H3) (H4 & H5 & l2 & H6).
    split_and!; try congruence. exists (l1 ++ l2).
    by rewrite H6, H3, app_assoc.
Qed.

Ltac after_flush_leaf :=
  try destruct_and?; subst;
  first [ reflexivity
        | apply _
        | split_and!; try reflexivity; eexists; trace_simpl; reflexivity
        | split_and!; try reflexivity; exists []; by rewrite app_nil_r ].

(** C2 (as amended).  While a peer connection exists: an [ice-candidate]
    message whose payload constructs a candidate, dispatched while
    [isRemoteDescriptionSet] is false, is appended to [pendingCandidates]
    and nothing is handed to the peer connection; and when an [offer], or
    an [answer] in [have-local-offer], has its description applied with
    success, the peer connection next receives every buffered candidate,
    in buffer order, the flag is set and the buffer is empty when the
    dispatch ends. *)
Theorem candidates_deferred_until_remote_description message w pc :
  peerConnection (this w) = Some pc →
  let w' := (exec (processSignalingMessage message) w).1 in
  (∀ c, sig_type message = ice_candidate →
        isRemoteDescriptionSet (this w) = false →
        new_RTCIceCandidate (sig_data message) = Normal c →
        w' = set_this (λ s, set_pendingCandidates
                              (pendingCandidates s ++ [c]) s)
               (emit (Console c_log
                  "⏳ Queueing ICE candidate (waiting for RemoteDescription)")
                  w))
  ∧ (∀ sdp pc1,
        sig_type message = offer
        ∨ sig_type message = answer ∧ signalingState pc = have_local_offer →
        new_RTCSessionDescription (sig_data message) = Normal sdp →
        setRemoteDescription sdp pc = (pc1, Normal tt) →
        isRemoteDescriptionSet (this w') = true
        ∧ pendingCandidates (this w') = []
        ∧ ∃ rest, native_calls (new_events w w')
                  = ev_setRemoteDescription sdp
                    :: map ev_addIceCandidate (pendingCandidates (this w))
                    ++ rest).
Proof.
  intros Hpc w'. split.
  - intros c Hty Hset Hc. subst w'. unfold processSignalingMessage.
    exec_simpl. rewrite Hpc, Hty. exec_simpl. rewrite Hset. exec_simpl.
    rewrite Hc. exec_simpl. done.
  - intros sdp pc1 Hty Hsdp Hrem.
    destruct Hty as [Hty|[Hty Hst]]; [|subst w'; revert Hty Hst].
    + destruct (exec (processSignalingMessage message) w) as [wf cf] eqn:EX.
      subst w'. cbn [fst]. revert EX. unfold processSignalingMessage.
      rewrite exec_bind, exec_gets. cbn [fst snd]. rewrite Hpc.
      rewrite exec_try_catch, Hty.
      rewrite exec_bind, exec_console. cbn [fst snd].
      rewrite exec_bind. unfold native_new at 1. rewrite exec_atomically.
      trace_simpl. rewrite Hpc, Hsdp, Hrem. cbn [fst snd complete].
      rewrite exec_Await, exec_Ret.
      rewrite exec_bind, exec_modify. cbn [fst snd].
      rewrite exec_bind, exec_await.
      match goal with |- context [exec processPendingCandidates ?wf] =>
        destruct (processPendingCandidates_spec wf pc1 eq_refl)
          as (l & -> & Hl)
      end.
      match goal with |- context [exec ?E ?wf] =>
        assert (writes after_flush E) as HE;
        [ unfold sendSignaling, native, setDoc_signaling;
          repeat writes_step; after_flush_leaf
        | pose proof (writes_exec after_flush E wf HE) as HR;
          destruct (exec E wf) as [w2 c2] ]
      end.
      cbn [fst] in HR. destruct HR as (H1 & H2 & l2 & H3).
      revert H1 H2 H3. trace_simpl. intros H1 H2 H3.
      destruct c2 as [[]|e]; exec_simpl; intros [= <- <-]; trace_simpl;
        rewrite H1, H2; (split_and!; [done|done|]);
        (erewrite new_events_app; [|trace_simpl; rewrite H3; by trace_simpl]);
        cbn [app]; native_calls_simpl; rewrite Hl; eauto.
    + intros Hty Hst. unfold processSignalingMessage.
      rewrite exec_bind, exec_gets. cbn [fst snd]. rewrite Hpc.
      rewrite exec_try_catch, Hty.
      rewrite exec_bind, exec_console. cbn [fst snd].
      unfold read_signalingState. exec_simpl. rewrite Hpc. exec_simpl.
      rewrite decide_True by done. unfold native_new. exec_simpl.
      rewrite Hpc, Hsdp, Hrem. exec_simpl.
      match goal with |- context [exec processPendingCandidates ?wf] =>
        destruct (processPendingCandidates_spec wf pc1 eq_refl)
          as (l & -> & Hl)
      end.
      exec_simpl. trace_simpl. split_and!; [done|done|].
      erewrite new_events_app; [|by trace_simpl].
      cbn [app]. native_calls_simpl. rewrite Hl. eauto.
Qed.

(** ** C5: ending and tearing down twice *)

(** The service once [closeWebRTCConnection] has run. *)
Definition closed_service (s : CallService) : CallService :=
  {| peerConnection := None; localStream := None; remoteStream := None;
     signalingQueue := []; isProcessingSignal := isProcessingSignal s;
     isRemoteDescriptionSet := false; pendingCandidates := [];
     onRemoteStreamCallback := onRemoteStreamCallback s;
     onLocalStreamCallback := onLocalStreamCallback s;
     signalingUnsubscribe := None; currentCallId := currentCallId s |}.

(** The teardown actions [closeWebRTCConnection] performs on a service. *)
Definition teardown_events (s : CallService) : list Event :=
  match signalingUnsubscribe s with
  | Some sub => [ev_unsubscribe sub]
  | None => []
  end
  ++ match localStream s with
     | Some stream =>
         map ev_trackStop (getTracks stream)
         ++ (if has_release stream then [ev_release] else [])
         ++ match onLocalStreamCallback s with
            | Some f => [ev_localStreamCallback f None]
            | None => []
            end
     | None => []
     end
  ++ match peerConnection s with Some _ => [ev_close] | None => [] end.

(** The null notification of the remote-stream observer, which
    [closeWebRTCConnection] sends whenever an observer is registered. *)
Definition remote_null_notification (s : CallService) : list Event :=
  match onRemoteStreamCallback s with
  | Some f => [ev_remoteStreamCallback f None]
  | None => []
  end.

Definition is_teardown (e : Event) : bool :=
  match e with
  | ev_unsubscribe _ | ev_trackStop _ | ev_release | ev_close
  | ev_localStreamCallback _ _ => true
  | _ => false
  end.

Definition teardown_actions (t : list Event) : list Event :=
  filter (λ e, is_teardown e = true) t.

Lemma exec_closeWebRTCConnection callId w :
  exec (closeWebRTCConnection callId) w =
  ({| this := closed_service (this w); db := db w; device := device w;
      trace := trace w
               ++ [Console c_log "🔴 Closing WebRTC connection"]
               ++ teardown_events (this w)
               ++ remote_null_notification (this w)
               ++ [Console c_log "✅ WebRTC connection closed"] |},
   Normal tt).
Proof.
  unfold closeWebRTCConnection, teardown_events, remote_null_notification.
  destruct w as [[pc ls rs q p rd pend rcb lcb unsub cid] fs dev tr].
  exec_simpl.
  destruct unsub as [sub|]; exec_simpl;
    (destruct ls as [stream|]; exec_simpl;
     [ rewrite exec_forEach_emit; exec_simpl;
       destruct (has_release stream); exec_simpl;
       destruct lcb as [f|]; exec_simpl
     | ]);
    destruct pc as [pc|]; exec_simpl;
    destruct rcb as [g|]; exec_simpl;
    f_equal; world_eq.
Qed.

Lemma closed_service_idem s : closed_service (closed_service s) = closed_service s.
Proof. reflexivity. Qed.

Lemma teardown_events_closed s : teardown_events (closed_service s) = [].
Proof. reflexivity. Qed.

Lemma teardown_actions_app t1 t2 :
  teardown_actions (t1 ++ t2) = teardown_actions t1 ++ teardown_actions t2.
Proof. apply filter_app. Qed.

(** A second [closeWebRTCConnection] finds nothing left to tear down. *)
Lemma closeWebRTCConnection_twice callId callId' w :
  let c1 := (exec (closeWebRTCConnection callId) w).1 in
  let c2 := (exec (closeWebRTCConnection callId') c1).1 in
  this c2 = this c1 ∧ db c2 = db c1 ∧ device c2 = device c1
  ∧ new_events c1 c2
    = [Console c_log "🔴 Closing WebRTC connection"]
      ++ remote_null_notification (this w)
      ++ [Console c_log "✅ WebRTC connection closed"]
  ∧ teardown_actions (new_events c1 c2) = [].
Proof.
  intros c1 c2. subst c2 c1. rewrite !exec_closeWebRTCConnection.
  cbn [fst this db device trace].
  assert (new_events
            {| this := closed_service (this w); db := db w;
               device := device w;
               trace := trace w
                        ++ [Console c_log "🔴 Closing WebRTC connection"]
                        ++ teardown_events (this w)
                        ++ remote_null_notification (this w)
                        ++ [Console c_log "✅ WebRTC connection closed"] |}
            {| this := closed_service (closed_service (this w)); db := db w;
               device := device w;
               trace := (trace w
                        ++ [Console c_log "🔴 Closing WebRTC connection"]
                        ++ teardown_events (this w)
                        ++ remote_null_notification (this w)
                        ++ [Console c_log "✅ WebRTC connection closed"])
                        ++ [Console c_log "🔴 Closing WebRTC connection"]
                        ++ teardown_events (closed_service (this w))
                        ++ remote_null_notification (closed_service (this w))
                        ++ [Console c_log "✅ WebRTC connection closed"] |}
          = [Console c_log "🔴 Closing WebRTC connection"]
            ++ remote_null_notification (this w)
            ++ [Console c_log "✅ WebRTC connection closed"]) as Hnew.
  { apply new_events_app. reflexivity. }
  rewrite Hnew. split_and!; try reflexivity.
  unfold remote_null_notification.
  destruct (onRemoteStreamCallback (this w)); reflexivity.
Qed.

(** The record [endCall] leaves behind. *)
Definition ended_record (d : nat) (t : nat) (old : option CallDoc) : CallDoc :=
  mergeDoc (endedPatch d t) (default emptyDoc old).

Lemma exec_endCall callId duration w :
  faults (db w) = [] →
  exec (endCall callId duration) w =
  ({| this := closed_service (this w);
      db := commitMerge callId (endedPatch (default 0 duration)) (db w);
      device := device w;
      trace := trace w
               ++ [Console c_log "🔴 Closing WebRTC connection"]
               ++ teardown_events (this w)
               ++ remote_null_notification (this w)
               ++ [Console c_log "✅ WebRTC connection closed";
                   Console c_log "✅ Call ended"] |},
   Normal ok).
Proof.
  intros Hf. unfold endCall, setDoc_merge.
  rewrite exec_try_catch, exec_bind, exec_await, exec_atomically.
  rewrite (request_healthy _ Hf). cbn [fst snd]. rewrite exec_Ret.
  rewrite exec_bind, exec_await, exec_closeWebRTCConnection.
  exec_simpl. f_equal. world_eq.
Qed.

(** C5 (as amended).  On a healthy backend [endCall] always merge-writes
    [ended], the server time and the duration into the record, whatever
    status the record had, and then tears the connection down.  A second
    [endCall] in a row returns success again, leaves the service in the
    same state, performs no teardown action again, and rewrites the
    record to the same status and duration with a later [endedAt].
    [closeWebRTCConnection] alone, called twice or on a service that was
    never started, likewise repeats nothing but its two console lines and
    the null notification of a registered remote-stream observer. *)
Theorem endCall_and_teardown_twice callId duration w :
  faults (db w) = [] →
  let r1 := exec (endCall callId duration) w in
  let r2 := exec (endCall callId duration) r1.1 in
  let t := serverTime (db w) in
  let d := default 0 duration in
  r1.2 = Normal ok ∧ r2.2 = Normal ok
  ∧ calls (db r1.1) !! callId
    = Some (ended_record d t (calls (db w) !! callId))
  ∧ calls (db r2.1) !! callId
    = Some (ended_record d (S t)
              (Some (ended_record d t (calls (db w) !! callId))))
  ∧ status (ended_record d t (calls (db w) !! callId)) = Some ended
  ∧ this r1.1 = closed_service (this w)
  ∧ this r2.1 = this r1.1
  ∧ teardown_actions (new_events r1.1 r2.1) = []
  ∧ (∀ id id',
       let c1 := (exec (closeWebRTCConnection id) w).1 in
       let c2 := (exec (closeWebRTCConnection id') c1).1 in
       this c1 = closed_service (this w)
       ∧ this c2 = this c1 ∧ db c2 = db c1 ∧ device c2 = device c1
       ∧ teardown_actions (new_events c1 c2) = []).
Proof.
  intros Hf r1 r2 t d. subst r2 r1 t d.
  rewrite (exec_endCall callId duration w Hf). cbn [fst snd].
  rewrite exec_endCall by done. cbn [fst snd this db device trace].
  split_and!; try reflexivity.
  - unfold commitMerge. cbn [calls]. by rewrite lookup_insert_eq.
  - unfold commitMerge. cbn [calls serverTime].
    rewrite !lookup_insert_eq. reflexivity.
  - erewrite new_events_app; [|reflexivity].
    rewrite !teardown_actions_app.
    unfold remote_null_notification.
    cbn [closed_service onRemoteStreamCallback].
    destruct (onRemoteStreamCallback (this w)); reflexivity.
  - intros id id'.
    pose proof (closeWebRTCConnection_twice id id' w) as Hc.
    cbv zeta in Hc. destruct Hc as (H1 & H2 & H3 & _ & H5).
    cbv zeta. split_and!; try done.
    by rewrite exec_closeWebRTCConnection.
Qed.

Lemma filter_all {A} (P : A → Prop) `{∀ x, Decision (P x)} (l : list A) :
  Forall P l → filter P l = l.
Proof.
  induction 1 as [|x l Hx Hl IH]; [done|].
  by rewrite filter_cons_True, IH.
Qed.

Lemma filter_none {A} (P : A → Prop) `{∀ x, Decision (P x)} (l : list A) :
  Forall (λ x, ¬ P x) l → filter P l = [].
Proof.
  induction 1 as [|x l Hx Hl IH]; [done|].
  by rewrite filter_cons_False, IH.
Qed.

Definition is_getUserMedia (e : Event) : bool :=
  match e with ev_getUserMedia _ => true | _ => false end.

(** Teardown never logs and never asks for media. *)
Lemma teardown_events_shape s :
  Forall (λ e, is_console e = false ∧ is_getUserMedia e = false)
         (teardown_events s ++ remote_null_notification s).
Proof.
  unfold teardown_events, remote_null_notification.
  rewrite !Forall_app. split_and!.
  - destruct (signalingUnsubscribe s); by repeat constructor.
  - destruct (localStream s) as [st|]; [|constructor].
    rewrite !Forall_app. split_and!.
    + induction (getTracks st); by repeat constructor.
    + destruct (has_release st); by repeat constructor.
    + destruct (onLocalStreamCallback s); by repeat constructor.
  - destruct (peerConnection s); by repeat constructor.
  - destruct (onRemoteStreamCallback s); by repeat constructor.
Qed.

(** ** C7: media acquisition fails twice *)

Definition media_requests (t : list Event) : list Event :=
  filter (λ e, is_getUserMedia e = true) t.

Lemma exec_cleanup w :
  exec cleanup w = exec (closeWebRTCConnection (currentCallId (this w))) w.
Proof. unfold cleanup. by exec_simpl. Qed.

(** C7 (as amended).  When the first [getUserMedia] is rejected,
    [startConnection] asks once more, for audio only; when that request
    is rejected too, it logs the failure, runs the full teardown
    ([cleanup], i.e. [closeWebRTCConnection]) and completes normally:
    nothing is thrown and no failure result exists for the caller to
    see.  No peer connection is constructed, nothing is subscribed and
    nothing is written to the backend. *)
Theorem startConnection_media_failure
    callId userId otherUserId isCaller isVideoCall w d1 e1 d2 e2 :
  peerConnection (this w) = None →
  getUserMedia isVideoCall
    (if platform_is_web then device w
     else (setAudioModeAsync (device w)).1) = (d1, Abrupt e1) →
  getUserMedia false d1 = (d2, Abrupt e2) →
  let r := exec (startConnection callId userId otherUserId
                   isCaller isVideoCall) w in
  r.2 = Normal tt
  ∧ media_requests (new_events w r.1)
    = [ev_getUserMedia isVideoCall; ev_getUserMedia false]
  ∧ native_calls (new_events w r.1)
    = (if platform_is_web then [] else [ev_setAudioMode])
      ++ [ev_getUserMedia isVideoCall; ev_getUserMedia false]
      ++ teardown_events (this w) ++ remote_null_notification (this w)
  ∧ this r.1 = closed_service (this w)
  ∧ db r.1 = db w
  ∧ device r.1 = d2.
Proof.
  intros Hpc H1 H2 r. subst r.
  destruct (exec (startConnection callId userId otherUserId
                    isCaller isVideoCall) w) as [wf cf] eqn:EX.
  cbn [fst snd]. revert EX. unfold startConnection.
  rewrite exec_bind, exec_gets. cbn [fst snd]. rewrite Hpc.
  rewrite exec_try_catch, exec_bind, exec_console. cbn [fst snd].
  rewrite exec_bind.
  assert (∃ l, exec (when (negb platform_is_web)
                   (try_catch
                      (Audio_setAudioModeAsync ;;
                       console c_log "✅ Audio mode configured")
                      (λ e, console c_warn "⚠️ Failed to set audio mode:")))
                 (emit (Console c_log
                    ("Starting WebRTC connection as "
                     +:+ (if isCaller then "Caller" else "Callee"))) w)
               = ({| this := this w; db := db w;
                     device := if platform_is_web then device w
                               else (setAudioModeAsync (device w)).1;
                     trace := trace w ++ l |}, Normal tt)
               ∧ media_requests l = []
               ∧ native_calls l
                 = if platform_is_web then [] else [ev_setAudioMode])
    as (l & -> & Hl1 & Hl2).
  { destruct platform_is_web; cbn [negb].
    - rewrite exec_when_false. eexists. split; [by world_eq_pair|done].
    - rewrite exec_when_true. unfold Audio_setAudioModeAsync. exec_simpl.
      destruct (setAudioModeAsync (device w)) as [d0 o]. exec_simpl.
      destruct o as [[]|e]; exec_simpl;
        (eexists; split; [by world_eq_pair|done]). }
  cbn [fst snd]. rewrite exec_bind, exec_console. cbn [fst snd].
  rewrite exec_bind, exec_try_catch. unfold mediaDevices_getUserMedia at 1.
  rewrite exec_atomically. cbn [emit set_device device fst snd].
  rewrite H1. cbn [emit set_device device fst snd].
  rewrite exec_Await, exec_complete.
  rewrite exec_bind, exec_console. cbn [fst snd].
  rewrite exec_bind. unfold mediaDevices_getUserMedia at 1.
  rewrite exec_atomically. cbn [emit set_device device fst snd].
  rewrite H2. cbn [emit set_device device fst snd].
  rewrite exec_Await, exec_complete.
  rewrite exec_bind, exec_console. cbn [fst snd].
  rewrite exec_cleanup, exec_closeWebRTCConnection.
  cbn [fst snd this db device trace emit]. intros [= <- <-].
  cbn [this db device trace].
  erewrite new_events_app; [|rewrite <- ?app_assoc; reflexivity].
  pose proof (teardown_events_shape (this w)) as Hsh.
  split_and!; try reflexivity.
  - unfold media_requests in *. rewrite filter_app, Hl1. cbn [app].
    rewrite filter_cons_False by done.
    rewrite filter_cons_True by done.
    rewrite filter_cons_False by done.
    rewrite filter_cons_True by done.
    rewrite !filter_cons_False by done.
    rewrite app_assoc, filter_app. rewrite (filter_none _ _).
    + reflexivity.
    + eapply Forall_impl; [exact Hsh|]. intros e [_ He]. congruence.
  - rewrite native_calls_app, Hl2. cbn [app]. native_calls_simpl.
    f_equal. f_equal. f_equal.
    change (native_calls []) with (@nil Event). rewrite app_nil_r.
    rewrite <- native_calls_app. apply filter_all.
    eapply Forall_impl; [exact Hsh|]. by intros e [He _].
Qed.

(** ** C10: which [handleSignalingMessage] is bound *)

Lemma prototype_handleSignalingMessage :
  prototype !! "handleSignalingMessage" = Some 633.
Proof. vm_compute. reflexivity. Qed.

Lemma enter_handleSignalingMessage message :
  enter "handleSignalingMessage" message
  = Some {| decl := 633; arg := message |}.
Proof. unfold enter. by rewrite prototype_handleSignalingMessage. Qed.

Lemma engine_run_stuck room n st :
  engine_step room st = None → engine_run room n st = st.
Proof. intros Hs. destruct n; cbn [engine_run]; by rewrite ?Hs. Qed.

Lemma engine_run_add room a b st :
  engine_run room (a + b) st = engine_run room b (engine_run room a st).
Proof.
  revert st. induction a as [|a IH]; intros st; [done|].
  cbn [Nat.add engine_run].
  destruct (engine_step room st) as [st'|] eqn:Hs; [apply IH|].
  by rewrite engine_run_stuck.
Qed.

(** The frame of the body of line 633 for a message. *)
Definition bound_frame (message : CallSignaling) : Frame :=
  {| decl := 633; arg := message |}.

Lemma run_push room i j message c J P U s :
  (j + i ≤ room)%nat →
  engine_run room i
    {| calling := c; stack := replicate (S j) (bound_frame message);
       returned := None; jobs := J; parked := P; unhandled := U;
       sched := s |}
  = {| calling := c; stack := replicate (S (j + i)) (bound_frame message);
       returned := None; jobs := J; parked := P; unhandled := U;
       sched := s |}.
Proof.
  revert j. induction i as [|i IH]; intros j Hj.
  - by rewrite Nat.add_0_r.
  - replace (S (j + S i)) with (S (S j + i)) by lia.
    rewrite <- (IH (S j)) by lia.
    cbn [engine_run]. unfold engine_step. cbn [stack replicate].
    unfold frame_step. cbn [bound_frame decl arg returned stack].
    rewrite decide_True by done.
    rewrite enter_handleSignalingMessage. cbn [mbind option_bind].
    rewrite decide_True by (cbn [length]; rewrite length_replicate; lia).
    reflexivity.
Qed.

Lemma run_overflow room message c J P U s :
  engine_step room
    {| calling := c; stack := replicate (S room) (bound_frame message);
       returned := None; jobs := J; parked := P; unhandled := U;
       sched := s |}
  = Some {| calling := c; stack := replicate room (bound_frame message);
            returned := Some {| promise := p_rejected RangeError;
                                awaiting := [] |};
            jobs := J; parked := P; unhandled := U; sched := s |}.
Proof.
  unfold engine_step. cbn [stack replicate].
  unfold frame_step. cbn [bound_frame decl arg returned stack].
  rewrite decide_True by done.
  rewrite enter_handleSignalingMessage. cbn [mbind option_bind].
  rewrite decide_False by (cbn [length]; rewrite length_replicate; lia).
  done.
Qed.

Lemma run_await room j message p ws c J P U s :
  engine_run room j
    {| calling := c; stack := replicate j (bound_frame message);
       returned := Some {| promise := p; awaiting := ws |};
       jobs := J; parked := P; unhandled := U; sched := s |}
  = {| calling := c; stack := [];
       returned := Some {| promise := p;
                           awaiting := ws ++ replicate j
                                               (bound_frame message) |};
       jobs := J; parked := P; unhandled := U; sched := s |}.
Proof.
  revert ws. induction j as [|j IH]; intros ws.
  - cbn [engine_run replicate]. by rewrite app_nil_r.
  - replace (ws ++ replicate (S j) (bound_frame message))
      with ((ws ++ [bound_frame message])
            ++ replicate j (bound_frame message))
      by (by rewrite <- app_assoc).
    rewrite <- IH.
    cbn [engine_run]. unfold engine_step. cbn [stack replicate].
    unfold frame_step. cbn [bound_frame decl arg returned stack].
    rewrite decide_True by done. reflexivity.
Qed.

(** One call through the name, from the call site back to it. *)
Lemma run_call room message rest J P U s :
  engine_run room (2 * room + 3)
    {| calling := message :: rest; stack := []; returned := None;
       jobs := J; parked := P; unhandled := U; sched := s |}
  = {| calling := rest; stack := []; returned := None;
       jobs := J ++ [{| promise := p_rejected RangeError;
                        awaiting := replicate room (bound_frame message) |}];
       parked := P; unhandled := U; sched := s |}.
Proof.
  replace (2 * room + 3) with (1 + (room + (1 + (room + 1)))) by lia.
  rewrite engine_run_add. cbn [engine_run]. unfold engine_step at 1.
  cbn [stack returned calling]. unfold listener_step.
  cbn [returned calling]. rewrite enter_handleSignalingMessage.
  cbn [mbind option_bind jobs parked unhandled sched].
  rewrite engine_run_add.
  change [{| decl := 633; arg := message |}]
    with (replicate 1 (bound_frame message)).
  rewrite (run_push room room 0) by lia. rewrite Nat.add_0_l.
  rewrite engine_run_add. cbn [engine_run]. rewrite run_overflow.
  rewrite engine_run_add, run_await. cbn [app engine_run].
  unfold engine_step. cbn [stack returned calling]. unfold listener_step.
  cbn [returned calling promise jobs parked unhandled sched]. done.
Qed.

Definition overflown (room : nat) (message : CallSignaling) : Chain :=
  {| promise := p_rejected RangeError;
     awaiting := replicate room (bound_frame message) |}.

Lemma run_calls room messages J P U s :
  engine_run room (length messages * (2 * room + 3))
    {| calling := messages; stack := []; returned := None;
       jobs := J; parked := P; unhandled := U; sched := s |}
  = {| calling := []; stack := []; returned := None;
       jobs := J ++ (overflown room <$> messages);
       parked := P; unhandled := U; sched := s |}.
Proof.
  revert J. induction messages as [|m ms IH]; intros J.
  - cbn. by rewrite app_nil_r.
  - cbn [length Nat.mul]. rewrite engine_run_add, run_call, IH.
    cbn [fmap list_fmap]. by rewrite <- app_assoc.
Qed.

(** The jobs a queue of rejected promises takes. *)
Definition job_count (J : list Chain) : nat :=
  sum_list ((λ c, S (length (awaiting c))) <$> J).

Lemma job_count_app J1 J2 :
  job_count (J1 ++ J2) = job_count J1 + job_count J2.
Proof.
  unfold job_count. induction J1 as [|c J1 IH]; [done|].
  cbn [app fmap list_fmap sum_list] in *. lia.
Qed.

Lemma run_jobs room e n J P U s :
  job_count J = n →
  Forall (λ c, promise c = p_rejected e) J →
  engine_run room n
    {| calling := []; stack := []; returned := None;
       jobs := J; parked := P; unhandled := U; sched := s |}
  = {| calling := []; stack := []; returned := None; jobs := [];
       parked := P; unhandled := U ++ replicate (length J) e; sched := s |}.
Proof.
  revert J U. induction n as [|n IH]; intros J U Hn HJ.
  - destruct J as [|c J]; [|cbn in Hn; lia].
    cbn. by rewrite app_nil_r.
  - destruct J as [|[p ws] J]; [cbn in Hn; lia|].
    apply Forall_cons in HJ as [Hp HJ]. cbn [promise] in Hp. subst p.
    cbn [engine_run]. unfold engine_step. cbn [stack returned calling].
    unfold job_step. cbn [jobs awaiting promise].
    destruct ws as [|f ws];
      cbn [calling stack returned parked unhandled sched].
    + rewrite IH; [|cbn in Hn; unfold job_count; lia|done].
      cbn [length replicate]. by rewrite <- app_assoc.
    + rewrite IH.
      * by rewrite length_app, Nat.add_comm.
      * revert Hn. rewrite job_count_app. unfold job_count. cbn. lia.
      * apply Forall_app. split; [done|]. by repeat constructor.
Qed.

Lemma job_count_overflown room messages :
  job_count (overflown room <$> messages) = length messages * (room + 1).
Proof.
  unfold job_count. rewrite <- list_fmap_compose.
  rewrite (sum_list_fmap_same (room + 1)); [done|].
  apply Forall_forall. intros m _. cbn. rewrite length_replicate. lia.
Qed.

(** A listener that hands over [messages] while nothing else is due:
    every call ends in an unhandled [RangeError] and the session is as
    it was. *)
Lemma run_hand_over room messages P U s n :
  (engine_fuel room (length messages) ≤ n)%nat →
  engine_run room n
    {| calling := messages; stack := []; returned := None;
       jobs := []; parked := P; unhandled := U; sched := s |}
  = {| calling := []; stack := []; returned := None; jobs := [];
       parked := P;
       unhandled := U ++ replicate (length messages) RangeError;
       sched := s |}.
Proof.
  intros Hn. unfold engine_fuel in Hn.
  replace n with (length messages * (2 * room + 3)
                  + (length messages * (room + 1)
                     + (n - length messages * (3 * room + 4)))) by nia.
  rewrite engine_run_add, run_calls. cbn [app].
  rewrite engine_run_add.
  rewrite (run_jobs room RangeError).
  - rewrite length_fmap. by apply engine_run_stuck.
  - apply job_count_overflown.
  - apply Forall_fmap, Forall_forall. by intros m _.
Qed.

(** What every step keeps as long as only the body of line 633 has been
    entered: the session, the bound on the stack, and that no other
    body is entered. *)
Definition bound_only (room : nat) (s : Sched) (st : Engine) : Prop :=
  sched st = s
  ∧ (length (stack st) ≤ S room)%nat
  ∧ all_frames (λ f, decl f = 633) st.

Lemma engine_step_bound_only room s st st' :
  bound_only room s st → engine_step room st = Some st' →
  bound_only room s st'.
Proof.
  unfold bound_only, all_frames. destruct st as [c stk r J P U sc].
  intros (Hs & Hlen & Hstk & Hr & HJ & HP). cbn in Hs, Hlen, Hstk, Hr, HJ, HP.
  unfold engine_step. cbn [stack returned calling].
  destruct stk as [|f below].
  - destruct r as [ch|]; [|destruct c as [|m rest]].
    + unfold listener_step. cbn [returned calling]. intros [= <-].
      split_and!; cbn; [done|lia|done|done| |].
      * destruct (promise ch); [done| |];
          (apply Forall_app; split; [done|by repeat constructor]).
      * destruct (promise ch); [|done|done].
        apply Forall_app; split; [done|by repeat constructor].
    + unfold job_step. cbn [jobs].
      destruct J as [|[p ws] J]; [done|].
      apply Forall_cons in HJ as [Hws HJ]. cbn [awaiting] in Hws |- *.
      destruct ws as [|f ws]; intros [= <-];
        (split_and!; cbn; [done|lia|done|done| |done]); [done|].
      apply Forall_cons in Hws as [_ Hws].
      apply Forall_app; split; [done|by repeat constructor].
    + unfold listener_step. cbn [returned calling].
      rewrite enter_handleSignalingMessage. cbn [mbind option_bind].
      intros [= <-]. split_and!; cbn; [done|lia| |done|done|done].
      by repeat constructor.
  - apply Forall_cons in Hstk as [Hf Hbelow]. cbn [length] in Hlen.
    unfold frame_step. rewrite decide_True by done. cbn [returned stack].
    destruct r as [ch|].
    + intros [= <-]. split_and!; cbn; [done|lia|done| |done|done].
      apply Forall_app; split; [done|by repeat constructor].
    + rewrite enter_handleSignalingMessage. cbn [mbind option_bind].
      destruct (decide _) as [Hroom|Hroom]; intros [= <-];
        split_and!; cbn in *; try done; try lia.
      by repeat constructor.
Qed.

Lemma engine_run_bound_only room s n st :
  bound_only room s st → bound_only room s (engine_run room n st).
Proof.
  revert st. induction n as [|n IH]; intros st Hst; [done|].
  cbn [engine_run]. destruct (engine_step room st) as [st'|] eqn:Hstep;
    [|done].
  by eapply IH, engine_step_bound_only.
Qed.

Lemma hand_over_bound_only room s messages :
  bound_only room s (hand_over messages (idle s)).
Proof. unfold bound_only, all_frames. split_and!; cbn; by try lia. Qed.

(** C10 (as amended).  The class declares [handleSignalingMessage]
    twice and the prototype binds the name to the later declaration,
    line 633.  A call through the name enters that body, whose first
    action is the same call again: the calls nest until the stack is
    full, and the [RangeError] of the call that finds no room rejects
    the promise of every call below it, one job at a time.  The call
    therefore ends, after [3 * room + 4] steps, with a rejected promise
    that nobody handles.  At every step every frame runs the body of
    line 633, none the enqueue-and-drain body of line 466, and the
    session is as the call found it. *)
Theorem handleSignalingMessage_exhausts_the_stack room message s :
  let call := hand_over [message] (idle s) in
  prototype !! "handleSignalingMessage" = Some 633
  ∧ (∀ n, sched (engine_run room n call) = s
          ∧ (length (stack (engine_run room n call)) ≤ S room)%nat
          ∧ all_frames (λ f, decl f = 633) (engine_run room n call))
  ∧ stack (engine_run room (S room) call)
    = replicate (S room) {| decl := 633; arg := message |}
  ∧ ∀ n, (3 * room + 4 ≤ n)%nat →
         engine_run room n call
         = {| calling := []; stack := []; returned := None; jobs := [];
              parked := []; unhandled := [RangeError]; sched := s |}
         ∧ engine_step room (engine_run room n call) = None.
Proof.
  intros call. split_and!.
  - exact prototype_handleSignalingMessage.
  - intros n. apply engine_run_bound_only, hand_over_bound_only.
  - subst call. unfold hand_over, idle. cbn [engine_run].
    unfold engine_step at 1. cbn [stack returned calling].
    unfold listener_step. cbn [returned calling].
    rewrite enter_handleSignalingMessage.
    cbn [mbind option_bind jobs parked unhandled sched].
    change [{| decl := 633; arg := message |}]
      with (replicate 1 (bound_frame message)).
    by rewrite (run_push room room 0) by lia.
  - intros n Hn. subst call. unfold hand_over, idle.
    cbn [stack returned jobs parked unhandled sched].
    rewrite run_hand_over by (unfold engine_fuel; cbn [length]; lia).
    done.
Qed.

(** ** C9: the incoming-call guard *)

(** What the guard of lines 237-242 does with the bindings its closure
    holds: when they show an SDK call or a busy manual call, the incoming
    call is rejected and the React state is left alone. *)
Lemma onIncomingCall_guard l call a :
  is_Some (l_activeCall l) ∨ isManualBusy l call = true →
  let a' := onIncomingCall l call a in
  state a' = state a ∧ ui a' = ui a
  ∧ backend a'
    = (exec (console c_log
               "⚠️ User already in a call, rejecting incoming manual call" ;;
             rejectCall (field (callId call)))
         (emit (Console c_log "📞 Incoming manual call:") (backend a))).1.
Proof.
  intros Hbusy a'. subst a'. unfold onIncomingCall.
  destruct Hbusy as [Hac|Hmb].
  - rewrite bool_decide_true by done. done.
  - rewrite Hmb, orb_true_r. done.
Qed.

(** Otherwise the call is surfaced: it becomes the manual call and the
    ringtone plays. *)
Lemma onIncomingCall_surface l call a :
  l_activeCall l = None → isManualBusy l call = false →
  let a' := onIncomingCall l call a in
  surfaced call a'
  ∧ ui a' = ui a ++ [ui_playRingtone; ui_setTimeout 45000%N (callId call)]
  ∧ db (backend a') = db (backend a).
Proof.
  intros Hac Hmb a'. subst a'. unfold onIncomingCall, surfaced.
  rewrite Hmb, bool_decide_false; [done|]. rewrite Hac. by intros [? ?].
Qed.

(** ** The negotiation queue *)

(** Replace the queue's own bookkeeping: the inbox and the flag. *)
Definition refile (q : list CallSignaling) (p : bool) (w : World) : World :=
  set_this (λ t, set_signalingQueue q (set_isProcessingSignal p t)) w.

Lemma refile_self w :
  refile (signalingQueue (this w)) (isProcessingSignal (this w)) w = w.
Proof. by destruct w as [[] ? ? ?]. Qed.

Lemma refile_refile q p q' p' w : refile q p (refile q' p' w) = refile q p w.
Proof. reflexivity. Qed.

Lemma refile_queue q p w : signalingQueue (this (refile q p w)) = q.
Proof. reflexivity. Qed.

Lemma refile_flag q p w : isProcessingSignal (this (refile q p w)) = p.
Proof. reflexivity. Qed.

(** A body that neither reads nor writes the inbox and the flag: each of
    its actions commutes with [refile] and continues the same way
    whatever they hold. *)
Fixpoint inbox_free {A} (m : Async A) : Prop :=
  match m with
  | Ret _ | Throw _ => True
  | Act g k =>
      (∀ q p w, g (refile q p w) = refile q p (g w))
      ∧ (∀ q p w, k (refile q p w) = k w)
      ∧ (∀ w, inbox_free (k w))
  | Await k => inbox_free k
  end.

Lemma inbox_free_bind {A B} (m : Async A) (f : A → Async B) :
  inbox_free m → (∀ a, inbox_free (f a)) → inbox_free (m ≫= f).
Proof.
  unfold mbind, Async_bind. intros Hm Hf.
  induction m as [a|e|g k IH|k IH]; cbn in *; auto.
  destruct Hm as (Hg & Hk & Hi). split_and!; auto.
  intros q p w. by rewrite Hk.
Qed.

Lemma inbox_free_try_catch {A} (m : Async A) h :
  inbox_free m → (∀ e, inbox_free (h e)) → inbox_free (try_catch m h).
Proof.
  intros Hm Hh. induction m as [a|e|g k IH|k IH]; cbn in *; auto.
  destruct Hm as (Hg & Hk & Hi). split_and!; auto.
  intros q p w. by rewrite Hk.
Qed.

Lemma inbox_free_await {A} (m : Async A) : inbox_free m → inbox_free (await m).
Proof.
  intros Hm. induction m as [a|e|g k IH|k IH]; cbn in *; auto.
  destruct Hm as (Hg & Hk & Hi). split_and!; auto.
  intros q p w. by rewrite Hk.
Qed.

Lemma inbox_free_atomically {A} (step : World → World * Async A) :
  (∀ q p w, (step (refile q p w)).1 = refile q p (step w).1) →
  (∀ q p w, (step (refile q p w)).2 = (step w).2) →
  (∀ w, inbox_free (step w).2) →
  inbox_free (atomically step).
Proof. intros H1 H2 H3. cbn. auto. Qed.

Lemma inbox_free_gets {A} (f : World → A) :
  (∀ q p w, f (refile q p w) = f w) → inbox_free (gets f).
Proof. intros Hf. cbn. split_and!; auto. intros q p w. by rewrite Hf. Qed.

Lemma inbox_free_modify f :
  (∀ q p w, f (refile q p w) = refile q p (f w)) → inbox_free (modify f).
Proof. intros Hf. cbn. auto. Qed.

Lemma inbox_free_complete {A} (c : Completion A) : inbox_free (complete c).
Proof. by destruct c. Qed.

Lemma inbox_free_forEach {A} (l : list A) f :
  (∀ x, inbox_free (f x)) → inbox_free (forEach l f).
Proof.
  intros Hf. induction l as [|x l IH]; cbn [forEach]; [done|].
  apply inbox_free_bind; auto.
Qed.

Ltac inbox_free_step :=
  match goal with
  | |- inbox_free (_ ≫= _) => apply inbox_free_bind; [|intros ?]
  | |- inbox_free (try_catch _ _) => apply inbox_free_try_catch; [|intros ?]
  | |- inbox_free (await _) => apply inbox_free_await
  | |- inbox_free (gets _) => apply inbox_free_gets; intros ???
  | |- inbox_free (modify _) => apply inbox_free_modify; intros ???
  | |- inbox_free (console _ _) => apply inbox_free_modify; intros ???
  | |- inbox_free (complete _) => apply inbox_free_complete
  | |- inbox_free (forEach _ _) => apply inbox_free_forEach; intros ?
  | |- inbox_free (atomically _) =>
      apply inbox_free_atomically; [intros ???|intros ???|intros ?]
  | |- inbox_free (Ret _) => exact I
  | |- inbox_free (mret _) => exact I
  | |- inbox_free (Throw _) => exact I
  | |- inbox_free (Await _) => cbn [inbox_free]
  | |- inbox_free (match ?x with _ => _ end) => destruct x eqn:?
  | |- inbox_free (if ?x then _ else _) => destruct x eqn:?
  | |- inbox_free (let '(_, _) := ?x in _).2 =>
      destruct x eqn:?; cbn [fst snd]
  | |- inbox_free (match ?x with _ => _ end).2 =>
      destruct x eqn:?; cbn [fst snd]
  end.

Ltac inbox_free_leaf :=
  cbn [refile set_this this peerConnection isRemoteDescriptionSet
       pendingCandidates set_signalingQueue set_isProcessingSignal db];
  repeat match goal with
         | |- context [match ?x with _ => _ end] => destruct x
         end;
  reflexivity.

Lemma inbox_free_processSignalingMessage m :
  inbox_free (processSignalingMessage m).
Proof.
  unfold processSignalingMessage, processPendingCandidates, sendSignaling,
    native, native_new, read_signalingState, setDoc_signaling.
  repeat inbox_free_step; try inbox_free_leaf.
Qed.

(** An inbox-free body runs the same way whatever the inbox and the flag
    hold, and hands them back as it found them. *)
Lemma inbox_free_resume {A} (m : Async A) q p w :
  inbox_free m →
  resume m (refile q p w) = (refile q p (resume m w).1, (resume m w).2).
Proof.
  revert w. induction m as [a|e|g k IH|k IH]; intros w Hm; cbn in *;
    try reflexivity.
  destruct Hm as (Hg & Hk & Hi). rewrite Hg, Hk. by apply IH.
Qed.

Lemma inbox_free_exec {A} (m : Async A) q p w :
  inbox_free m →
  exec m (refile q p w) = (refile q p (exec m w).1, (exec m w).2).
Proof.
  revert w. induction m as [a|e|g k IH|k IH]; intros w Hm; cbn in *;
    try reflexivity.
  - destruct Hm as (Hg & Hk & Hi). rewrite Hg, Hk. by apply IH.
  - by apply IH.
Qed.

Lemma inbox_free_suspended {A} (m : Async A) w w' k :
  inbox_free m → resume m w = (w', Suspended k) → inbox_free k.
Proof.
  revert w. induction m as [a|e|g k0 IH|k0 IH]; intros w Hm Hr; cbn in *;
    try discriminate.
  - destruct Hm as (Hg & Hk & Hi). by eapply IH.
  - inversion Hr; subst. exact Hm.
Qed.

Lemma inbox_free_resume_inbox {A} (m : Async A) w :
  inbox_free m →
  signalingQueue (this (resume m w).1) = signalingQueue (this w)
  ∧ isProcessingSignal (this (resume m w).1) = isProcessingSignal (this w).
Proof.
  intros Hm.
  pose proof (inbox_free_resume m (signalingQueue (this w))
                (isProcessingSignal (this w)) w Hm) as Hr.
  rewrite refile_self in Hr. rewrite Hr. done.
Qed.

Lemma inbox_free_exec_inbox {A} (m : Async A) w :
  inbox_free m →
  signalingQueue (this (exec m w).1) = signalingQueue (this w)
  ∧ isProcessingSignal (this (exec m w).1) = isProcessingSignal (this w).
Proof.
  intros Hm.
  pose proof (inbox_free_exec m (signalingQueue (this w))
                (isProcessingSignal (this w)) w Hm) as Hr.
  rewrite refile_self in Hr. rewrite Hr. done.
Qed.

(** The dispatch the drain loop awaits (lines 482-487). *)
Definition guarded_dispatch (message : CallSignaling) : Async unit :=
  try_catch (await (processSignalingMessage message))
            (λ e, console c_error "❌ Error processing signaling:").

Lemma inbox_free_guarded_dispatch m : inbox_free (guarded_dispatch m).
Proof.
  unfold guarded_dispatch. apply inbox_free_try_catch.
  - apply inbox_free_await, inbox_free_processSignalingMessage.
  - intros e. apply inbox_free_modify. reflexivity.
Qed.

(** *** Counting the dispatches in flight *)

Lemma dispatches_app w ds1 ds2 :
  dispatches {| world := w; drains := ds1 ++ ds2 |}
  = omap continuation ds1 ++ omap continuation ds2.
Proof. unfold dispatches. cbn. apply omap_app. Qed.

Lemma omap_split (ds : list Drain) i d :
  ds !! i = Some d →
  omap continuation ds
  = omap continuation (take i ds) ++ option_list (continuation d)
    ++ omap continuation (drop (S i) ds).
Proof.
  intros Hi. rewrite <- (take_drop_middle ds i d Hi) at 1.
  rewrite omap_app. f_equal. cbn. by destruct (continuation d).
Qed.

Lemma omap_settle (ds : list Drain) i d x :
  ds !! i = Some d →
  omap continuation (settle i x ds)
  = omap continuation (take i ds) ++ option_list (x ≫= continuation)
    ++ omap continuation (drop (S i) ds).
Proof.
  intros Hi. unfold settle. destruct x as [x|]; cbn [mbind option_bind].
  - rewrite insert_take_drop by (by eapply lookup_lt_Some).
    rewrite omap_app. f_equal. cbn. by destruct (continuation x).
  - rewrite delete_take_drop, omap_app. done.
Qed.

Definition activation_ok (d : Drain) : Prop :=
  match d with Dispatching k => inbox_free k | Pausing => True end.

(** The invariant of the event loop: every suspended dispatch is
    inbox-free, and the flag is up exactly when one dispatch is in
    flight. *)
Definition well_formed (s : Sched) : Prop :=
  Forall activation_ok (drains s)
  ∧ in_flight s = if isProcessingSignal (this (world s)) then 1 else 0.

Lemma Forall_settle (ds : list Drain) i x :
  Forall activation_ok ds →
  from_option activation_ok True x →
  Forall activation_ok (settle i x ds).
Proof.
  intros Hds Hx. unfold settle. destruct x as [x|].
  - by apply Forall_insert.
  - by apply Forall_delete.
Qed.

Lemma Forall_spawn (ds : list Drain) x :
  Forall activation_ok ds →
  from_option activation_ok True x →
  Forall activation_ok (spawn x ds).
Proof.
  intros Hds Hx. unfold spawn. destruct x as [x|]; [|done].
  apply Forall_app. split; [done|]. by constructor.
Qed.

(** What one turn of a dispatch leaves behind. *)
Lemma dispatch_turn k w :
  inbox_free k →
  let r := processSignalingQueue_dispatch k w in
  from_option activation_ok True r.2
  ∧ signalingQueue (this r.1) = signalingQueue (this w)
  ∧ match r.2 with
    | Some (Dispatching k') =>
        resume k w = (r.1, Suspended k')
        ∧ isProcessingSignal (this r.1) = isProcessingSignal (this w)
    | Some Pausing =>
        (∃ c, resume k w = (refile (signalingQueue (this w))
                              (isProcessingSignal (this w)) r.1, Settled c))
        ∧ isProcessingSignal (this r.1) = false
        ∧ signalingQueue (this w) ≠ []
    | None =>
        (∃ c, resume k w = (refile (signalingQueue (this w))
                              (isProcessingSignal (this w)) r.1, Settled c))
        ∧ isProcessingSignal (this r.1) = false
        ∧ signalingQueue (this w) = []
    end.
Proof.
  intros Hk r. subst r. unfold processSignalingQueue_dispatch.
  pose proof (inbox_free_resume_inbox k w Hk) as [Hq Hp].
  destruct (resume k w) as [w1 [c|k']] eqn:Hr; cbn [fst snd] in *.
  - unfold processSignalingQueue_settled.
    cbn [set_this this signalingQueue set_isProcessingSignal].
    rewrite Hq.
    assert (refile (signalingQueue (this w)) (isProcessingSignal (this w))
              (set_this (set_isProcessingSignal false) w1) = w1) as Hw1.
    { rewrite <- Hq, <- Hp. by destruct w1 as [[] ? ? ?]. }
    destruct (signalingQueue (this w)) eqn:Hqw; cbn [fst snd from_option];
      rewrite Hw1; split_and!; eauto; done.
  - cbn [from_option activation_ok]. split_and!; try done.
    by eapply inbox_free_suspended.
Qed.

(** What the head of the loop leaves behind. *)
Lemma head_turn w :
  let r := processSignalingQueue_head w in
  match signalingQueue (this w), isProcessingSignal (this w) with
  | m :: rest, false =>
      r = processSignalingQueue_dispatch (guarded_dispatch m)
            (refile rest true w)
  | _, _ => r = (w, None)
  end.
Proof.
  cbv zeta. unfold processSignalingQueue_head.
  destruct (signalingQueue (this w)) as [|m rest]; [done|].
  destruct (isProcessingSignal (this w)); done.
Qed.

Lemma in_flight_settle w w' (ds : list Drain) i d x :
  ds !! i = Some d →
  in_flight {| world := w'; drains := settle i x ds |}
  + length (option_list (continuation d))
  = in_flight {| world := w; drains := ds |}
    + length (option_list (x ≫= continuation)).
Proof.
  intros Hi. unfold in_flight, dispatches. cbn [drains].
  rewrite (omap_settle ds i d x Hi), (omap_split ds i d Hi).
  rewrite !length_app. lia.
Qed.

Lemma in_flight_spawn w w' (ds : list Drain) x :
  in_flight {| world := w'; drains := spawn x ds |}
  = in_flight {| world := w; drains := ds |}
    + length (option_list (x ≫= continuation)).
Proof.
  unfold in_flight, dispatches, spawn. cbn [drains].
  destruct x as [x|]; cbn [mbind option_bind option_list length].
  - rewrite omap_app, length_app. cbn. by destruct (continuation x).
  - cbn. lia.
Qed.

(** The head of the loop, started while no dispatch is in flight. *)
Lemma head_turn_well_formed w :
  let r := processSignalingQueue_head w in
  from_option activation_ok True r.2
  ∧ (isProcessingSignal (this w) = true →
     r = (w, None))
  ∧ (isProcessingSignal (this w) = false →
     length (option_list (r.2 ≫= continuation))
     = if isProcessingSignal (this r.1) then 1 else 0).
Proof.
  intros r. subst r. pose proof (head_turn w) as Hh. cbv zeta in Hh.
  destruct (signalingQueue (this w)) as [|m rest] eqn:Hq.
  - rewrite Hh. cbn. split_and!; try done.
    intros ->. done.
  - destruct (isProcessingSignal (this w)) eqn:Hp.
    + rewrite Hh. cbn. split_and!; try done.
    + rewrite Hh.
      pose proof (dispatch_turn (guarded_dispatch m) (refile rest true w)
                    (inbox_free_guarded_dispatch m)) as Hd.
      cbv zeta in Hd. destruct Hd as (Hok & _ & Hcase).
      split_and!; [done|done|]. intros _.
      destruct (processSignalingQueue_dispatch _ _) as [w' [[k'|]|]];
        cbn [fst snd] in *.
      * destruct Hcase as [_ ->]. done.
      * destruct Hcase as (_ & -> & _). done.
      * destruct Hcase as (_ & -> & _). done.
Qed.

Lemma dispatch_turn_well_formed k w :
  inbox_free k →
  isProcessingSignal (this w) = true →
  let r := processSignalingQueue_dispatch k w in
  from_option activation_ok True r.2
  ∧ length (option_list (r.2 ≫= continuation))
    = if isProcessingSignal (this r.1) then 1 else 0.
Proof.
  intros Hk Hp r. subst r.
  pose proof (dispatch_turn k w Hk) as Hd.
  cbv zeta in Hd. destruct Hd as (Hok & _ & Hcase).
  split; [done|].
  destruct (processSignalingQueue_dispatch _ _) as [w' [[k'|]|]];
    cbn [fst snd] in *.
  - destruct Hcase as [_ ->]. by rewrite Hp.
  - destruct Hcase as (_ & -> & _). done.
  - destruct Hcase as (_ & -> & _). done.
Qed.

Lemma teardown_flag w :
  isProcessingSignal (this (exec cleanup w).1) = isProcessingSignal (this w).
Proof. by rewrite exec_cleanup, exec_closeWebRTCConnection. Qed.

Lemma well_formed_occur o s : well_formed s → well_formed (occur o s).
Proof.
  destruct s as [w ds]. intros [Hall Hfl]. cbn [world drains] in *.
  destruct o as [m|i|]; cbn [occur].
  - (* a message arrives *)
    unfold handleSignalingMessage. cbn [world drains].
    set (w1 := set_this _ w).
    assert (isProcessingSignal (this w1) = isProcessingSignal (this w))
      as Hp1 by reflexivity.
    destruct (isProcessingSignal (this w1)) eqn:Hp.
    + split; cbn [world drains]; [done|].
      rewrite Hp. rewrite <- Hp1 in Hfl. exact Hfl.
    + pose proof (head_turn_well_formed w1) as Hh. cbv zeta in Hh.
      destruct Hh as (Hok & _ & Hcnt). specialize (Hcnt Hp).
      destruct (processSignalingQueue_head w1) as [w' d].
      cbn [fst snd] in *. split; cbn [world drains].
      * by apply Forall_spawn.
      * rewrite (in_flight_spawn w w'), Hfl, <- Hp1, Hcnt. done.
  - (* an activation is resumed *)
    unfold wake. cbn [world drains].
    destruct (ds !! i) as [[k|]|] eqn:Hi; [| |by split].
    + assert (inbox_free k) as Hk.
      { eapply (Forall_lookup_1 activation_ok) in Hall; [|exact Hi]. done. }
      assert (isProcessingSignal (this w) = true) as Hp.
      { destruct (isProcessingSignal (this w)); [done|].
        unfold in_flight, dispatches in Hfl. cbn [drains] in Hfl.
        rewrite (omap_split ds i _ Hi) in Hfl.
        rewrite !length_app in Hfl. cbn in Hfl. lia. }
      pose proof (dispatch_turn_well_formed k w Hk Hp) as Hd.
      cbv zeta in Hd. destruct Hd as [Hok Hcnt].
      destruct (processSignalingQueue_dispatch k w) as [w' d].
      cbn [fst snd] in *. split; cbn [world drains].
      * by apply Forall_settle.
      * pose proof (in_flight_settle w w' ds i _ d Hi) as Hs.
        rewrite Hfl, Hp, Hcnt in Hs.
        change (length (option_list (continuation (Dispatching k))))
          with 1 in Hs.
        destruct (isProcessingSignal (this w')); lia.
    + pose proof (head_turn_well_formed w) as Hh. cbv zeta in Hh.
      destruct Hh as (Hok & Hbusy & Hcnt).
      destruct (isProcessingSignal (this w)) eqn:Hp.
      * rewrite (Hbusy eq_refl). split; cbn [world drains].
        -- by apply Forall_settle.
        -- pose proof (in_flight_settle w w ds i _ None Hi) as Hs.
           rewrite Hfl in Hs.
           change (length (option_list (continuation Pausing)))
             with 0 in Hs.
           change (length (option_list (None ≫= continuation)))
             with 0 in Hs.
           rewrite Hp in *. lia.
      * specialize (Hcnt eq_refl).
        destruct (processSignalingQueue_head w) as [w' d].
        cbn [fst snd] in *. split; cbn [world drains].
        -- by apply Forall_settle.
        -- pose proof (in_flight_settle w w' ds i _ d Hi) as Hs.
           rewrite Hfl, Hcnt in Hs.
           change (length (option_list (continuation Pausing)))
             with 0 in Hs.
           destruct (isProcessingSignal (this w')); lia.
  - (* teardown *)
    unfold teardown. split; cbn [world drains]; [done|].
    rewrite teardown_flag. exact Hfl.
Qed.

Lemma well_formed_run os s : well_formed s → well_formed (run_schedule os s).
Proof.
  revert s. induction os as [|o os IH]; intros s Hs; [done|].
  cbn. apply IH. by apply well_formed_occur.
Qed.

(** C6. From a session whose flag is down and in which no drain loop is
    active, whatever the order in which messages arrive, suspended
    activations are resumed and the connection is torn down: at most one
    dispatch of [processSignalingMessage] is in flight, and one is in
    flight exactly while [isProcessingSignal] is up.  An activation that
    wakes from its pause, or a message that arrives, while a dispatch is
    suspended starts no second dispatch. *)
Theorem at_most_one_dispatch_in_flight w os :
  isProcessingSignal (this w) = false →
  let s := run_schedule os {| world := w; drains := [] |} in
  (in_flight s ≤ 1)%nat
  ∧ (in_flight s = 1 ↔ isProcessingSignal (this (world s)) = true).
Proof.
  intros Hp s.
  assert (well_formed s) as [_ Hfl].
  { apply well_formed_run. split; cbn; [done|]. by rewrite Hp. }
  rewrite Hfl. destruct (isProcessingSignal (this (world s))).
  - split; [lia|done].
  - split; [lia|]. split; [lia|done].
Qed.

(** *** The queue against the synchronous reference *)

(** Two worlds that differ at most in the inbox and the flag. *)
Definition same_negotiation (a b : World) : Prop :=
  refile [] false a = refile [] false b.

#[local] Instance same_negotiation_equiv : Equivalence same_negotiation.
Proof.
  unfold same_negotiation. split; [intros ?|intros ??|intros ???]; congruence.
Qed.

Lemma same_negotiation_refile q p w : same_negotiation (refile q p w) w.
Proof. reflexivity. Qed.

Lemma same_negotiation_exec {A} (k : Async A) a b :
  inbox_free k → same_negotiation a b →
  same_negotiation (exec k a).1 (exec k b).1 ∧ (exec k a).2 = (exec k b).2.
Proof.
  unfold same_negotiation. intros Hk Hab.
  pose proof (inbox_free_exec k [] false a Hk) as Ha.
  pose proof (inbox_free_exec k [] false b Hk) as Hb.
  rewrite Hab in Ha. rewrite Ha in Hb.
  split; [exact (f_equal fst Hb)|exact (f_equal snd Hb)].
Qed.

Lemma processSignalingMessage_normal m w :
  (exec (processSignalingMessage m) w).2 = Normal tt.
Proof.
  unfold processSignalingMessage. rewrite exec_bind, exec_gets.
  cbn [fst snd]. destruct (peerConnection (this w)); [|done].
  rewrite exec_try_catch. destruct (exec _ w) as [w' [[]|e]]; done.
Qed.

Lemma exec_guarded_dispatch m w :
  exec (guarded_dispatch m) w = exec (processSignalingMessage m) w.
Proof.
  unfold guarded_dispatch. rewrite exec_try_catch, exec_await.
  pose proof (processSignalingMessage_normal m w) as Hn.
  destruct (exec (processSignalingMessage m) w) as [w' c]. cbn in Hn.
  by subst c.
Qed.

Lemma apply_synchronously_cons m ms w :
  apply_synchronously (m :: ms) w
  = apply_synchronously ms (exec (processSignalingMessage m) w).1.
Proof. reflexivity. Qed.

Lemma apply_synchronously_snoc ms m w :
  apply_synchronously (ms ++ [m]) w
  = (exec (processSignalingMessage m) (apply_synchronously ms w)).1.
Proof. unfold apply_synchronously. by rewrite foldl_app. Qed.

Lemma apply_synchronously_app ms1 ms2 w :
  apply_synchronously (ms1 ++ ms2) w
  = apply_synchronously ms2 (apply_synchronously ms1 w).
Proof. unfold apply_synchronously. by rewrite foldl_app. Qed.

Lemma same_negotiation_apply ms a b :
  same_negotiation a b →
  same_negotiation (apply_synchronously ms a) (apply_synchronously ms b).
Proof.
  revert a b. induction ms as [|m ms IH]; intros a b Hab; [done|].
  rewrite !apply_synchronously_cons. apply IH.
  by apply same_negotiation_exec; [apply inbox_free_processSignalingMessage|].
Qed.

Lemma apply_synchronously_inbox ms w :
  signalingQueue (this (apply_synchronously ms w)) = signalingQueue (this w)
  ∧ isProcessingSignal (this (apply_synchronously ms w))
    = isProcessingSignal (this w).
Proof.
  revert w. induction ms as [|m ms IH]; intros w; [done|].
  rewrite apply_synchronously_cons.
  destruct (IH (exec (processSignalingMessage m) w).1) as [-> ->].
  apply inbox_free_exec_inbox, inbox_free_processSignalingMessage.
Qed.

(** Finish what is in flight, then apply the queue synchronously. *)
Definition finish (ks : list (Async unit)) (w : World) : World :=
  apply_synchronously (signalingQueue (this w))
    match ks with k :: _ => (exec k w).1 | [] => w end.

Definition completed (s : Sched) : World := finish (dispatches s) (world s).

Lemma dispatch_completed k w :
  inbox_free k →
  let r := processSignalingQueue_dispatch k w in
  same_negotiation (finish (option_list (r.2 ≫= continuation)) r.1)
                   (finish [k] w).
Proof.
  intros Hk r. subst r. pose proof (dispatch_turn k w Hk) as Hd.
  cbv zeta in Hd. destruct Hd as (_ & Hq & Hcase). unfold finish.
  destruct (processSignalingQueue_dispatch k w) as [w' [[k'|]|]];
    cbn [fst snd mbind option_bind continuation option_list] in *;
    rewrite Hq.
  - destruct Hcase as [Hr _]. rewrite (exec_resume k w), Hr. done.
  - destruct Hcase as ([c Hr] & _). rewrite (exec_resume k w), Hr.
    cbn [fst]. apply same_negotiation_apply. symmetry.
    apply same_negotiation_refile.
  - destruct Hcase as ([c Hr] & _). rewrite (exec_resume k w), Hr.
    cbn [fst]. apply same_negotiation_apply. symmetry.
    apply same_negotiation_refile.
Qed.

Lemma head_completed w :
  isProcessingSignal (this w) = false →
  let r := processSignalingQueue_head w in
  same_negotiation (finish (option_list (r.2 ≫= continuation)) r.1)
                   (finish [] w).
Proof.
  intros Hp r. subst r. pose proof (head_turn w) as Hh. cbv zeta in Hh.
  rewrite Hp in Hh.
  destruct (signalingQueue (this w)) as [|m rest] eqn:Hq.
  - rewrite Hh. unfold finish. cbn [fst snd mbind option_bind option_list].
    done.
  - rewrite Hh. etrans; [apply dispatch_completed,inbox_free_guarded_dispatch|].
    unfold finish. rewrite refile_queue, Hq, apply_synchronously_cons.
    apply same_negotiation_apply. rewrite exec_guarded_dispatch.
    apply same_negotiation_exec;
      [apply inbox_free_processSignalingMessage|].
    apply same_negotiation_refile.
Qed.

Lemma dispatches_settle (w' : World) (ds : list Drain) i d x :
  ds !! i = Some d →
  length (omap continuation ds) = length (option_list (continuation d)) →
  dispatches {| world := w'; drains := settle i x ds |}
  = option_list (x ≫= continuation).
Proof.
  intros Hi Hlen. unfold dispatches. cbn [drains].
  rewrite (omap_split ds i d Hi), !length_app in Hlen.
  rewrite (omap_settle ds i d x Hi).
  destruct (omap continuation (take i ds)); [|cbn in Hlen; lia].
  destruct (omap continuation (drop (S i) ds)); [|cbn in Hlen; lia].
  by rewrite app_nil_r.
Qed.

Lemma dispatches_spawn (w' : World) (ds : list Drain) x :
  omap continuation ds = [] →
  dispatches {| world := w'; drains := spawn x ds |}
  = option_list (x ≫= continuation).
Proof.
  intros Hnil. unfold dispatches, spawn. cbn [drains].
  destruct x as [x|]; cbn [mbind option_bind].
  - rewrite omap_app, Hnil. cbn. by destruct (continuation x).
  - by rewrite Hnil.
Qed.

Lemma dispatches_unique w (ds : list Drain) i k :
  ds !! i = Some (Dispatching k) →
  in_flight {| world := w; drains := ds |} = 1 →
  dispatches {| world := w; drains := ds |} = [k].
Proof.
  intros Hi Hlen. unfold in_flight, dispatches in *. cbn [drains] in *.
  rewrite (omap_split ds i _ Hi) in *. rewrite !length_app in Hlen.
  cbn [continuation option_list length] in *.
  destruct (omap continuation (take i ds)); [|cbn in Hlen; lia].
  destruct (omap continuation (drop (S i) ds)); [|cbn in Hlen; lia].
  done.
Qed.

(** One occurrence moves the completion by exactly the message it
    delivers. *)
Lemma completed_occur o s :
  well_formed s →
  match o with
  | Arrive m =>
      same_negotiation (completed (occur o s))
        (exec (processSignalingMessage m) (completed s)).1
  | Wake _ => same_negotiation (completed (occur o s)) (completed s)
  | Teardown => True
  end.
Proof.
  destruct s as [w ds]. intros [Hall Hfl]. cbn [world drains] in *.
  destruct o as [m|i|]; [| |done]; cbn [occur].
  - unfold handleSignalingMessage. cbn [world drains].
    set (q := signalingQueue (this w)). set (p := isProcessingSignal (this w)).
    assert (set_this (λ t, set_signalingQueue (signalingQueue t ++ [m]) t) w
            = refile (q ++ [m]) p w) as ->.
    { subst q p. by destruct w as [[] ? ? ?]. }
    rewrite refile_flag. unfold completed. cbn [world drains].
    destruct p eqn:Hp; subst p.
    + (* a dispatch is in flight: the message waits in the inbox *)
      rewrite Hp in Hfl.
      assert (∃ k, dispatches {| world := w; drains := ds |} = [k])
        as [k Hk].
      { unfold in_flight in Hfl.
        destruct (dispatches _) as [|k [|]]; cbn in Hfl; try lia. eauto. }
      assert (inbox_free k) as Hfree.
      { unfold dispatches in Hk. cbn [drains] in Hk.
        assert (k ∈ omap continuation ds) as Hin by (rewrite Hk; by left).
        apply list_elem_of_omap in Hin as (d & Hd & Hc).
        eapply (proj1 (Forall_forall _ _)) in Hall; [|exact Hd].
        destruct d; cbn in *; simplify_eq; done. }
      unfold dispatches in *. cbn [drains] in *. rewrite Hk. unfold finish.
      cbn [world]. rewrite refile_queue. fold q. rewrite apply_synchronously_snoc.
      apply same_negotiation_exec;
        [apply inbox_free_processSignalingMessage|].
      apply same_negotiation_apply.
      apply same_negotiation_exec; [done|]. apply same_negotiation_refile.
    + (* no dispatch is in flight: the head of the loop runs *)
      rewrite Hp in Hfl.
      assert (omap continuation ds = []) as Hnil.
      { unfold in_flight, dispatches in Hfl. cbn [drains] in Hfl.
        by apply nil_length_inv. }
      pose proof (head_completed (refile (q ++ [m]) false w) eq_refl) as Hh.
      cbv zeta in Hh.
      destruct (processSignalingQueue_head _) as [w' d]. cbn [fst snd] in *.
      cbn [world drains]. rewrite (dispatches_spawn w') by done.
      etrans; [exact Hh|]. unfold finish, dispatches. cbn [drains].
      rewrite Hnil, refile_queue. fold q. rewrite apply_synchronously_snoc.
      apply same_negotiation_exec;
        [apply inbox_free_processSignalingMessage|].
      apply same_negotiation_apply, same_negotiation_refile.
  - unfold wake. cbn [world drains].
    destruct (ds !! i) as [[k|]|] eqn:Hi; [| |done].
    + assert (inbox_free k) as Hk.
      { eapply (Forall_lookup_1 activation_ok) in Hall; [|exact Hi]. done. }
      assert (in_flight {| world := w; drains := ds |} = 1) as Hone.
      { destruct (isProcessingSignal (this w)); [done|].
        unfold in_flight, dispatches in Hfl. cbn [drains] in Hfl.
        rewrite (omap_split ds i _ Hi) in Hfl.
        rewrite !length_app in Hfl. cbn in Hfl. lia. }
      pose proof (dispatch_completed k w Hk) as Hd. cbv zeta in Hd.
      destruct (processSignalingQueue_dispatch k w) as [w' d].
      cbn [fst snd] in *. unfold completed. cbn [world drains].
      rewrite (dispatches_unique w ds i k Hi Hone).
      erewrite (dispatches_settle w' ds i _ d Hi); [exact Hd|].
      unfold in_flight, dispatches in Hone. cbn [drains] in Hone.
      by rewrite Hone.
    + pose proof (head_turn_well_formed w) as Hh. cbv zeta in Hh.
      destruct Hh as (_ & Hbusy & _).
      destruct (isProcessingSignal (this w)) eqn:Hp.
      * rewrite (Hbusy eq_refl). unfold completed. cbn [world drains].
        unfold dispatches. cbn [drains].
        rewrite (omap_settle ds i _ None Hi), (omap_split ds i _ Hi).
        done.
      * assert (omap continuation ds = []) as Hnil.
        { unfold in_flight, dispatches in Hfl. cbn [drains] in Hfl.
          by apply nil_length_inv. }
        pose proof (head_completed w Hp) as Hc. cbv zeta in Hc.
        destruct (processSignalingQueue_head w) as [w' d].
        cbn [fst snd] in *. unfold completed. cbn [world drains].
        erewrite (dispatches_settle w' ds i _ d Hi);
          [|by rewrite Hnil].
        unfold dispatches at 1. cbn [drains]. rewrite Hnil. exact Hc.
Qed.

Lemma arrivals_Arrive m os : arrivals (Arrive m :: os) = m :: arrivals os.
Proof. reflexivity. Qed.

Lemma arrivals_Wake i os : arrivals (Wake i :: os) = arrivals os.
Proof. reflexivity. Qed.

Lemma arrivals_app os1 os2 : arrivals (os1 ++ os2) = arrivals os1 ++ arrivals os2.
Proof. apply omap_app. Qed.

Lemma completed_run os s :
  well_formed s → no_teardown os = true →
  same_negotiation (completed (run_schedule os s))
                   (apply_synchronously (arrivals os) (completed s)).
Proof.
  revert s. induction os as [|o os IH]; intros s Hs Hnt; [done|].
  cbn [run_schedule foldl]. cbn in Hnt.
  apply andb_prop in Hnt as [Ho Hnt].
  pose proof (completed_occur o s Hs) as Hstep.
  etrans; [apply (IH (occur o s)); [by apply well_formed_occur|done]|].
  destruct o as [m|i|]; [| |done].
  - rewrite arrivals_Arrive, apply_synchronously_cons.
    by apply same_negotiation_apply.
  - rewrite arrivals_Wake. by apply same_negotiation_apply.
Qed.

(** *** Progress: the queue is always drained *)

(** A message never waits without a loop that will come back for it. *)
Definition live (s : Sched) : Prop :=
  isProcessingSignal (this (world s)) = false →
  signalingQueue (this (world s)) ≠ [] →
  drains s ≠ [].

Lemma spawn_Some_ne (ds : list Drain) x : spawn (Some x) ds ≠ [].
Proof. unfold spawn. by destruct ds. Qed.

Lemma settle_Some_ne (ds : list Drain) i d x :
  ds !! i = Some d → settle i (Some x) ds ≠ [].
Proof.
  intros Hi Hnil. apply (f_equal length) in Hnil.
  unfold settle in Hnil. rewrite length_insert in Hnil.
  apply lookup_lt_Some in Hi. cbn in Hnil. lia.
Qed.

(** After a turn of the head or of a dispatch, a non-empty inbox with
    the flag down comes with a pausing activation. *)
Lemma dispatch_turn_live k w :
  inbox_free k →
  let r := processSignalingQueue_dispatch k w in
  isProcessingSignal (this w) = true →
  isProcessingSignal (this r.1) = false →
  signalingQueue (this r.1) ≠ [] → r.2 = Some Pausing.
Proof.
  intros Hk r Hp Hp' Hq'. subst r.
  pose proof (dispatch_turn k w Hk) as Hd. cbv zeta in Hd.
  destruct Hd as (_ & Hq & Hcase).
  destruct (processSignalingQueue_dispatch k w) as [w' [[k'|]|]];
    cbn [fst snd] in *.
  - destruct Hcase as [_ Hsame]. congruence.
  - done.
  - destruct Hcase as (_ & _ & Hnil). congruence.
Qed.

Lemma head_turn_live w :
  let r := processSignalingQueue_head w in
  isProcessingSignal (this r.1) = false →
  signalingQueue (this r.1) ≠ [] →
  r.2 = Some Pausing.
Proof.
  intros r Hp' Hq'. subst r. pose proof (head_turn w) as Hh.
  cbv zeta in Hh.
  destruct (signalingQueue (this w)) as [|m rest] eqn:Hq.
  { rewrite Hh in Hq'. cbn in Hq'. congruence. }
  destruct (isProcessingSignal (this w)) eqn:Hp.
  { rewrite Hh in Hp'. cbn in Hp'. congruence. }
  rewrite Hh in *. by apply dispatch_turn_live;
    [apply inbox_free_guarded_dispatch|..].
Qed.

Lemma live_occur o s : well_formed s → live s → live (occur o s).
Proof.
  destruct s as [w ds]. intros [Hall Hfl] Hlive. unfold live in *.
  cbn [world drains] in *. destruct o as [m|i|]; cbn [occur].
  - unfold handleSignalingMessage. cbn [world drains].
    set (w1 := set_this _ w).
    destruct (isProcessingSignal (this w1)) eqn:Hp1; cbn [world drains].
    + intros Hp. congruence.
    + pose proof (head_turn_live w1) as Hh. cbv zeta in Hh.
      destruct (processSignalingQueue_head w1) as [w' d].
      cbn [fst snd world drains] in *. intros Hp Hq.
      rewrite (Hh Hp Hq). apply spawn_Some_ne.
  - unfold wake. cbn [world drains].
    destruct (ds !! i) as [[k|]|] eqn:Hi; [| |done].
    + assert (inbox_free k) as Hk.
      { eapply (Forall_lookup_1 activation_ok) in Hall; [|exact Hi]. done. }
      assert (isProcessingSignal (this w) = true) as Hp.
      { destruct (isProcessingSignal (this w)); [done|].
        unfold in_flight, dispatches in Hfl. cbn [drains] in Hfl.
        rewrite (omap_split ds i _ Hi) in Hfl.
        rewrite !length_app in Hfl. cbn in Hfl. lia. }
      pose proof (dispatch_turn_live k w Hk) as Hd. cbv zeta in Hd.
      destruct (processSignalingQueue_dispatch k w) as [w' d].
      cbn [fst snd world drains] in *. intros Hp' Hq'.
      rewrite (Hd Hp Hp' Hq'). by eapply settle_Some_ne.
    + pose proof (head_turn_live w) as Hh. cbv zeta in Hh.
      destruct (processSignalingQueue_head w) as [w' d].
      cbn [fst snd world drains] in *. intros Hp' Hq'.
      rewrite (Hh Hp' Hq'). by eapply settle_Some_ne.
  - unfold teardown. cbn [world drains]. intros _ Hq. exfalso. apply Hq.
    by rewrite exec_cleanup, exec_closeWebRTCConnection.
Qed.

Lemma live_run os s : well_formed s → live s → live (run_schedule os s).
Proof.
  revert s. induction os as [|o os IH]; intros s Hs Hl; [done|].
  cbn. apply IH; [by apply well_formed_occur|by apply live_occur].
Qed.

Lemma run_schedule_app os1 os2 s :
  run_schedule (os1 ++ os2) s = run_schedule os2 (run_schedule os1 s).
Proof. unfold run_schedule. by rewrite foldl_app. Qed.

Lemma drain_turns_S n s :
  run_schedule (drain_turns (S n)) s
  = run_schedule (drain_turns n) (wake 0 s).
Proof. reflexivity. Qed.

Lemma drain_turns_add n1 n2 s :
  run_schedule (drain_turns (n1 + n2)) s
  = run_schedule (drain_turns n2) (run_schedule (drain_turns n1) s).
Proof.
  unfold drain_turns. by rewrite replicate_add, run_schedule_app.
Qed.

Lemma settle_head (d : option Drain) x (rest : list Drain) :
  settle 0 d (x :: rest) = option_list d ++ rest.
Proof. by destruct d. Qed.

Lemma wake_dispatching k w rest :
  wake 0 {| world := w; drains := Dispatching k :: rest |}
  = {| world := (processSignalingQueue_dispatch k w).1;
       drains := option_list (processSignalingQueue_dispatch k w).2 ++ rest |}.
Proof.
  unfold wake. cbn [drains world lookup list_lookup].
  destruct (processSignalingQueue_dispatch k w) as [w' d].
  by rewrite settle_head.
Qed.

Lemma wake_pausing w rest :
  wake 0 {| world := w; drains := Pausing :: rest |}
  = {| world := (processSignalingQueue_head w).1;
       drains := option_list (processSignalingQueue_head w).2 ++ rest |}.
Proof.
  unfold wake. cbn [drains world lookup list_lookup].
  destruct (processSignalingQueue_head w) as [w' d].
  by rewrite settle_head.
Qed.

(** Resuming the oldest activation while it is suspended in a dispatch
    brings that dispatch to its end after finitely many turns. *)
Lemma dispatch_settles k w rest :
  ∃ n, run_schedule (drain_turns (S n))
         {| world := w; drains := Dispatching k :: rest |}
       = {| world := (processSignalingQueue_settled (exec k w).1).1;
            drains := option_list
                        (processSignalingQueue_settled (exec k w).1).2
                      ++ rest |}.
Proof.
  revert w. induction k as [a|e|g k IH|k IH]; intros w.
  - exists 0. by rewrite drain_turns_S, wake_dispatching.
  - exists 0. by rewrite drain_turns_S, wake_dispatching.
  - destruct (IH w (g w)) as [n Hn]. exists n.
    rewrite drain_turns_S, wake_dispatching in *. exact Hn.
  - destruct (IH w) as [n Hn]. exists (S n).
    rewrite drain_turns_S, wake_dispatching. exact Hn.
Qed.

Lemma settled_world w :
  (processSignalingQueue_settled w).1
  = set_this (set_isProcessingSignal false) w.
Proof.
  unfold processSignalingQueue_settled.
  by destruct (signalingQueue (this (set_this _ w))).
Qed.

(** The work left: two for each queued message, one for the dispatch in
    flight. *)
Definition work (s : Sched) : nat :=
  2 * length (signalingQueue (this (world s))) + in_flight s.

Lemma all_pausing (s : Sched) :
  in_flight s = 0 → Forall (λ d, d = Pausing) (drains s).
Proof.
  unfold in_flight, dispatches. intros Hn. apply nil_length_inv in Hn.
  induction (drains s) as [|d ds IH]; [done|].
  destruct d as [k|]; [done|]. constructor; [done|]. by apply IH.
Qed.

Lemma drains_to_quiescence N :
  ∀ L s, well_formed s → live s →
         (work s ≤ N)%nat → (length (drains s) ≤ L)%nat →
         ∃ n, quiescent (run_schedule (drain_turns n) s).
Proof.
  induction N as [N IHN] using lt_wf_ind.
  induction L as [|L IHL]; intros [w ds] Hwf Hlive Hwork Hlen.
  - destruct ds; [|cbn in Hlen; lia].
    exists 0. destruct Hwf as [_ Hfl]. cbn in Hfl.
    destruct (isProcessingSignal (this w)) eqn:Hp; [done|].
    split_and!; try done. cbn.
    destruct (signalingQueue (this w)) eqn:Hq; [done|].
    exfalso. by apply Hlive; cbn; rewrite ?Hq.
  - destruct ds as [|[k|] rest].
    + apply (IHL {| world := w; drains := [] |}); try done. cbn. lia.
    + (* the oldest activation is in a dispatch *)
      destruct (dispatch_settles k w rest) as [n1 Hn1].
      set (s1 := run_schedule (drain_turns (S n1))
                   {| world := w; drains := Dispatching k :: rest |}) in *.
      assert (well_formed s1) as Hwf1 by by apply well_formed_run.
      assert (live s1) as Hlive1 by by apply live_run.
      assert (inbox_free k) as Hk.
      { destruct Hwf as [Hall _]. by inversion Hall. }
      assert (work s1 < work {| world := w; drains := Dispatching k :: rest |})
        as Hlt.
      { destruct Hwf1 as [_ Hfl1]. unfold work. rewrite Hfl1.
        destruct (inbox_free_exec_inbox k w Hk) as [Hq _].
        assert (world s1 = set_this (set_isProcessingSignal false)
                             (exec k w).1) as ->.
        { rewrite Hn1. cbn [world]. apply settled_world. }
        cbn [set_this this set_isProcessingSignal signalingQueue
             isProcessingSignal world].
        rewrite Hq. unfold in_flight, dispatches. cbn. lia. }
      destruct (IHN (work s1) ltac:(lia) (length (drains s1)) s1)
        as [n2 Hn2]; try done.
      exists (S n1 + n2). by rewrite drain_turns_add.
    + (* the oldest activation is pausing *)
      set (s0 := {| world := w; drains := Pausing :: rest |}) in *.
      assert (well_formed (wake 0 s0)) as Hwf1
        by apply (well_formed_occur (Wake 0)), Hwf.
      assert (live (wake 0 s0)) as Hlive1
        by by apply (live_occur (Wake 0)).
      pose proof (head_turn w) as Hh. cbv zeta in Hh.
      assert ((work (wake 0 s0) < work s0)%nat
              ∨ (work (wake 0 s0) = work s0
                 ∧ length (drains (wake 0 s0)) = length rest)) as Hcase.
      { subst s0. rewrite wake_pausing in *.
        destruct (signalingQueue (this w)) as [|m q] eqn:Hq.
        { right. rewrite Hh. cbn. unfold work, in_flight, dispatches.
          cbn. by rewrite Hq. }
        destruct (isProcessingSignal (this w)) eqn:Hp.
        { right. rewrite Hh. cbn. unfold work, in_flight, dispatches.
          cbn. by rewrite Hq. }
        left. destruct Hwf as [_ Hfl]. destruct Hwf1 as [_ Hfl1].
        cbn [world] in *. rewrite Hp in Hfl.
        pose proof (dispatch_turn (guarded_dispatch m) (refile q true w)
                      (inbox_free_guarded_dispatch m)) as Hd.
        cbv zeta in Hd. rewrite <- Hh in Hd.
        destruct Hd as (_ & Hq' & _). rewrite refile_queue in Hq'.
        unfold work. cbn [world]. rewrite Hfl, Hfl1, Hq', Hq. cbn [length].
        destruct (isProcessingSignal _); lia. }
      destruct Hcase as [Hlt|[Heq Hlen']].
      * destruct (IHN (work (wake 0 s0)) ltac:(lia)
                    (length (drains (wake 0 s0))) (wake 0 s0))
          as [n2 Hn2]; try done.
        exists (S n2). by rewrite drain_turns_S.
      * destruct (IHL (wake 0 s0)) as [n2 Hn2]; try done.
        { lia. } { cbn in Hlen. lia. }
        exists (S n2). by rewrite drain_turns_S.
Qed.

Lemma arrivals_drain_turns n : arrivals (drain_turns n) = [].
Proof. induction n as [|n IH]; [done|]. exact IH. Qed.

Lemma no_teardown_drain_turns n : no_teardown (drain_turns n) = true.
Proof. induction n as [|n IH]; [done|]. exact IH. Qed.

Lemma no_teardown_app os1 os2 :
  no_teardown (os1 ++ os2) = no_teardown os1 && no_teardown os2.
Proof. apply forallb_app. Qed.

Lemma quiescent_completed s : quiescent s → completed s = world s.
Proof.
  intros (Hd & Hq & _). unfold completed, finish, dispatches.
  by rewrite Hd, Hq.
Qed.

Lemma quiescent_reference w0 os :
  signalingQueue (this w0) = [] →
  isProcessingSignal (this w0) = false →
  no_teardown os = true →
  quiescent (run_schedule os {| world := w0; drains := [] |}) →
  world (run_schedule os {| world := w0; drains := [] |})
  = apply_synchronously (arrivals os) w0.
Proof.
  intros Hq0 Hp0 Hnt Hquiet.
  set (s0 := {| world := w0; drains := [] |}) in *.
  assert (well_formed s0) as Hwf.
  { split; cbn; [done|]. by rewrite Hp0. }
  pose proof (completed_run os s0 Hwf Hnt) as Hc.
  rewrite (quiescent_completed _ Hquiet) in Hc.
  assert (completed s0 = w0) as Hs0.
  { unfold completed, finish, dispatches. cbn. by rewrite Hq0. }
  rewrite Hs0 in Hc. unfold same_negotiation in Hc.
  destruct Hquiet as (_ & Hq & Hp).
  destruct (apply_synchronously_inbox (arrivals os) w0) as [Hq' Hp'].
  rewrite Hq0 in Hq'. rewrite Hp0 in Hp'.
  pose proof (refile_self (world (run_schedule os s0))) as E.
  pose proof (refile_self (apply_synchronously (arrivals os) w0)) as E'.
  rewrite Hq, Hp in E. rewrite Hq', Hp' in E'. congruence.
Qed.

(** The declaration of lines 466-474 taken on its own.  From a session
    with an empty inbox and no dispatch in progress, let that body be
    called with messages in any interleaving with the turns of the event
    loop.  Whenever the queue has come to rest, the world is the one
    obtained by applying [processSignalingMessage] synchronously to the
    delivered messages in delivery order; and the queue always comes to
    rest: finitely many further turns drain it, with that same result.
    The world includes the peer connection, the remote-description flag,
    the candidate buffer, the backend and the trace of native calls, so
    the messages were dispatched in FIFO order. *)
Theorem queue_refines_synchronous_dispatch w0 os :
  signalingQueue (this w0) = [] →
  isProcessingSignal (this w0) = false →
  no_teardown os = true →
  let s0 := {| world := w0; drains := [] |} in
  let reference := apply_synchronously (arrivals os) w0 in
  (quiescent (run_schedule os s0) → world (run_schedule os s0) = reference)
  ∧ ∃ n, quiescent (run_schedule (os ++ drain_turns n) s0)
         ∧ world (run_schedule (os ++ drain_turns n) s0) = reference.
Proof.
  intros Hq0 Hp0 Hnt s0 reference. split.
  - by apply quiescent_reference.
  - assert (well_formed s0) as Hwf.
    { split; cbn; [done|]. by rewrite Hp0. }
    assert (live s0) as Hlive.
    { intros _ Hq. cbn in Hq. congruence. }
    destruct (drains_to_quiescence
                (work (run_schedule os s0))
                (length (drains (run_schedule os s0)))
                (run_schedule os s0)) as [n Hn];
      [by apply well_formed_run|by apply live_run|done|done|].
    exists n. rewrite run_schedule_app. split; [done|].
    rewrite <- run_schedule_app. subst reference.
    replace (arrivals os) with (arrivals (os ++ drain_turns n)).
    + apply quiescent_reference; try done.
      * by rewrite no_teardown_app, Hnt, no_teardown_drain_turns.
      * by rewrite run_schedule_app.
    + by rewrite arrivals_app, arrivals_drain_turns, app_nil_r.
Qed.

(** *** The queue as the class binds it *)

Lemma applied_offer_sets_flag message w pc sdp pc1 :
  peerConnection (this w) = Some pc →
  sig_type message = offer →
  new_RTCSessionDescription (sig_data message) = Normal sdp →
  setRemoteDescription sdp pc = (pc1, Normal tt) →
  isRemoteDescriptionSet (this (exec (processSignalingMessage message) w).1)
  = true.
Proof.
  intros Hpc Hty Hsdp Hrem.
  destruct (exec (processSignalingMessage message) w) as [wf cf] eqn:EX.
  cbn [fst]. revert EX. unfold processSignalingMessage.
  rewrite exec_bind, exec_gets. cbn [fst snd]. rewrite Hpc.
  rewrite exec_try_catch, Hty.
  rewrite exec_bind, exec_console. cbn [fst snd].
  rewrite exec_bind. unfold native_new at 1. rewrite exec_atomically.
  trace_simpl. rewrite Hpc, Hsdp, Hrem. cbn [fst snd complete].
  rewrite exec_Await, exec_Ret.
  rewrite exec_bind, exec_modify. cbn [fst snd].
  rewrite exec_bind, exec_await.
  match goal with |- context [exec processPendingCandidates ?wf] =>
    destruct (processPendingCandidates_spec wf pc1 eq_refl)
      as (l & -> & Hl)
  end.
  match goal with |- context [exec ?E ?wf] =>
    assert (writes after_flush E) as HE;
    [ unfold sendSignaling, native, setDoc_signaling;
      repeat writes_step; after_flush_leaf
    | pose proof (writes_exec after_flush E wf HE) as HR;
      destruct (exec E wf) as [w2 c2] ]
  end.
  cbn [fst] in HR. destruct HR as (H1 & _ & _).
  revert H1. trace_simpl. intros H1.
  destruct c2 as [[]|e]; exec_simpl; intros [= <- <-]; trace_simpl;
    by rewrite H1.
Qed.

Lemma run_bound_no_drains room os w U :
  no_teardown os = true →
  run_bound room os
    {| calling := []; stack := []; returned := None; jobs := [];
       parked := []; unhandled := U;
       sched := {| world := w; drains := [] |} |}
  = {| calling := []; stack := []; returned := None; jobs := [];
       parked := [];
       unhandled := U ++ replicate (length (arrivals os)) RangeError;
       sched := {| world := w; drains := [] |} |}.
Proof.
  unfold run_bound. revert U.
  induction os as [|[m|i|] os IH]; intros U Hnt.
  - cbn. by rewrite app_nil_r.
  - cbn [foldl occur_bound]. unfold onSignalingSnapshot.
    change (added_messages [(added, m)]) with [m]. unfold hand_over.
    cbn [stack returned jobs parked unhandled sched].
    rewrite run_hand_over by done.
    rewrite IH by done. cbn [arrivals omap length replicate].
    by rewrite <- app_assoc.
  - cbn [foldl occur_bound]. unfold set_sched, wake.
    cbn [calling stack returned jobs parked unhandled sched drains].
    rewrite lookup_nil. by rewrite IH.
  - done.
Qed.

(** C1 (the code departs from the claim).  A session holds a peer
    connection to which no description has been applied, and an offer
    is delivered to it, in any interleaving with the turns of the event
    loop.  The delivery calls the handler the prototype binds, which
    never reaches the queue: when everything has come to rest the
    session is exactly as it was, the remote-description flag is still
    down, and the call has left one unhandled [RangeError].  Applied
    synchronously, the same offer raises the flag. *)
Theorem delivered_offer_is_never_applied room w0 os message pc sdp pc1 :
  signalingQueue (this w0) = [] →
  isProcessingSignal (this w0) = false →
  no_teardown os = true →
  arrivals os = [message] →
  peerConnection (this w0) = Some pc →
  isRemoteDescriptionSet (this w0) = false →
  sig_type message = offer →
  new_RTCSessionDescription (sig_data message) = Normal sdp →
  setRemoteDescription sdp pc = (pc1, Normal tt) →
  let s0 := {| world := w0; drains := [] |} in
  let st := run_bound room os (idle s0) in
  let reference := apply_synchronously (arrivals os) w0 in
  sched st = s0
  ∧ quiescent (sched st)
  ∧ engine_step room st = None
  ∧ unhandled st = [RangeError]
  ∧ isRemoteDescriptionSet (this (world (sched st))) = false
  ∧ isRemoteDescriptionSet (this reference) = true.
Proof.
  intros Hq Hp Hnt Harr Hpc Hflag Hty Hsdp Hrem s0 st reference.
  subst st reference s0. unfold idle.
  rewrite run_bound_no_drains by done. rewrite Harr.
  cbn [sched world unhandled length replicate app].
  split_and!; try done.
  unfold apply_synchronously. cbn [foldl].
  by eapply applied_offer_sets_flag.
Qed.

(** ** The listener after a second call arrives *)

(** The bindings a listener created in the current render would hold. *)
Definition current_listener (uid : string) (a : App) : IncomingListener :=
  {| l_uid := uid; l_activeCall := activeCall (state a);
     l_manualCall := manualCall (state a) |}.

(** C9 (the code departs from the claim).  A user logs in while no call
    is shown; the listener is created by the effect of that render.  A
    first call [callA] arrives and is surfaced, so the user now has a
    manual call in state [ringing].  A second ringing call [callB] with
    another [callId] arrives: the listener still holds the bindings of
    the login render, finds no call, and surfaces [callB] with the
    ringtone; nothing is written to the backend, so the record of
    [callB] is not rejected.  A listener holding the current bindings
    would have found the user busy. *)
Theorem stale_listener_surfaces_second_call uid callA callB a0 :
  state a0 = {| user := None; activeCall := None; manualCall := None |} →
  receiverId callA = Some uid → status callA = Some ringing →
  receiverId callB = Some uid → status callB = Some ringing →
  callId callA ≠ callId callB →
  let a1 := setUser (Some uid) a0 in
  let a2 := docChange added callA a1 in
  let a3 := docChange added callB a2 in
  manualCall (state a2) = Some callA
  ∧ isManualBusy (current_listener uid a2) callB = true
  ∧ surfaced callB a3
  ∧ ui a3 = ui a2 ++ [ui_playRingtone; ui_setTimeout 45000%N (callId callB)]
  ∧ db (backend a3) = db (backend a0).
Proof.
  intros Hs HrA HsA HrB HsB Hne a1 a2 a3.
  assert (listener a1 = Some {| l_uid := uid; l_activeCall := None;
                                l_manualCall := None |}) as Hl1.
  { subst a1. unfold setUser, manualSubscriptionEffect. cbn. by rewrite Hs. }
  assert (db (backend a1) = db (backend a0)) as Hdb1.
  { subst a1. unfold setUser, manualSubscriptionEffect. by cbn. }
  assert (a2 = onIncomingCall {| l_uid := uid; l_activeCall := None;
                                 l_manualCall := None |} callA a1) as Ha2.
  { subst a2. unfold docChange. rewrite Hl1. cbn [l_uid].
    by rewrite HrA, HsA, !bool_decide_true. }
  destruct (onIncomingCall_surface
              {| l_uid := uid; l_activeCall := None; l_manualCall := None |}
              callA a1 eq_refl eq_refl) as (HmA & _ & HdbA).
  rewrite <- Ha2 in HmA, HdbA. unfold surfaced in HmA.
  assert (listener a2 = listener a1) as Hl2.
  { rewrite Ha2. unfold onIncomingCall, isManualBusy. by cbn. }
  assert (a3 = onIncomingCall {| l_uid := uid; l_activeCall := None;
                                 l_manualCall := None |} callB a2) as Ha3.
  { subst a3. unfold docChange. rewrite Hl2, Hl1. cbn [l_uid].
    by rewrite HrB, HsB, !bool_decide_true. }
  destruct (onIncomingCall_surface
              {| l_uid := uid; l_activeCall := None; l_manualCall := None |}
              callB a2 eq_refl eq_refl) as (HmB & HuiB & HdbB).
  rewrite <- Ha3 in HmB, HuiB, HdbB.
  split_and!; [done| |done|done|congruence].
  unfold isManualBusy, current_listener. cbn [l_manualCall].
  rewrite HmA, HsA.
  rewrite (bool_decide_true (Some ringing = Some ringing)) by done.
  by rewrite (bool_decide_true (callId callA ≠ callId callB)) by done.
Qed.

(** * Further properties of [CallService] *)

(** ** A body that never rejects *)

(** Run a body to its end while other turns of the event loop change the
    world behind its back: [env n] is what happens to the world while
    the body is suspended for the [n]-th time. *)
Fixpoint exec_among {A} (env : nat → World → World) (n : nat)
    (m : Async A) (w : World) : World * Completion A :=
  match m with
  | Ret a => (w, Normal a)
  | Throw e => (w, Abrupt e)
  | Act g k => exec_among env n (k w) (g w)
  | Await k => exec_among env (S n) k (env n w)
  end.

Lemma exec_among_id {A} (m : Async A) n w :
  exec_among (λ _, id) n m w = exec m w.
Proof.
  revert n w. induction m as [a|e|g k IH|k IH]; intros n w; cbn; auto.
Qed.

(** No path through the body ends in an uncaught exception. *)
Fixpoint caught {A} (m : Async A) : Prop :=
  match m with
  | Ret _ => True
  | Throw _ => False
  | Act g k => ∀ w, caught (k w)
  | Await k => caught k
  end.

Lemma caught_bind {A B} (m : Async A) (f : A → Async B) :
  caught m → (∀ a, caught (f a)) → caught (m ≫= f).
Proof.
  unfold mbind, Async_bind. intros Hm Hf.
  induction m as [a|e|g k IH|k IH]; cbn in *; try done; auto.
Qed.

Lemma caught_try_catch {A} (m : Async A) h :
  (∀ e, caught (h e)) → caught (try_catch m h).
Proof. intros Hh. induction m as [a|e|g k IH|k IH]; cbn in *; auto. Qed.

Lemma caught_await {A} (m : Async A) : caught m → caught (await m).
Proof. intros Hm. induction m as [a|e|g k IH|k IH]; cbn in *; auto. Qed.

Lemma caught_forEach {A} (l : list A) f :
  (∀ x, caught (f x)) → caught (forEach l f).
Proof.
  intros Hf. induction l as [|x l IH]; cbn [forEach]; [done|].
  apply caught_bind; auto.
Qed.

Lemma caught_when b m : caught m → caught (when b m).
Proof. by destruct b. Qed.

Lemma caught_exec_among {A} (m : Async A) env n w :
  caught m → ∃ a, (exec_among env n m w).2 = Normal a.
Proof.
  revert n w. induction m as [a|e|g k IH|k IH]; intros n w Hm; cbn in *;
    try done; eauto.
Qed.

Ltac caught_step :=
  match goal with
  | |- caught (try_catch _ _) => apply caught_try_catch; intros ?
  | |- caught (_ ≫= _) => apply caught_bind; [|intros ?]
  | |- caught (await _) => apply caught_await
  | |- caught (forEach _ _) => apply caught_forEach; intros ?
  | |- caught (when _ _) => apply caught_when
  | |- caught (gets _) => by cbn
  | |- caught (modify _) => by cbn
  | |- caught (console _ _) => by cbn
  | |- caught (Ret _) => exact I
  | |- caught (mret _) => exact I
  | |- caught (match ?x with _ => _ end) => destruct x
  | |- caught (if ?x then _ else _) => destruct x
  end.

Lemma caught_closeWebRTCConnection callId :
  caught (closeWebRTCConnection callId).
Proof. unfold closeWebRTCConnection. repeat caught_step. Qed.

Lemma caught_sendSignaling m : caught (sendSignaling m).
Proof. unfold sendSignaling. repeat caught_step. Qed.

Lemma caught_startConnection callId userId otherUserId isCaller isVideoCall :
  caught (startConnection callId userId otherUserId isCaller isVideoCall).
Proof.
  unfold startConnection, cleanup. repeat caught_step.
  apply caught_closeWebRTCConnection.
Qed.

Lemma caught_processSignalingMessage m : caught (processSignalingMessage m).
Proof. unfold processSignalingMessage. repeat caught_step. Qed.

(** ** The writes of [rejectCall], [endCall] and [sendSignaling] *)

(** X1. [rejectCall] never reads the record.  When the write goes through,
    the record of [callId] is the stored one (or an empty document, when
    there was none) with status [rejected] and [endedAt] stamped by the
    server, and the result is success; when the write is refused, the
    result is the failure carrying the error's message, or the fixed
    text when the message is empty, and the record is as it was.  No
    other record, and nothing of the service, the device or the
    signaling log, is touched either way. *)
Theorem rejectCall_outcomes callId w :
  let r := exec (rejectCall callId) w in
  let old := calls (db w) !! callId in
  this r.1 = this w ∧ device r.1 = device w
  ∧ signaling (db r.1) = signaling (db w)
  ∧ (∀ id, id ≠ callId → calls (db r.1) !! id = calls (db w) !! id)
  ∧ match (request (db w)).2 with
    | None =>
        r.2 = Normal ok
        ∧ calls (db r.1) !! callId
          = Some (mergeDoc (rejectedPatch (serverTime (db w)))
                    (default emptyDoc old))
    | Some e =>
        r.2 = Normal (failure (message_or e RejectFailed))
        ∧ calls (db r.1) !! callId = old
    end.
Proof.
  intros r old. subst r old. unfold rejectCall, setDoc_merge. exec_simpl.
  pose proof (request_calls (db w)) as Hc.
  pose proof (request_signaling (db w)) as Hs.
  pose proof (request_serverTime (db w)) as Ht.
  destruct (request (db w)) as [fs [e|]]; cbn in Hc, Hs, Ht; exec_simpl.
  - rewrite Hc, Hs. done.
  - unfold commitMerge. cbn [calls signaling]. rewrite Hc, Hs, Ht.
    split_and!; try done.
    + intros id Hne. by rewrite lookup_insert_ne.
    + by rewrite lookup_insert_eq.
Qed.

(** X2. When the write of [endCall] is refused, the method returns the
    failure and stops there: the connection is not closed.  The peer
    connection, the local stream and the signaling subscription stay as
    they were, and the only trace is the console error. *)
Theorem endCall_refused_write_leaves_connection_open callId duration w e :
  (request (db w)).2 = Some e →
  let r := exec (endCall callId duration) w in
  r.2 = Normal (failure (message_or e EndFailed))
  ∧ this r.1 = this w
  ∧ calls (db r.1) = calls (db w)
  ∧ device r.1 = device w
  ∧ trace r.1 = trace w ++ [Console c_error "❌ Error ending call:"].
Proof.
  intros Hreq r. subst r. unfold endCall, setDoc_merge. exec_simpl.
  pose proof (request_calls (db w)) as Hc.
  destruct (request (db w)) as [fs o]; cbn in Hc, Hreq. subst o.
  exec_simpl. rewrite Hc. done.
Qed.

(** The document [sendSignaling] writes: the message with its payload
    copied through JSON, or [null] when the payload is falsy. *)
Definition signalingDoc (m : CallSignaling) : CallSignaling :=
  {| sig_callId := sig_callId m; sig_type := sig_type m;
     sig_from := sig_from m; sig_to := sig_to m;
     sig_data := if payload_truthy (sig_data m) then JSON_copy (sig_data m)
                 else payload_null |}.

Lemma exec_sendSignaling m w :
  exec (sendSignaling m) w
  = match request (db w) with
    | (fs, None) => (set_db (commitSignaling (signalingDoc m) fs) w, Normal ok)
    | (fs, Some e) =>
        (emit (Console c_error "❌ Error sending signaling:") (set_db fs w),
         Normal (failure (message_or e SendFailed)))
    end.
Proof.
  unfold sendSignaling, setDoc_signaling. exec_simpl.
  destruct (request (db w)) as [fs [e|]]; by exec_simpl.
Qed.

(** X3. [sendSignaling] appends exactly one document to the signaling log,
    stamped with the server time, and returns success; when the write
    is refused the log is unchanged and the failure is returned, not
    thrown.  The [calls] collection, the service and the device are
    never touched. *)
Theorem sendSignaling_outcomes m w :
  let r := exec (sendSignaling m) w in
  this r.1 = this w ∧ device r.1 = device w
  ∧ calls (db r.1) = calls (db w)
  ∧ match (request (db w)).2 with
    | None =>
        r.2 = Normal ok
        ∧ signaling (db r.1)
          = signaling (db w) ++ [(signalingDoc m, serverTime (db w))]
        ∧ trace r.1 = trace w
    | Some e =>
        r.2 = Normal (failure (message_or e SendFailed))
        ∧ signaling (db r.1) = signaling (db w)
        ∧ trace r.1 = trace w ++ [Console c_error "❌ Error sending signaling:"]
    end.
Proof.
  intros r. subst r. rewrite exec_sendSignaling.
  pose proof (request_calls (db w)) as Hc.
  pose proof (request_signaling (db w)) as Hs.
  pose proof (request_serverTime (db w)) as Ht.
  destruct (request (db w)) as [fs [e|]]; cbn in Hc, Hs, Ht |- *.
  - rewrite Hc, Hs. done.
  - rewrite Hc, Hs, Ht. done.
Qed.

(** X4. When the read of the record is refused, [acceptCall] returns the
    failure carrying the error's message; nothing is written and no
    connection is started, but [currentCallId] already names the call. *)
Theorem acceptCall_refused_read callId userId w e :
  (request (db w)).2 = Some e →
  let r := exec (acceptCall callId userId) w in
  r.2 = Normal (failure (message_or e AcceptFailed))
  ∧ calls (db r.1) = calls (db w)
  ∧ signaling (db r.1) = signaling (db w)
  ∧ device r.1 = device w
  ∧ this r.1 = set_currentCallId callId (this w)
  ∧ trace r.1 = trace w ++ [Console c_error "❌ Error accepting call:"].
Proof.
  intros Hreq r. subst r. unfold acceptCall, getDoc. exec_simpl.
  pose proof (request_calls (db w)) as Hc.
  pose proof (request_signaling (db w)) as Hs.
  destruct (request (db w)) as [fs o]; cbn in Hc, Hs, Hreq. subst o.
  exec_simpl. rewrite Hc, Hs. done.
Qed.

(** ** More on the dispatch of one signaling message *)

(** Read a field off a world built by the setters. *)
Ltac proj_simpl :=
  cbn [this db device trace emit set_this set_db set_device
       peerConnection localStream remoteStream signalingQueue
       isProcessingSignal isRemoteDescriptionSet pendingCandidates
       onRemoteStreamCallback onLocalStreamCallback signalingUnsubscribe
       currentCallId set_peerConnection set_localStream set_remoteStream
       set_signalingQueue set_isProcessingSignal set_isRemoteDescriptionSet
       set_pendingCandidates set_onRemoteStreamCallback
       set_onLocalStreamCallback set_signalingUnsubscribe set_currentCallId].

(** X5. A [hangup] message is not acted upon: with a peer connection the
    dispatch changes nothing at all (the connection stays open and not
    even a console line is written); without one it logs the
    "not initialized" warning like every other message. *)
Theorem hangup_is_ignored message w :
  sig_type message = hangup →
  exec (processSignalingMessage message) w
  = (match peerConnection (this w) with
     | Some _ => w
     | None => emit (Console c_warn "⚠️ PeerConnection not initialized") w
     end, Normal tt).
Proof.
  intros Hty. unfold processSignalingMessage. exec_simpl.
  destruct (peerConnection (this w)); [|done].
  rewrite Hty. by exec_simpl.
Qed.

(** X6. Once a remote description has been applied, a candidate is handed to
    the peer connection at once and the buffer is left alone; whether
    [addIceCandidate] then succeeds or is rejected, the dispatch ends
    normally with the peer connection in the state the call left it in.
    A payload that does not construct a candidate is logged and
    nothing is handed over. *)
Theorem candidate_applied_at_once message w pc :
  peerConnection (this w) = Some pc →
  sig_type message = ice_candidate →
  isRemoteDescriptionSet (this w) = true →
  let r := exec (processSignalingMessage message) w in
  r.2 = Normal tt ∧ db r.1 = db w ∧ device r.1 = device w
  ∧ match new_RTCIceCandidate (sig_data message) with
    | Normal c =>
        this r.1 = set_peerConnection (Some (addIceCandidate c pc).1) (this w)
        ∧ native_calls (new_events w r.1) = [ev_addIceCandidate c]
    | Abrupt e =>
        r.1 = emit (Console c_error "⚠️ Error adding ICE candidate:") w
    end.
Proof.
  intros Hpc Hty Hset r. subst r. unfold processSignalingMessage.
  exec_simpl. rewrite Hpc, Hty. exec_simpl. rewrite Hset. exec_simpl.
  unfold native_new. exec_simpl. rewrite Hpc.
  destruct (new_RTCIceCandidate (sig_data message)) as [c|e]; exec_simpl;
    [|done].
  destruct (addIceCandidate c pc) as [pc' [[]|e]]; exec_simpl;
    (split_and!; [done|done|done|done|]);
    (erewrite new_events_app; [|by trace_simpl]);
    cbn [app]; by native_calls_simpl.
Qed.

(** X7. The callee's reply.  When an [offer] is applied, the buffered
    candidates are flushed and an answer is created and set as the
    local description, the answer is sent back to the sender of the
    offer, in the name of its addressee and under the same [callId].
    The result of [sendSignaling] is not inspected: when the write is
    refused nothing reaches the signaling log, and the dispatch still
    logs that the answer was sent. *)
Theorem offer_is_answered message w pc sdp pc1 pc2 ans pc3 :
  peerConnection (this w) = Some pc →
  sig_type message = offer →
  new_RTCSessionDescription (sig_data message) = Normal sdp →
  setRemoteDescription sdp pc = (pc1, Normal tt) →
  createAnswer (foldl (λ p c, (addIceCandidate c p).1) pc1
                  (pendingCandidates (this w))) = (pc2, Normal ans) →
  setLocalDescription ans pc2 = (pc3, Normal tt) →
  let w' := (exec (processSignalingMessage message) w).1 in
  let reply := {| sig_callId := sig_callId message; sig_type := answer;
                  sig_from := sig_to message; sig_to := sig_from message;
                  sig_data := description_data ans |} in
  peerConnection (this w') = Some pc3
  ∧ isRemoteDescriptionSet (this w') = true
  ∧ pendingCandidates (this w') = []
  ∧ signaling (db w')
    = signaling (db w)
      ++ match (request (db w)).2 with
         | None => [(signalingDoc reply, serverTime (db w))]
         | Some _ => []
         end
  ∧ last (trace w') = Some (Console c_log "✅ Answer sent").
Proof.
  intros Hpc Hty Hsdp Hrem Hans Hloc w' reply.
  destruct (exec (processSignalingMessage message) w) as [wf cf] eqn:EX.
  subst w'. cbn [fst]. revert EX. unfold processSignalingMessage.
  rewrite exec_bind, exec_gets. cbn [fst snd]. rewrite Hpc.
  rewrite exec_try_catch, Hty.
  rewrite exec_bind, exec_console. cbn [fst snd].
  rewrite exec_bind. unfold native_new at 1. rewrite exec_atomically.
  trace_simpl. rewrite Hpc, Hsdp, Hrem. cbn [fst snd complete].
  rewrite exec_Await, exec_Ret.
  rewrite exec_bind, exec_modify. cbn [fst snd].
  rewrite exec_bind, exec_await.
  match goal with |- context [exec processPendingCandidates ?wf] =>
    destruct (processPendingCandidates_spec wf pc1 eq_refl) as (l & -> & Hl)
  end.
  cbn [this set_this set_isRemoteDescriptionSet set_peerConnection
       pendingCandidates emit] in *.
  unfold native. exec_simpl. rewrite Hans. exec_simpl. rewrite Hloc.
  exec_simpl.
  rewrite exec_sendSignaling. exec_simpl.
  pose proof (request_signaling (db w)) as Hs.
  pose proof (request_serverTime (db w)) as Ht.
  destruct (request (db w)) as [fs [e|]]; cbn [fst snd] in Hs, Ht |- *;
    exec_simpl; intros [= <- <-]; split_and!; proj_simpl;
    rewrite ?last_snoc; try done.
  - by rewrite app_nil_r.
  - cbn [commitSignaling signaling]. by rewrite Hs, Ht.
Qed.

Lemma request_eq fs fs' o :
  request fs = (fs', o) →
  calls fs' = calls fs ∧ signaling fs' = signaling fs
  ∧ serverTime fs' = serverTime fs.
Proof.
  intros Hr.
  pose proof (request_calls fs). pose proof (request_signaling fs).
  pose proof (request_serverTime fs). by rewrite Hr in *.
Qed.

(** What a dispatch leaves alone: the streams, the inbox and its flag,
    the observers, the subscription, [currentCallId], the [calls]
    collection and the device.  It neither creates nor drops the peer
    connection, and it only ever appends to the trace and to the
    signaling log. *)
Definition untouched_by_dispatch (w w' : World) : Prop :=
  localStream (this w') = localStream (this w)
  ∧ remoteStream (this w') = remoteStream (this w)
  ∧ signalingQueue (this w') = signalingQueue (this w)
  ∧ isProcessingSignal (this w') = isProcessingSignal (this w)
  ∧ onRemoteStreamCallback (this w') = onRemoteStreamCallback (this w)
  ∧ onLocalStreamCallback (this w') = onLocalStreamCallback (this w)
  ∧ signalingUnsubscribe (this w') = signalingUnsubscribe (this w)
  ∧ currentCallId (this w') = currentCallId (this w)
  ∧ calls (db w') = calls (db w)
  ∧ device w' = device w
  ∧ (is_Some (peerConnection (this w')) ↔ is_Some (peerConnection (this w)))
  ∧ (∃ l, trace w' = trace w ++ l)
  ∧ (∃ l, signaling (db w') = signaling (db w) ++ l).

#[local] Instance untouched_by_dispatch_preorder :
  PreOrder untouched_by_dispatch.
Proof.
  split.
  - intros w. unfold untouched_by_dispatch.
    split_and!; try done; exists []; by rewrite app_nil_r.
  - intros w1 w2 w3
      (A1 & A2 & A3 & A4 & A5 & A6 & A7 & A8 & A9 & A10 & A11 & [l1 A12]
       & [k1 A13])
      (B1 & B2 & B3 & B4 & B5 & B6 & B7 & B8 & B9 & B10 & B11 & [l2 B12]
       & [k2 B13]).
    unfold untouched_by_dispatch. split_and!; try congruence.
    + by rewrite B11.
    + exists (l1 ++ l2). by rewrite B12, A12, app_assoc.
    + exists (k1 ++ k2). by rewrite B13, A13, app_assoc.
Qed.

Ltac untouched_leaf :=
  repeat match goal with
         | H : request _ = (_, _) |- _ => apply request_eq in H as (? & ? & ?)
         end;
  first
    [ reflexivity
    | apply _
    | unfold untouched_by_dispatch; proj_simpl;
      cbn [commitSignaling calls signaling];
      split_and!;
      first [ done
            | congruence
            | match goal with
              | H : peerConnection _ = Some _ |- _ ↔ _ =>
                  rewrite H; split; eauto
              end
            | by exists []; rewrite app_nil_r
            | by eexists
            | match goal with
              | H : signaling _ = signaling _ |- _ =>
                  rewrite H; first [ by eexists
                                   | by exists []; rewrite app_nil_r ]
              end ] ].

Lemma writes_untouched_processSignalingMessage m :
  writes untouched_by_dispatch (processSignalingMessage m).
Proof.
  unfold processSignalingMessage, processPendingCandidates, sendSignaling,
    native, native_new, read_signalingState, setDoc_signaling.
  repeat writes_step; untouched_leaf.
Qed.

(** X8. The dispatch of a message, whatever its type and whatever the
    engine and the backend answer, leaves the streams, the inbox and
    its flag, the observers, the subscription, [currentCallId], the
    [calls] collection and the device as they were; it neither creates
    nor drops the peer connection, and it only appends to the trace and
    to the signaling log.  The same holds for every single turn of a
    dispatch that is suspended in between. *)
Theorem dispatch_frame m w :
  untouched_by_dispatch w (exec (processSignalingMessage m) w).1
  ∧ untouched_by_dispatch w (resume (processSignalingMessage m) w).1
  ∧ match (resume (processSignalingMessage m) w).2 with
    | Suspended k => ∀ w', untouched_by_dispatch w' (exec k w').1
    | Settled _ => True
    end.
Proof.
  pose proof (writes_untouched_processSignalingMessage m) as Hw.
  split; [exact (writes_exec untouched_by_dispatch _ w Hw)|].
  destruct (writes_resume untouched_by_dispatch _ w Hw) as [H1 H2].
  split; [done|].
  destruct (resume (processSignalingMessage m) w).2; [done|].
  intros w'. by apply (writes_exec untouched_by_dispatch).
Qed.

(** ** [startConnection] when the engine cooperates *)

(** The local media [startConnection] ends up with: the stream of the
    first request, or of the audio-only request when the first is
    rejected (lines 382-396). *)
Definition acquired_media (isVideoCall : bool) (d : Device)
    : Device * Completion MediaStream :=
  match getUserMedia isVideoCall d with
  | (d1, Normal stream) => (d1, Normal stream)
  | (d1, Abrupt _) => getUserMedia false d1
  end.

(** [stream.getTracks().forEach(track => pc.addTrack(track, stream))]:
    the first track that is refused ends the loop. *)
Fixpoint added_tracks (stream : MediaStream) (tracks : list MediaTrack)
    (pc : PeerConn) : PeerConn * Completion unit :=
  match tracks with
  | [] => (pc, Normal tt)
  | t :: ts =>
      match addTrack t stream pc with
      | (pc', Normal _) => added_tracks stream ts pc'
      | (pc', Abrupt e) => (pc', Abrupt e)
      end
  end.

(** The device after the audio session was configured (lines 359-375);
    a failure to configure it is only logged. *)
Definition audio_configured (d : Device) : Device :=
  if platform_is_web then d else (setAudioModeAsync d).1.

Lemma exec_audio_mode w :
  ∃ l,
    exec (when (negb platform_is_web)
            (try_catch
               (Audio_setAudioModeAsync ;;
                console c_log "✅ Audio mode configured")
               (λ e, console c_warn "⚠️ Failed to set audio mode:"))) w
    = ({| this := this w; db := db w; device := audio_configured (device w);
          trace := trace w ++ l |}, Normal tt).
Proof.
  unfold audio_configured. destruct platform_is_web; cbn [negb].
  - rewrite exec_when_false. exists []. rewrite app_nil_r. by destruct w.
  - rewrite exec_when_true. unfold Audio_setAudioModeAsync. exec_simpl.
    destruct (setAudioModeAsync (device w)) as [d0 o]. exec_simpl.
    destruct o as [[]|e]; exec_simpl;
      (eexists; by world_eq_pair).
Qed.

Lemma exec_acquire isVideoCall w d1 stream :
  acquired_media isVideoCall (device w) = (d1, Normal stream) →
  ∃ l,
    exec (try_catch
            (mediaDevices_getUserMedia isVideoCall)
            (λ e,
               console c_error "❌ getUserMedia failed with constraints:" ;;
               fallback ← mediaDevices_getUserMedia false;
               console c_warn "⚠️ Fallback to audio only" ;;
               Ret fallback)) w
    = ({| this := this w; db := db w; device := d1; trace := trace w ++ l |},
       Normal stream).
Proof.
  unfold acquired_media, mediaDevices_getUserMedia. intros Hm. exec_simpl.
  destruct (getUserMedia isVideoCall (device w)) as [d0 [s|e]]; exec_simpl.
  - injection Hm as -> ->. eexists. by world_eq_pair.
  - rewrite Hm. exec_simpl. eexists. by world_eq_pair.
Qed.

Lemma exec_native_sync {A} ev (op : PeerConn → PeerConn * Completion A) w pc :
  peerConnection (this w) = Some pc →
  exec (native_sync ev op) w
  = (emit ev (set_this (set_peerConnection (Some (op pc).1)) w), (op pc).2).
Proof.
  intros Hpc. unfold native_sync. exec_simpl. rewrite Hpc.
  destruct (op pc) as [pc' r]. by exec_simpl.
Qed.

Lemma exec_native {A} ev (op : PeerConn → PeerConn * Completion A) w pc :
  peerConnection (this w) = Some pc →
  exec (native ev op) w
  = (emit ev (set_this (set_peerConnection (Some (op pc).1)) w), (op pc).2).
Proof.
  intros Hpc. unfold native. exec_simpl. rewrite Hpc.
  destruct (op pc) as [pc' r]. by exec_simpl.
Qed.

Lemma exec_addTracks stream tracks w pc pc1 :
  peerConnection (this w) = Some pc →
  added_tracks stream tracks pc = (pc1, Normal tt) →
  exec (forEach tracks (λ track,
          native_sync (ev_addTrack track) (addTrack track stream))) w
  = ({| this := set_peerConnection (Some pc1) (this w); db := db w;
        device := device w; trace := trace w ++ map ev_addTrack tracks |},
     Normal tt).
Proof.
  revert w pc. induction tracks as [|t ts IH]; intros w pc Hpc Hadd.
  - cbn in Hadd. injection Hadd as <-. cbn [forEach map].
    rewrite exec_Ret, app_nil_r. f_equal.
    destruct w as [[] ? ? ?]; cbn in *. by subst.
  - cbn [forEach added_tracks map] in *.
    rewrite exec_bind, (exec_native_sync _ _ w pc Hpc).
    destruct (addTrack t stream pc) as [pc' [[]|e]]; [|done].
    cbn [fst snd].
    erewrite IH; [|reflexivity|exact Hadd]. world_eq_pair.
Qed.

Lemma exec_subscribeToSignalingMessages callId userId w :
  exec (subscribeToSignalingMessages callId userId) w
  = match request (db w) with
    | (fs, None) =>
        (emit (Console c_log "✅ Subscribed to signaling")
           (set_this (set_signalingUnsubscribe (Some (callId, userId)))
              (emit (ev_subscribe (callId, userId)) (set_db fs w))),
         Normal tt)
    | (fs, Some e) =>
        (emit (Console c_error "❌ Error subscribing to signaling:")
           (set_db fs w), Normal tt)
    end.
Proof.
  unfold subscribeToSignalingMessages, onSnapshot_signaling. exec_simpl.
  destruct (request (db w)) as [fs [e|]]; by exec_simpl.
Qed.

(** The common head of [startConnection]: from the guard to the
    registration of the two handlers on the new peer connection. *)
Ltac startConnection_head Hpc Hmedia Hnew Hadd :=
  unfold startConnection;
  rewrite exec_bind, exec_gets; cbn [fst snd]; rewrite Hpc;
  rewrite exec_try_catch, exec_bind, exec_console; cbn [fst snd];
  rewrite exec_bind;
  match goal with |- context [exec (when _ _) ?w0] =>
    let l := fresh "l" in
    destruct (exec_audio_mode w0) as (l & ->)
  end;
  proj_simpl; cbn [fst snd];
  rewrite exec_bind, exec_console; proj_simpl; cbn [fst snd];
  rewrite exec_bind;
  match type of Hmedia with
  | acquired_media ?v _ = (?d, Normal ?s) =>
      match goal with
      | |- context [exec (try_catch (mediaDevices_getUserMedia v) _) ?w0] =>
          let l := fresh "l" in
          destruct (exec_acquire v w0 d s) as (l & ->);
          [proj_simpl; exact Hmedia|]
      end
  end;
  proj_simpl; cbn [fst snd];
  rewrite exec_bind, exec_modify; proj_simpl; cbn [fst snd];
  rewrite exec_bind, exec_gets; proj_simpl; cbn [fst snd];
  rewrite exec_bind;
  match type of Hpc with peerConnection (this ?w) = _ =>
    destruct (onLocalStreamCallback (this w))
  end; exec_simpl;
  unfold construct_peerConnection; exec_simpl; rewrite Hnew; exec_simpl;
  (erewrite exec_addTracks; [|proj_simpl; reflexivity|exact Hadd]);
  exec_simpl; rewrite exec_subscribeToSignalingMessages; proj_simpl.

(** X9. The callee's start.  When a media stream is obtained (at the first
    request or at the audio-only retry), the peer connection is
    constructed and every track is added, [startConnection] completes
    with the stream and the peer connection stored and writes nothing to
    the backend: the callee sends no offer.  The subscription to the
    signaling log is stored when the backend accepts it; when it is
    refused, the error is logged and the connection is still reported
    started, with no subscription behind it. *)
Theorem startConnection_as_callee
    callId userId otherUserId isVideoCall w d1 stream pc0 pc1 :
  peerConnection (this w) = None →
  acquired_media isVideoCall (audio_configured (device w))
  = (d1, Normal stream) →
  new_RTCPeerConnection configuration = Normal pc0 →
  added_tracks stream (getTracks stream) pc0 = (pc1, Normal tt) →
  let r := exec (startConnection callId userId otherUserId false
                   isVideoCall) w in
  r.2 = Normal tt
  ∧ this r.1
    = set_signalingUnsubscribe
        (match (request (db w)).2 with
         | None => Some (callId, userId)
         | Some _ => signalingUnsubscribe (this w)
         end)
        (set_peerConnection (Some pc1)
           (set_localStream (Some stream) (this w)))
  ∧ calls (db r.1) = calls (db w)
  ∧ signaling (db r.1) = signaling (db w)
  ∧ device r.1 = d1
  ∧ last (trace r.1) = Some (Console c_log "✅ WebRTC connection started").
Proof.
  intros Hpc Hmedia Hnew Hadd r. subst r.
  destruct (exec (startConnection callId userId otherUserId false
                    isVideoCall) w) as [wf cf] eqn:EX.
  cbn [fst snd]. revert EX.
  pose proof (request_calls (db w)) as Hc.
  pose proof (request_signaling (db w)) as Hs.
  startConnection_head Hpc Hmedia Hnew Hadd;
    destruct (request (db w)) as [fs [e|]]; cbn [fst snd] in Hc, Hs |- *;
    rewrite exec_bind, exec_when_false; cbn [fst snd];
    rewrite exec_console; cbn [fst snd];
    intros [= <- <-]; split_and!; proj_simpl;
    rewrite ?last_snoc; done.
Qed.

(** X10. The caller's start.  On top of what the callee's start does, an
    offer is created, set as the local description and sent to the
    other party under the call's id.  The result of [sendSignaling] is
    not inspected: when the backend refuses the write, no offer reaches
    the signaling log, and [startConnection] still logs that the offer
    was sent and that the connection started, and keeps the peer
    connection. *)
Theorem startConnection_as_caller
    callId userId otherUserId isVideoCall w d1 stream pc0 pc1 pc2 sdp pc3 :
  peerConnection (this w) = None →
  acquired_media isVideoCall (audio_configured (device w))
  = (d1, Normal stream) →
  new_RTCPeerConnection configuration = Normal pc0 →
  added_tracks stream (getTracks stream) pc0 = (pc1, Normal tt) →
  createOffer isVideoCall pc1 = (pc2, Normal sdp) →
  setLocalDescription sdp pc2 = (pc3, Normal tt) →
  let r := exec (startConnection callId userId otherUserId true
                   isVideoCall) w in
  let sent := {| sig_callId := callId; sig_type := offer;
                 sig_from := userId; sig_to := otherUserId;
                 sig_data := description_data sdp |} in
  r.2 = Normal tt
  ∧ this r.1
    = set_signalingUnsubscribe
        (match (request (db w)).2 with
         | None => Some (callId, userId)
         | Some _ => signalingUnsubscribe (this w)
         end)
        (set_peerConnection (Some pc3)
           (set_localStream (Some stream) (this w)))
  ∧ calls (db r.1) = calls (db w)
  ∧ signaling (db r.1)
    = signaling (db w)
      ++ match (request (request (db w)).1).2 with
         | None => [(signalingDoc sent, serverTime (db w))]
         | Some _ => []
         end
  ∧ device r.1 = d1
  ∧ Console c_log "✅ Offer sent" ∈ trace r.1
  ∧ last (trace r.1) = Some (Console c_log "✅ WebRTC connection started").
Proof.
  intros Hpc Hmedia Hnew Hadd Hoffer Hlocal r sent. subst r sent.
  destruct (exec (startConnection callId userId otherUserId true
                    isVideoCall) w) as [wf cf] eqn:EX.
  cbn [fst snd]. revert EX.
  pose proof (request_calls (db w)) as Hc.
  pose proof (request_signaling (db w)) as Hs.
  pose proof (request_serverTime (db w)) as Ht.
  startConnection_head Hpc Hmedia Hnew Hadd;
    destruct (request (db w)) as [fs [e|]]; cbn [fst snd] in Hc, Hs, Ht |- *;
    pose proof (request_calls fs) as Hc';
    pose proof (request_signaling fs) as Hs';
    pose proof (request_serverTime fs) as Ht';
    rewrite exec_bind, exec_when_true, exec_bind;
    (erewrite exec_native; [|proj_simpl; reflexivity]);
    rewrite Hoffer; cbn [fst snd]; rewrite exec_bind;
    (erewrite exec_native; [|proj_simpl; reflexivity]);
    rewrite Hlocal; cbn [fst snd];
    rewrite exec_bind, exec_await, exec_sendSignaling; proj_simpl;
    destruct (request fs) as [fs' [e'|]]; cbn [fst snd] in Hc', Hs', Ht' |- *;
    rewrite !exec_console; cbn [fst snd];
    intros [= <- <-]; split_and!; proj_simpl;
    cbn [commitSignaling calls signaling];
    rewrite ?last_snoc, ?app_nil_r; try done; try congruence;
    set_solver.
Qed.

(** ** [startConnection] is all or nothing *)

(** What [startConnection] leaves alone on every path, the failure
    handler included. *)
Definition untouched_by_start (w w' : World) : Prop :=
  isProcessingSignal (this w') = isProcessingSignal (this w)
  ∧ onRemoteStreamCallback (this w') = onRemoteStreamCallback (this w)
  ∧ onLocalStreamCallback (this w') = onLocalStreamCallback (this w)
  ∧ currentCallId (this w') = currentCallId (this w)
  ∧ calls (db w') = calls (db w).

#[local] Instance untouched_by_start_preorder : PreOrder untouched_by_start.
Proof.
  split; [by intros w|].
  intros w1 w2 w3 (A1 & A2 & A3 & A4 & A5) (B1 & B2 & B3 & B4 & B5).
  unfold untouched_by_start. split_and!; congruence.
Qed.

(** Once stored, the stream and the peer connection stay stored until
    the teardown. *)
Definition keeps_connection (w w' : World) : Prop :=
  (is_Some (peerConnection (this w)) → is_Some (peerConnection (this w')))
  ∧ (is_Some (localStream (this w)) → is_Some (localStream (this w'))).

#[local] Instance keeps_connection_preorder : PreOrder keeps_connection.
Proof.
  split; [by intros w|].
  intros w1 w2 w3 [A1 A2] [B1 B2]. split; auto.
Qed.

Ltac start_leaf R :=
  repeat match goal with
         | H : request _ = (_, _) |- _ => apply request_eq in H as (? & ? & ?)
         end;
  first [ reflexivity
        | apply _
        | unfold R; proj_simpl; cbn [commitSignaling calls signaling];
          split_and!; first [ done | congruence | by eauto ] ].

Lemma writes_untouched_closeWebRTCConnection callId :
  writes untouched_by_start (closeWebRTCConnection callId).
Proof.
  unfold closeWebRTCConnection.
  repeat writes_step; start_leaf untouched_by_start.
Qed.

Lemma writes_untouched_startConnection
    callId userId otherUserId isCaller isVideoCall :
  writes untouched_by_start
    (startConnection callId userId otherUserId isCaller isVideoCall).
Proof.
  unfold startConnection, cleanup, Audio_setAudioModeAsync,
    mediaDevices_getUserMedia, construct_peerConnection, native_sync,
    subscribeToSignalingMessages, onSnapshot_signaling, native,
    sendSignaling, setDoc_signaling.
  repeat writes_step;
    lazymatch goal with
    | |- writes _ (closeWebRTCConnection _) =>
        apply writes_untouched_closeWebRTCConnection
    | _ => start_leaf untouched_by_start
    end.
Qed.







(** ** [acceptCall] on a ringing call *)

Lemma caught_exec {A} (m : Async A) w :
  caught m → ∃ a, (exec m w).2 = Normal a.
Proof.
  intros Hm. rewrite <- (exec_among_id m 0 w). by apply caught_exec_among.
Qed.

(** X12. When the record is [ringing] and the backend lets the read and the
    write through, [acceptCall] marks the record [answered], stamped
    with the server time, and returns success, whatever becomes of the
    connection it then starts: [startConnection] reports nothing back,
    so the result is success also when the connection could not be set
    up.  No other record is touched and [currentCallId] names the
    call. *)
Theorem acceptCall_ringing callId userId w callData :
  (request (db w)).2 = None →
  (request (request (db w)).1).2 = None →
  calls (db w) !! callId = Some callData →
  status callData = Some ringing →
  let r := exec (acceptCall callId userId) w in
  r.2 = Normal ok
  ∧ calls (db r.1) !! callId
    = Some (mergeDoc (answeredPatch (serverTime (db w))) callData)
  ∧ (∀ id, id ≠ callId → calls (db r.1) !! id = calls (db w) !! id)
  ∧ currentCallId (this r.1) = callId
  ∧ last (trace r.1) = Some (Console c_log "✅ Call accepted").
Proof.
  intros Hr1 Hr2 Hdoc Hst r. subst r. unfold acceptCall, getDoc, setDoc_merge.
  exec_simpl.
  pose proof (request_calls (db w)) as Hc.
  pose proof (request_serverTime (db w)) as Ht.
  destruct (request (db w)) as [fs o]; cbn [fst snd] in Hr1, Hr2, Hc, Ht.
  subst o. exec_simpl. rewrite Hc, Hdoc. exec_simpl.
  rewrite decide_True by done. exec_simpl.
  pose proof (request_calls fs) as Hc'.
  pose proof (request_serverTime fs) as Ht'.
  destruct (request fs) as [fs' o]; cbn [fst snd] in Hr2, Hc', Ht'.
  subst o. exec_simpl.
  match goal with |- context [exec (startConnection ?a ?b ?c ?d ?e) ?w1] =>
    pose proof (writes_exec untouched_by_start _ w1
                  (writes_untouched_startConnection a b c d e)) as Hframe;
    destruct (caught_exec (startConnection a b c d e) w1
                (caught_startConnection a b c d e)) as [[] Hn];
    destruct (exec (startConnection a b c d e) w1) as [w2 c2]
  end.
  cbn [fst snd] in Hframe, Hn. subst c2. exec_simpl.
  destruct Hframe as (_ & _ & _ & Hid & Hcalls).
  revert Hid Hcalls. proj_simpl. cbn [commitMerge calls]. intros Hid Hcalls.
  rewrite Hcalls, Hid, Hc', Hc, Ht', Ht, Hdoc, last_snoc.
  split_and!; try done.
  - by rewrite lookup_insert_eq.
  - intros id Hne. by rewrite lookup_insert_ne.
Qed.

(** X13. When the read goes through and the record is [ringing] but the
    write of [answered] is refused, [acceptCall] returns the failure;
    the record stays [ringing] and no connection is started. *)
Theorem acceptCall_refused_write callId userId w callData e :
  (request (db w)).2 = None →
  (request (request (db w)).1).2 = Some e →
  calls (db w) !! callId = Some callData →
  status callData = Some ringing →
  let r := exec (acceptCall callId userId) w in
  r.2 = Normal (failure (message_or e AcceptFailed))
  ∧ calls (db r.1) = calls (db w)
  ∧ this r.1 = set_currentCallId callId (this w)
  ∧ device r.1 = device w
  ∧ trace r.1 = trace w ++ [Console c_error "❌ Error accepting call:"].
Proof.
  intros Hr1 Hr2 Hdoc Hst r. subst r. unfold acceptCall, getDoc, setDoc_merge.
  exec_simpl.
  pose proof (request_calls (db w)) as Hc.
  destruct (request (db w)) as [fs o]; cbn [fst snd] in Hr1, Hr2, Hc.
  subst o. exec_simpl. rewrite Hc, Hdoc. exec_simpl.
  rewrite decide_True by done. exec_simpl.
  pose proof (request_calls fs) as Hc'.
  destruct (request fs) as [fs' o]; cbn [fst snd] in Hr2, Hc'.
  subst o. exec_simpl. rewrite Hc', Hc. done.
Qed.

(** ** [initiateCall], [sendCallNotification] and [getCallDetails] *)

(** [{ success, callId?, error? }] *)
Record InitiateResult := {
  i_success : bool;
  i_callId : option string;
  i_error : option string;
}.

Definition InitiateFailed : string := "فشل بدء المكالمة".

(** [`call_${Date.now()}_${callerId}`] *)
Definition new_callId (now : N) (callerId : string) : string :=
  "call_" +:+ pretty now +:+ "_" +:+ callerId.

(** [callerPhoto || null]: an absent or empty photo is stored as null,
    which a [CallDoc] renders like an absent field. *)
Definition photo_or_null (callerPhoto : option string) : option string :=
  match callerPhoto with
  | Some p => if decide (p = "") then None else Some p
  | None => None
  end.

(** [{ ...callOffer, createdAt: serverTimestamp() }], lines 69-84. *)
Definition callOffer (callId callerId receiverId : string)
    (type : CallType) (callerName : string) (callerPhoto : option string)
    (t : nat) : CallDoc :=
  {| callId := Some callId; callerId := Some callerId;
     callerName := Some callerName;
     callerPhoto := photo_or_null callerPhoto;
     receiverId := Some receiverId; receiverName := None;
     receiverPhoto := None; callType := Some type;
     status := Some ringing; createdAt := Some t; answeredAt := None;
     endedAt := None; duration := None |}.

Definition commitSet (id : string) (doc : nat → CallDoc) (fs : Firestore)
    : Firestore :=
  {| calls := <[id := doc (serverTime fs)]> (calls fs);
     signaling := signaling fs;
     serverTime := S (serverTime fs);
     faults := faults fs |}.

(** [setDoc(doc(db, 'calls', callId), data)]: without [merge] the
    document is replaced. *)
Definition setDoc (id : string) (doc : nat → CallDoc) : Async unit :=
  atomically (λ w,
    let '(fs, o) := request (db w) in
    match o with
    | Some e => (set_db fs w, Throw e)
    | None => (set_db (commitSet id doc fs) w, Ret tt)
    end).

(** [sendCallNotification], lines 242-263.  [push] is how the promise
    of [sendPushNotification] settles: with [response.success], or
    rejected. *)
Definition sendCallNotification (push : Completion bool) : Async unit :=
  try_catch
    (success ← Await (complete push);
     if (success : bool) then Ret tt
     else console c_warn "⚠️ Failed to send push notification")
    (λ e, console c_error "❌ Error sending call notification:").

(** [initiateCall], lines 58-97.  [now] is the value of [Date.now()]. *)
Definition initiateCall (callerId receiverId : string) (type : CallType)
    (callerName : string) (callerPhoto : option string)
    (now : N) (push : Completion bool) : Async InitiateResult :=
  try_catch
    (let callId := new_callId now callerId in
     modify (set_this (set_currentCallId callId)) ;;
     await (setDoc callId
              (callOffer callId callerId receiverId type callerName
                 callerPhoto)) ;;
     await (sendCallNotification push) ;;
     console c_log "✅ Call initiated:" ;;
     Ret {| i_success := true; i_callId := Some callId; i_error := None |})
    (λ e, console c_error "❌ Error initiating call:" ;;
          Ret {| i_success := false; i_callId := None;
                 i_error := Some (message_or e InitiateFailed) |}).

(** [{ ...data, createdAt: data.createdAt && data.createdAt.toDate
      ? data.createdAt.toDate() : new Date() }] *)
Definition with_createdAt (now : nat) (data : CallDoc) : CallDoc :=
  {| callId := callId data; callerId := callerId data;
     callerName := callerName data; callerPhoto := callerPhoto data;
     receiverId := receiverId data; receiverName := receiverName data;
     receiverPhoto := receiverPhoto data; callType := callType data;
     status := status data;
     createdAt := Some (default now (createdAt data));
     answeredAt := answeredAt data; endedAt := endedAt data;
     duration := duration data |}.

(** [getCallDetails], lines 217-237.  [now] is the time [new Date()]
    reads. *)
Definition getCallDetails (callId : string) (now : nat)
    : Async (option CallDoc) :=
  try_catch
    (callSnap ← await (getDoc callId);
     match callSnap with
     | None => Ret None
     | Some data => Ret (Some (with_createdAt now data))
     end)
    (λ e, console c_error "❌ Error getting call details:" ;; Ret None).

Lemma exec_sendCallNotification push w :
  ∃ l, exec (sendCallNotification push) w
       = ({| this := this w; db := db w; device := device w;
             trace := trace w ++ l |}, Normal tt).
Proof.
  unfold sendCallNotification.
  destruct push as [[]|e]; exec_simpl.
  - exists []. rewrite app_nil_r. by destruct w.
  - eexists. by world_eq_pair.
  - eexists. by world_eq_pair.
Qed.

(** X14. [initiateCall] names the call after the clock and the caller.  When
    the backend accepts the write, the record of that name is replaced
    by a [ringing] offer from the caller to the receiver, stamped with
    the server time, and the result is success with the call's id,
    whether the push notification was delivered, refused or failed.
    When the write is refused, the result is the failure and no record
    is written.  Either way [currentCallId] names the call and nothing
    else of the service, no other record and no signaling document is
    touched. *)
Theorem initiateCall_outcomes
    callerId receiverId type callerName callerPhoto now push w :
  let r := exec (initiateCall callerId receiverId type callerName
                   callerPhoto now push) w in
  let id := new_callId now callerId in
  this r.1 = set_currentCallId id (this w)
  ∧ device r.1 = device w
  ∧ signaling (db r.1) = signaling (db w)
  ∧ (∀ id', id' ≠ id → calls (db r.1) !! id' = calls (db w) !! id')
  ∧ match (request (db w)).2 with
    | None =>
        r.2 = Normal {| i_success := true; i_callId := Some id;
                        i_error := None |}
        ∧ calls (db r.1) !! id
          = Some (callOffer id callerId receiverId type callerName
                    callerPhoto (serverTime (db w)))
    | Some e =>
        r.2 = Normal {| i_success := false; i_callId := None;
                        i_error := Some (message_or e InitiateFailed) |}
        ∧ calls (db r.1) !! id = calls (db w) !! id
    end.
Proof.
  intros r id. subst r id. unfold initiateCall, setDoc. exec_simpl.
  pose proof (request_calls (db w)) as Hc.
  pose proof (request_signaling (db w)) as Hs.
  pose proof (request_serverTime (db w)) as Ht.
  destruct (request (db w)) as [fs [e|]]; cbn [fst snd] in Hc, Hs, Ht;
    exec_simpl.
  - rewrite Hc, Hs. done.
  - match goal with |- context [exec (sendCallNotification push) ?w1] =>
      destruct (exec_sendCallNotification push w1) as (l & ->)
    end.
    exec_simpl. cbn [commitSet calls signaling]. rewrite Hc, Hs, Ht.
    split_and!; try done.
    + intros id' Hne. by rewrite lookup_insert_ne.
    + by rewrite lookup_insert_eq.
Qed.

(** X15. [getCallDetails] writes nothing.  It returns the stored record with
    [createdAt] always present, and [null] both when there is no such
    record and when the read is refused: the caller cannot tell a
    missing call from a backend failure. *)
Theorem getCallDetails_outcomes callId now w :
  let r := exec (getCallDetails callId now) w in
  this r.1 = this w ∧ device r.1 = device w
  ∧ calls (db r.1) = calls (db w)
  ∧ signaling (db r.1) = signaling (db w)
  ∧ r.2 = Normal (match (request (db w)).2 with
                  | None => with_createdAt now <$> calls (db w) !! callId
                  | Some _ => None
                  end).
Proof.
  intros r. subst r. unfold getCallDetails, getDoc. exec_simpl.
  pose proof (request_calls (db w)) as Hc.
  pose proof (request_signaling (db w)) as Hs.
  destruct (request (db w)) as [fs [e|]]; cbn [fst snd] in Hc, Hs;
    exec_simpl; rewrite Hc, ?Hs.
  - done.
  - destruct (calls (db w) !! callId); exec_simpl; by rewrite ?Hc, ?Hs.
Qed.

(** X16. The methods of the service whose body is a [try]/[catch] never
    reject the promise they return: every failure of the backend, of
    the push service, of the media devices or of the WebRTC engine is
    caught inside the method, whatever other turns of the event loop do
    to the service while the method is suspended.
    ([closeWebRTCConnection], lines 640-674, has no [try]/[catch] and
    is not among them.) *)
Theorem CallService_methods_never_reject env n w :
  (∀ caller receiver type name photo now push,
     ∃ r, (exec_among env n
             (initiateCall caller receiver type name photo now push) w).2
          = Normal r)
  ∧ (∀ callId userId,
       ∃ r, (exec_among env n (acceptCall callId userId) w).2 = Normal r)
  ∧ (∀ callId, ∃ r, (exec_among env n (rejectCall callId) w).2 = Normal r)
  ∧ (∀ callId duration,
       ∃ r, (exec_among env n (endCall callId duration) w).2 = Normal r)
  ∧ (∀ callId now,
       ∃ r, (exec_among env n (getCallDetails callId now) w).2 = Normal r)
  ∧ (∀ m, ∃ r, (exec_among env n (sendSignaling m) w).2 = Normal r)
  ∧ (∀ callId userId otherUserId isCaller isVideoCall,
       (exec_among env n
          (startConnection callId userId otherUserId isCaller isVideoCall)
          w).2 = Normal tt)
  ∧ (∀ m, (exec_among env n (processSignalingMessage m) w).2 = Normal tt).
Proof.
  assert (∀ (m : Async unit), caught m →
            (exec_among env n m w).2 = Normal tt) as Hunit.
  { intros m Hm. destruct (caught_exec_among m env n w Hm) as [[] ->]. done. }
  split_and!; intros.
  - apply caught_exec_among. unfold initiateCall. repeat caught_step.
  - apply caught_exec_among. unfold acceptCall. repeat caught_step.
  - apply caught_exec_among. unfold rejectCall. repeat caught_step.
  - apply caught_exec_among. unfold endCall. repeat caught_step.
  - apply caught_exec_among. unfold getCallDetails. repeat caught_step.
  - apply caught_exec_among, caught_sendSignaling.
  - apply Hunit, caught_startConnection.
  - apply Hunit, caught_processSignalingMessage.
Qed.

(** ** From the caller's [initiateCall] to the receiver's ringtone *)

(** X17. The record [initiateCall] stores is one the receiver's listener
    accepts: delivered as an [added] change to a receiver who logged in
    with no call shown, it is surfaced as the manual call, the ringtone
    plays and the 45 s timeout is armed for that call. *)
Theorem initiated_call_rings_at_receiver
    caller receiver type name photo now push w a0 :
  (request (db w)).2 = None →
  state a0 = {| user := None; activeCall := None; manualCall := None |} →
  let r := exec (initiateCall caller receiver type name photo now push) w in
  let id := new_callId now caller in
  ∃ doc,
    calls (db r.1) !! id = Some doc
    ∧ let a1 := docChange added doc (setUser (Some receiver) a0) in
      surfaced doc a1
      ∧ ui a1 = ui a0 ++ [ui_stopAllSounds; ui_playRingtone;
                          ui_setTimeout 45000%N (Some id)]
      ∧ db (backend a1) = db (backend a0).
Proof.
  intros Hreq Hst r id. subst r id.
  exists (callOffer (new_callId now caller) caller receiver type name photo
            (serverTime (db w))).
  split.
  - unfold initiateCall, setDoc. exec_simpl.
    pose proof (request_serverTime (db w)) as Ht.
    destruct (request (db w)) as [fs o]; cbn [fst snd] in Hreq, Ht. subst o.
    exec_simpl.
    match goal with |- context [exec (sendCallNotification push) ?w1] =>
      destruct (exec_sendCallNotification push w1) as (l & ->)
    end.
    exec_simpl. cbn [commitSet calls]. by rewrite lookup_insert_eq, Ht.
  - set (doc := callOffer _ _ _ _ _ _ _).
    set (a := setUser (Some receiver) a0).
    set (l := {| l_uid := receiver; l_activeCall := None;
                 l_manualCall := None |}).
    assert (listener a = Some l) as Hl.
    { subst a l. unfold setUser, manualSubscriptionEffect. cbn.
      by rewrite Hst. }
    assert (docChange added doc a = onIncomingCall l doc a) as ->.
    { unfold docChange. rewrite Hl. subst l doc. cbn [l_uid].
      unfold callOffer at 1 2. cbn [receiverId status].
      by rewrite !bool_decide_true. }
    destruct (onIncomingCall_surface l doc a eq_refl eq_refl)
      as (Hs & Hui & Hdb).
    split_and!; [exact Hs| |].
    + rewrite Hui. subst a doc. unfold setUser, manualSubscriptionEffect.
      cbn. by rewrite <- app_assoc.
    + rewrite Hdb. subst a. unfold setUser, manualSubscriptionEffect.
      by cbn.
Qed.

(** ** The status [missed] *)

(** No record becomes [missed] that was not [missed] before. *)
Definition no_new_missed (w w' : World) : Prop :=
  ∀ id d, calls (db w') !! id = Some d → status d = Some missed →
          ∃ d0, calls (db w) !! id = Some d0 ∧ status d0 = Some missed.

#[local] Instance no_new_missed_preorder : PreOrder no_new_missed.
Proof.
  split.
  - intros w id d ??. eauto.
  - intros w1 w2 w3 H12 H23 id d Hd Hm.
    destruct (H23 id d Hd Hm) as (d2 & Hd2 & Hm2). eauto.
Qed.

Lemma no_new_missed_calls w w' :
  calls (db w') = calls (db w) → no_new_missed w w'.
Proof. intros E id d Hd Hm. rewrite E in Hd. eauto. Qed.

Lemma no_new_missed_insert w w' id0 d0 :
  calls (db w') = <[id0 := d0]> (calls (db w)) →
  status d0 ≠ Some missed → no_new_missed w w'.
Proof.
  intros E Hd0 id d Hd Hm. rewrite E in Hd.
  destruct (decide (id0 = id)) as [->|Hne].
  - rewrite lookup_insert_eq in Hd. congruence.
  - rewrite lookup_insert_ne in Hd by done. eauto.
Qed.

Ltac missed_leaf :=
  repeat match goal with
         | H : request _ = (_, _) |- _ => apply request_eq in H as (? & ? & ?)
         end;
  first
    [ reflexivity
    | apply _
    | apply no_new_missed_calls; proj_simpl;
      cbn [commitSignaling calls]; congruence
    | eapply no_new_missed_insert;
      [ proj_simpl; cbn [commitMerge commitSet calls]; f_equal; congruence
      | done ] ].

(** X18. The status [missed], which the [CallOffer] type declares and the
    provider handles, is never written by the service: after
    [initiateCall], [acceptCall], [rejectCall] or [endCall], whatever
    the backend and the engine answer, a record is [missed] only if it
    was [missed] before. *)
Theorem status_missed_is_never_written w :
  (∀ callerId receiverId type callerName callerPhoto now push,
     no_new_missed w
       (exec (initiateCall callerId receiverId type callerName callerPhoto
                now push) w).1)
  ∧ (∀ callId userId, no_new_missed w (exec (acceptCall callId userId) w).1)
  ∧ (∀ callId, no_new_missed w (exec (rejectCall callId) w).1)
  ∧ (∀ callId duration,
       no_new_missed w (exec (endCall callId duration) w).1).
Proof.
  split_and!; intros; apply (writes_exec no_new_missed).
  - unfold initiateCall, setDoc, sendCallNotification.
    repeat writes_step; missed_leaf.
  - unfold acceptCall, getDoc, setDoc_merge.
    repeat writes_step;
      lazymatch goal with
      | |- writes _ (startConnection _ _ _ _ _) =>
          unfold startConnection, cleanup, closeWebRTCConnection,
            Audio_setAudioModeAsync, mediaDevices_getUserMedia,
            construct_peerConnection, native_sync,
            subscribeToSignalingMessages, onSnapshot_signaling, native,
            sendSignaling, setDoc_signaling;
          repeat writes_step; missed_leaf
      | _ => missed_leaf
      end.
  - unfold rejectCall, setDoc_merge. repeat writes_step; missed_leaf.
  - unfold endCall, setDoc_merge, closeWebRTCConnection.
    repeat writes_step; missed_leaf.
Qed.

(** ** What becomes of the messages the subscription delivers *)

(** X19.  Whatever the signaling subscription delivers is lost, with or
    without a peer connection.  The listener hands the document of
    every [added] change to the handler the prototype binds; none of
    the calls reaches the queue or a dispatch, so the service, the
    backend, the device and the trace are as before the snapshot (not
    even the "not initialized" warning is logged), and what remains of
    each call is one [RangeError] that nobody handles.  Changes of
    another type are ignored. *)
Theorem delivered_messages_are_lost room changes s :
  let st := onSignalingSnapshot room changes (idle s) in
  sched st = s
  ∧ engine_step room st = None
  ∧ stack st = [] ∧ jobs st = [] ∧ parked st = []
  ∧ unhandled st
    = replicate (length (added_messages changes)) RangeError.
Proof.
  intros st. subst st. unfold onSignalingSnapshot, hand_over, idle.
  cbn [stack returned jobs parked unhandled sched].
  rewrite run_hand_over by done. by split_and!.
Qed.

End Properties.

(** * Scenarios on the reference engine *)

Module Scenario.
Import Sim.
#[local] Existing Instance engine.

(** The callee's side of a negotiation: the offer, two candidates, with
    a turn of the event loop in between. *)
Definition callee_schedule : list Occurrence :=
  [Arrive (msg offer (p_sdp offer "offer-sdp"));
   Arrive (msg ice_candidate (p_candidate "c1"));
   Wake 0;
   Arrive (msg ice_candidate (p_candidate "c2"))].

(** Two candidates were buffered before any description arrived. *)
Definition buffering : World :=
  set_this (set_pendingCandidates ["c1"; "c2"]) session0.

(** The record of [call_1] in a given status. *)
Definition call_1 (st : CallStatus) : World → World :=
  with_call "call_1" (with_status st (ringingDoc "call_1" "alice" "bob")).

(** A device that denies the next two media requests. *)
Definition denying : World := set_device [false; false] world0.

Definition logged_out : App :=
  {| state := {| user := None; activeCall := None; manualCall := None |};
     listener := None; backend := world0; ui := [] |}.

End Scenario.

#[local] Existing Instance Sim.engine.

Lemma queue_refines_synchronous_dispatch_witness :
  ∃ n,
    quiescent (run_schedule (Scenario.callee_schedule ++ drain_turns n)
                 {| world := Sim.session0; drains := [] |})
    ∧ world (run_schedule (Scenario.callee_schedule ++ drain_turns n)
               {| world := Sim.session0; drains := [] |})
      = apply_synchronously (arrivals Scenario.callee_schedule) Sim.session0.
Proof.
  exact (proj2 (queue_refines_synchronous_dispatch
                  Sim.session0 Scenario.callee_schedule
                  eq_refl eq_refl eq_refl)).
Defined.

Lemma delivered_offer_is_never_applied_witness :
  let os := [Wake 0; Arrive (Sim.msg offer (Sim.p_sdp offer "offer-sdp"));
             Wake 0; Wake 0] in
  let st := run_bound 3 os (idle {| world := Sim.session0; drains := [] |}) in
  sched st = {| world := Sim.session0; drains := [] |}
  ∧ quiescent (sched st)
  ∧ engine_step 3 st = None
  ∧ unhandled st = [RangeError]
  ∧ isRemoteDescriptionSet (this (world (sched st))) = false
  ∧ isRemoteDescriptionSet
      (this (apply_synchronously (arrivals os) Sim.session0)) = true.
Proof.
  exact (delivered_offer_is_never_applied 3 Sim.session0
           [Wake 0; Arrive (Sim.msg offer (Sim.p_sdp offer "offer-sdp"));
            Wake 0; Wake 0]
           (Sim.msg offer (Sim.p_sdp offer "offer-sdp"))
           Sim.fresh_pc (offer, "offer-sdp")
           {| Sim.sig := have_remote_offer; Sim.remote := Some "offer-sdp";
              Sim.local := None; Sim.candidates := [] |}
           eq_refl eq_refl eq_refl eq_refl eq_refl eq_refl eq_refl eq_refl
           eq_refl).
Defined.

(** A call through the name on an engine with room for two nested
    calls: after ten steps it is over, and what it leaves is one
    unhandled [RangeError]. *)
Lemma bound_call_ends_in_RangeError :
  let s := {| world := Sim.session0; drains := [] |} in
  let call := hand_over [Sim.msg offer (Sim.p_sdp offer "offer-sdp")]
                (idle s) in
  engine_run 2 10 call
  = {| calling := []; stack := []; returned := None; jobs := [];
       parked := []; unhandled := [RangeError]; sched := s |}
  ∧ engine_step 2 (engine_run 2 10 call) = None.
Proof. vm_compute. done. Qed.

(** On the callee's schedule the synchronous reference ends with the
    offer answered and both candidates handed to the peer connection in
    delivery order. *)
Example callee_schedule_reference :
  peerConnection
    (this (apply_synchronously (arrivals Scenario.callee_schedule)
             Sim.session0))
  = Some {| Sim.sig := stable; Sim.remote := Some "offer-sdp";
            Sim.local := Some "answer-sdp";
            Sim.candidates := ["c1"; "c2"] |}.
Proof. vm_compute. reflexivity. Qed.

Lemma candidates_deferred_until_remote_description_witness :
  (exec (processSignalingMessage
           (Sim.msg ice_candidate (Sim.p_candidate "c1"))) Sim.session0).1
  = set_this (λ s, set_pendingCandidates (pendingCandidates s ++ ["c1"]) s)
      (emit (Console c_log
               "⏳ Queueing ICE candidate (waiting for RemoteDescription)")
         Sim.session0)
  ∧ ∃ rest,
      native_calls
        (new_events Scenario.buffering
           (exec (processSignalingMessage
                    (Sim.msg offer (Sim.p_sdp offer "offer-sdp")))
              Scenario.buffering).1)
      = ev_setRemoteDescription (offer, "offer-sdp")
        :: map ev_addIceCandidate ["c1"; "c2"] ++ rest.
Proof.
  split.
  - exact (proj1 (candidates_deferred_until_remote_description
                    (Sim.msg ice_candidate (Sim.p_candidate "c1"))
                    Sim.session0 Sim.fresh_pc eq_refl)
             "c1" eq_refl eq_refl eq_refl).
  - exact (proj2 (proj2 (proj2 (candidates_deferred_until_remote_description
                    (Sim.msg offer (Sim.p_sdp offer "offer-sdp"))
                    Scenario.buffering Sim.fresh_pc eq_refl)
             (offer, "offer-sdp")
             {| Sim.sig := have_remote_offer; Sim.remote := Some "offer-sdp";
                Sim.local := None; Sim.candidates := [] |}
             (or_introl eq_refl) eq_refl eq_refl))).
Defined.

(** Without a peer connection the candidate is neither buffered nor
    applied: the dispatch returns at the guard of line 499. *)
Lemma candidate_without_peer_connection_is_dropped :
  isRemoteDescriptionSet (this Sim.world0) = false
  ∧ exec (processSignalingMessage
            (Sim.msg ice_candidate (Sim.p_candidate "c1"))) Sim.world0
    = (emit (Console c_warn "⚠️ PeerConnection not initialized") Sim.world0,
       Normal tt)
  ∧ pendingCandidates
      (this (exec (processSignalingMessage
                     (Sim.msg ice_candidate (Sim.p_candidate "c1")))
               Sim.world0).1) = [].
Proof. vm_compute. done. Qed.

Lemma acceptCall_not_ringing_witness :
  (exec (acceptCall "call_1" "bob") (Scenario.call_1 answered Sim.world0)).2
  = Normal (failure CallNotActive)
  ∧ calls (db (exec (acceptCall "call_1" "bob")
                 (Scenario.call_1 answered Sim.world0)).1)
    = calls (db (Scenario.call_1 answered Sim.world0))
  ∧ (exec (acceptCall "call_2" "bob") (Scenario.call_1 answered Sim.world0)).2
    = Normal (failure CallNotFound).
Proof.
  destruct (acceptCall_not_ringing "call_1" "bob"
              (Scenario.call_1 answered Sim.world0) eq_refl)
    as (Hr & Hc & _); [vm_compute; discriminate|].
  destruct (acceptCall_not_ringing "call_2" "bob"
              (Scenario.call_1 answered Sim.world0) eq_refl)
    as (Hr' & _); [vm_compute; discriminate|].
  split_and!; [exact Hr|exact Hc|exact Hr'].
Defined.

(** The rejected [acceptCall] has changed the service's local state:
    [currentCallId] now names the call that was not accepted. *)
Lemma acceptCall_failure_sets_currentCallId :
  currentCallId (this (Scenario.call_1 answered Sim.world0)) = ""
  ∧ (exec (acceptCall "call_1" "bob")
       (Scenario.call_1 answered Sim.world0)).2
    = Normal (failure CallNotActive)
  ∧ currentCallId
      (this (exec (acceptCall "call_1" "bob")
               (Scenario.call_1 answered Sim.world0)).1) = "call_1".
Proof. vm_compute. done. Qed.

Lemma answer_applied_only_in_have_local_offer_witness :
  (exec (processSignalingMessage
           (Sim.msg answer (Sim.p_sdp answer "answer-sdp"))) Sim.session0).1
  = emit (Console c_warn "⚠️ Ignoring Answer: signalingState is stable")
      (emit (Console c_log "📨 Received Answer") Sim.session0).
Proof.
  refine (proj1 (answer_applied_only_in_have_local_offer
                   (Sim.msg answer (Sim.p_sdp answer "answer-sdp"))
                   Sim.session0 eq_refl)
            Sim.fresh_pc eq_refl _).
  discriminate.
Defined.

Lemma endCall_and_teardown_twice_witness :
  let w := Scenario.call_1 answered Sim.session0 in
  let r1 := exec (endCall "call_1" (Some 12)) w in
  let r2 := exec (endCall "call_1" (Some 12)) r1.1 in
  r1.2 = Normal ok ∧ r2.2 = Normal ok
  ∧ this r2.1 = this r1.1
  ∧ teardown_actions (new_events r1.1 r2.1) = [].
Proof.
  intros w r1 r2.
  destruct (endCall_and_teardown_twice "call_1" (Some 12) w eq_refl)
    as (H1 & H2 & _ & _ & _ & _ & H3 & H4 & _).
  split_and!; [exact H1|exact H2|exact H3|exact H4].
Defined.

(** [endCall] on a record that is already terminal rewrites it: a
    [rejected] call becomes [ended], and a second [endCall] stamps a
    later [endedAt]. *)
Lemma endCall_overwrites_terminal_record :
  let w := Scenario.call_1 rejected Sim.world0 in
  let r1 := exec (endCall "call_1" None) w in
  let r2 := exec (endCall "call_1" None) r1.1 in
  (calls (db w) !! "call_1" ≫= status) = Some rejected
  ∧ (calls (db r1.1) !! "call_1" ≫= status) = Some ended
  ∧ (calls (db r1.1) !! "call_1" ≫= endedAt) = Some 100
  ∧ (calls (db r2.1) !! "call_1" ≫= endedAt) = Some 101.
Proof. vm_compute. done. Qed.

Lemma at_most_one_dispatch_in_flight_witness :
  let s := run_schedule Scenario.callee_schedule
             {| world := Sim.session0; drains := [] |} in
  (in_flight s ≤ 1)%nat
  ∧ (in_flight s = 1 ↔ isProcessingSignal (this (world s)) = true).
Proof.
  exact (at_most_one_dispatch_in_flight Sim.session0
           Scenario.callee_schedule eq_refl).
Defined.

(** On the callee's schedule a dispatch is indeed in flight, and two
    messages wait behind it. *)
Example callee_schedule_in_flight :
  let s := run_schedule Scenario.callee_schedule
             {| world := Sim.session0; drains := [] |} in
  in_flight s = 1 ∧ length (signalingQueue (this (world s))) = 2.
Proof. vm_compute. done. Qed.

Lemma startConnection_media_failure_witness :
  let r := exec (startConnection "call_1" "bob" "alice" false true)
             Scenario.denying in
  r.2 = Normal tt
  ∧ media_requests (new_events Scenario.denying r.1)
    = [ev_getUserMedia true; ev_getUserMedia false]
  ∧ this r.1 = closed_service (this Scenario.denying)
  ∧ db r.1 = db Scenario.denying.
Proof.
  intros r.
  destruct (startConnection_media_failure "call_1" "bob" "alice" false true
              Scenario.denying [false] Sim.NotAllowed [] Sim.NotAllowed
              eq_refl eq_refl eq_refl)
    as (H1 & H2 & _ & H3 & H4 & _).
  split_and!; [exact H1|exact H2|exact H3|exact H4].
Defined.

(** The caller of [startConnection] sees no failure: [acceptCall] on a
    ringing call, on a device that denies both media requests, marks the
    call answered and returns success, with no peer connection behind
    it. *)
Lemma media_failure_is_reported_as_success :
  let w := Scenario.call_1 ringing Scenario.denying in
  let r := exec (acceptCall "call_1" "bob") w in
  (exec (startConnection "call_1" "bob" "alice" false false) w).2 = Normal tt
  ∧ r.2 = Normal ok
  ∧ (calls (db r.1) !! "call_1" ≫= status) = Some answered
  ∧ peerConnection (this r.1) = None.
Proof. vm_compute. done. Qed.

Lemma startConnection_double_start_guard_witness :
  exec (startConnection "call_1" "bob" "alice" false true) Sim.session0
  = (emit (Console c_warn "⚠️ Call already initialized. Skipping...")
       Sim.session0, Normal tt).
Proof.
  exact (proj2 (startConnection_double_start_guard
                  "call_1" "bob" "alice" false true Sim.session0)).
Defined.

(** Two starts that overlap: an audio call is started, and while it
    waits for the audio mode a video call is started.  Both pass the
    guard; the session is built twice, the second peer connection,
    stream and subscription replacing the first in the fields of the
    service, and no warning is logged.  The teardown that follows stops
    and closes what the fields hold: the first subscription is never
    cancelled, the first stream never stopped, the first peer
    connection never closed. *)
Lemma overlapping_starts_build_two_sessions :
  let w := overlapped (startConnection "call_1" "bob" "alice" false false)
                      (startConnection "call_1" "bob" "alice" false true)
                      Sim.world0 in
  native_calls (trace w)
  = [ev_setAudioMode; ev_setAudioMode;
     ev_getUserMedia false; ev_newPeerConnection; ev_addTrack "audio";
     ev_onicecandidate; ev_ontrack; ev_subscribe ("call_1", "bob");
     ev_getUserMedia true; ev_newPeerConnection; ev_addTrack "audio";
     ev_addTrack "video"; ev_onicecandidate; ev_ontrack;
     ev_subscribe ("call_1", "bob")]
  ∧ warnings (trace w) = []
  ∧ localStream (this w) = Some ["audio"; "video"]
  ∧ native_calls (new_events w (exec cleanup w).1)
    = [ev_unsubscribe ("call_1", "bob"); ev_trackStop "audio";
       ev_trackStop "video"; ev_release; ev_close].
Proof. vm_compute. done. Qed.

Lemma stale_listener_surfaces_second_call_witness :
  let callA := Sim.ringingDoc "call_1" "alice" "bob" in
  let callB := Sim.ringingDoc "call_2" "carol" "bob" in
  let a2 := docChange added callA (setUser (Some "bob") Scenario.logged_out) in
  let a3 := docChange added callB a2 in
  manualCall (state a2) = Some callA
  ∧ isManualBusy (current_listener "bob" a2) callB = true
  ∧ surfaced callB a3
  ∧ ui a3 = ui a2 ++ [ui_playRingtone; ui_setTimeout 45000%N (Some "call_2")]
  ∧ db (backend a3) = db (backend Scenario.logged_out).
Proof.
  refine (stale_listener_surfaces_second_call "bob"
            (Sim.ringingDoc "call_1" "alice" "bob")
            (Sim.ringingDoc "call_2" "carol" "bob")
            Scenario.logged_out
            eq_refl eq_refl eq_refl eq_refl eq_refl _).
  discriminate.
Defined.

(** * More scenarios on the reference engine *)

Module Outage.
Import Sim.
#[local] Existing Instance engine.

Definition Unavailable : JsError := {| message := "unavailable" |}.

(** The backend answers the coming requests as scheduled. *)
Definition scheduled (outcomes : list (option JsError)) (w : World) : World :=
  set_db {| calls := calls (db w); signaling := signaling (db w);
            serverTime := serverTime (db w); faults := outcomes |} w.

(** A callee's session in which the offer has been applied. *)
Definition negotiated : World :=
  set_this (λ s, set_isRemoteDescriptionSet true
                   (set_peerConnection
                      (Some {| sig := have_remote_offer;
                               remote := Some "offer-sdp"; local := None;
                               candidates := [] |}) s)) world0.

End Outage.

Lemma endCall_refused_write_leaves_connection_open_witness :
  let w := Outage.scheduled [Some Outage.Unavailable] Sim.session0 in
  let r := exec (endCall "call_1" (Some 12)) w in
  r.2 = Normal (failure "unavailable")
  ∧ peerConnection (this r.1) = Some Sim.fresh_pc
  ∧ calls (db r.1) = calls (db w).
Proof.
  intros w r.
  destruct (endCall_refused_write_leaves_connection_open
              "call_1" (Some 12) w Outage.Unavailable eq_refl)
    as (H1 & H2 & H3 & _).
  split_and!; [exact H1|exact (f_equal peerConnection H2)|exact H3].
Defined.

Lemma acceptCall_refused_read_witness :
  let w := Outage.scheduled [Some Outage.Unavailable]
             (Scenario.call_1 ringing Sim.world0) in
  let r := exec (acceptCall "call_1" "bob") w in
  r.2 = Normal (failure "unavailable")
  ∧ calls (db r.1) = calls (db w)
  ∧ this r.1 = set_currentCallId "call_1" (this w).
Proof.
  intros w r.
  destruct (acceptCall_refused_read "call_1" "bob" w Outage.Unavailable
              eq_refl) as (H1 & H2 & _ & _ & H3 & _).
  split_and!; [exact H1|exact H2|exact H3].
Defined.

Lemma acceptCall_refused_write_witness :
  let w := Outage.scheduled [None; Some Outage.Unavailable]
             (Scenario.call_1 ringing Sim.world0) in
  let r := exec (acceptCall "call_1" "bob") w in
  r.2 = Normal (failure "unavailable")
  ∧ calls (db r.1) = calls (db w)
  ∧ peerConnection (this r.1) = None.
Proof.
  intros w r.
  destruct (acceptCall_refused_write "call_1" "bob" w
              (Sim.ringingDoc "call_1" "alice" "bob") Outage.Unavailable
              eq_refl eq_refl)
    as (H1 & H2 & H3 & _); [vm_compute; reflexivity|reflexivity|].
  split_and!; [exact H1|exact H2|exact (f_equal peerConnection H3)].
Defined.

Lemma acceptCall_ringing_witness :
  let w := Scenario.call_1 ringing Scenario.denying in
  let r := exec (acceptCall "call_1" "bob") w in
  r.2 = Normal ok
  ∧ calls (db r.1) !! "call_1"
    = Some (mergeDoc (answeredPatch 100)
              (Sim.ringingDoc "call_1" "alice" "bob"))
  ∧ currentCallId (this r.1) = "call_1".
Proof.
  intros w r.
  destruct (acceptCall_ringing "call_1" "bob" w
              (Sim.ringingDoc "call_1" "alice" "bob") eq_refl eq_refl)
    as (H1 & H2 & _ & H3 & _); [vm_compute; reflexivity|reflexivity|].
  split_and!; [exact H1|exact H2|exact H3].
Defined.

Lemma hangup_is_ignored_witness :
  exec (processSignalingMessage (Sim.msg hangup Sim.p_null)) Sim.session0
  = (Sim.session0, Normal tt).
Proof.
  exact (hangup_is_ignored (Sim.msg hangup Sim.p_null) Sim.session0 eq_refl).
Defined.

Lemma candidate_applied_at_once_witness :
  let r := exec (processSignalingMessage
                   (Sim.msg ice_candidate (Sim.p_candidate "c1")))
             Outage.negotiated in
  r.2 = Normal tt
  ∧ peerConnection (this r.1)
    = Some {| Sim.sig := have_remote_offer; Sim.remote := Some "offer-sdp";
              Sim.local := None; Sim.candidates := ["c1"] |}
  ∧ pendingCandidates (this r.1) = [].
Proof.
  intros r.
  destruct (candidate_applied_at_once
              (Sim.msg ice_candidate (Sim.p_candidate "c1"))
              Outage.negotiated _ eq_refl eq_refl eq_refl)
    as (H1 & _ & _ & H2 & _).
  split_and!; [exact H1|exact (f_equal peerConnection H2)
              |exact (f_equal pendingCandidates H2)].
Defined.

Lemma offer_is_answered_witness :
  let w' := (exec (processSignalingMessage
                     (Sim.msg offer (Sim.p_sdp offer "offer-sdp")))
               Scenario.buffering).1 in
  peerConnection (this w')
  = Some {| Sim.sig := stable; Sim.remote := Some "offer-sdp";
            Sim.local := Some "answer-sdp"; Sim.candidates := ["c1"; "c2"] |}
  ∧ signaling (db w')
    = [({| sig_callId := "call_1"; sig_type := answer; sig_from := "bob";
           sig_to := "alice";
           sig_data := Sim.p_sdp answer "answer-sdp" |}, 100)].
Proof.
  intros w'.
  destruct (offer_is_answered
              (Sim.msg offer (Sim.p_sdp offer "offer-sdp"))
              Scenario.buffering Sim.fresh_pc _ _ _ _ _
              eq_refl eq_refl eq_refl eq_refl eq_refl eq_refl)
    as (H1 & _ & _ & H2 & _).
  split; [exact H1|exact H2].
Defined.

Lemma startConnection_as_callee_witness :
  let r := exec (startConnection "call_1" "bob" "alice" false true)
             Sim.world0 in
  r.2 = Normal tt
  ∧ peerConnection (this r.1) = Some Sim.fresh_pc
  ∧ localStream (this r.1) = Some ["audio"; "video"]
  ∧ signalingUnsubscribe (this r.1) = Some ("call_1", "bob")
  ∧ signaling (db r.1) = [].
Proof.
  intros r.
  destruct (startConnection_as_callee "call_1" "bob" "alice" true
              Sim.world0 [] ["audio"; "video"] Sim.fresh_pc Sim.fresh_pc
              eq_refl eq_refl eq_refl eq_refl)
    as (H1 & H2 & _ & H3 & _).
  split_and!; [exact H1|exact (f_equal peerConnection H2)
              |exact (f_equal localStream H2)
              |exact (f_equal signalingUnsubscribe H2)|exact H3].
Defined.

Lemma startConnection_as_caller_witness :
  let w := Outage.scheduled [None; Some Outage.Unavailable] Sim.world0 in
  let r := exec (startConnection "call_1" "alice" "bob" true false) w in
  r.2 = Normal tt
  ∧ peerConnection (this r.1)
    = Some {| Sim.sig := have_local_offer; Sim.remote := None;
              Sim.local := Some "offer-sdp"; Sim.candidates := [] |}
  ∧ signaling (db r.1) = []
  ∧ last (trace r.1) = Some (Console c_log "✅ WebRTC connection started").
Proof.
  intros w r.
  destruct (startConnection_as_caller "call_1" "alice" "bob" false
              w [] ["audio"] Sim.fresh_pc Sim.fresh_pc Sim.fresh_pc
              (offer, "offer-sdp")
              {| Sim.sig := have_local_offer; Sim.remote := None;
                 Sim.local := Some "offer-sdp"; Sim.candidates := [] |}
              eq_refl eq_refl eq_refl eq_refl eq_refl eq_refl)
    as (H1 & H2 & _ & H3 & _ & _ & H4).
  split_and!; [exact H1|exact (f_equal peerConnection H2)|exact H3|exact H4].
Defined.


Lemma initiated_call_rings_at_receiver_witness :
  let r := exec (initiateCall "alice" "bob" voice "Alice" None 1700000000000
                   (Normal true)) Sim.world0 in
  ∃ doc,
    calls (db r.1) !! "call_1700000000000_alice" = Some doc
    ∧ surfaced doc
        (docChange added doc (setUser (Some "bob") Scenario.logged_out))
    ∧ ui (docChange added doc (setUser (Some "bob") Scenario.logged_out))
      = [ui_stopAllSounds; ui_playRingtone;
         ui_setTimeout 45000%N (Some "call_1700000000000_alice")].
Proof.
  intros r.
  destruct (initiated_call_rings_at_receiver "alice" "bob" voice "Alice"
              None 1700000000000 (Normal true) Sim.world0
              Scenario.logged_out eq_refl eq_refl)
    as (doc & H1 & H2 & H3 & _).
  exists doc. split_and!; [exact H1|exact H2|exact H3].
Defined.

(** * [SoundService] (services/SoundService.ts)

    The ringtone, the waiting tone and the two jingles the provider
    plays.  The [Audio.Sound] objects and the audio session are
    external and taken as an interface.  Every method is an [async]
    body; here each is run to its end, one after the other: what two
    calls do when their [await]s interleave is outside this model. *)
Module Sound.

Inductive Asset := ringtone_mp3 | outgoing_mp3 | end_mp3 | connected_mp3.

(** The two arguments [configureAudioMode] passes to
    [Audio.setAudioModeAsync]. *)
Inductive AudioMode := android_do_not_mix | ios_do_not_mix.

Class Player : Type := {
  Snd : Type;                       (* state of one [Audio.Sound] *)
  Session : Type;                   (* the audio session *)
  platform_is_android : bool;
  new_Sound : Completion Snd;
  loadAsync : Asset → Snd → Snd * Completion unit;
  stopAsync : Snd → Snd * Completion unit;
  setIsLoopingAsync : bool → Snd → Snd * Completion unit;
  playAsync : Snd → Snd * Completion unit;
  unloadAsync : Snd → Snd * Completion unit;
  setAudioModeAsync : AudioMode → Session → Session * Completion unit;
}.

(** The four sound fields. *)
Inductive Slot := ringtoneSound | outgoingSound | endSound | connectedSound.

#[global] Instance Slot_eq_dec : EqDecision Slot.
Proof. solve_decision. Defined.

Inductive Call :=
| c_new (s : Slot)
| c_load (s : Slot) (a : Asset)
| c_stop (s : Slot)
| c_loop (s : Slot) (on : bool)
| c_play (s : Slot)
| c_unload (s : Slot)
| c_setAudioMode (m : AudioMode)
| c_console (l : Level) (text : string).

Section Service.
Context `{Player}.

(** The fields of [class SoundService]. *)
Record SoundService := {
  sounds : Slot → option Snd;
  isRingtoneActive : bool;
  isOutgoingActive : bool;
}.

Definition newSoundService : SoundService :=
  {| sounds := λ _, None; isRingtoneActive := false;
     isOutgoingActive := false |}.

Record World := {
  this : SoundService;
  session : Session;
  calls : list Call;
}.

Definition set_sound (s : Slot) (v : option Snd) (w : World) : World :=
  {| this := {| sounds := λ s', if decide (s' = s) then v
                                else sounds (this w) s';
                isRingtoneActive := isRingtoneActive (this w);
                isOutgoingActive := isOutgoingActive (this w) |};
     session := session w; calls := calls w |}.

Definition set_isRingtoneActive (b : bool) (w : World) : World :=
  {| this := {| sounds := sounds (this w); isRingtoneActive := b;
                isOutgoingActive := isOutgoingActive (this w) |};
     session := session w; calls := calls w |}.

Definition set_isOutgoingActive (b : bool) (w : World) : World :=
  {| this := {| sounds := sounds (this w);
                isRingtoneActive := isRingtoneActive (this w);
                isOutgoingActive := b |};
     session := session w; calls := calls w |}.

Definition emit (c : Call) (w : World) : World :=
  {| this := this w; session := session w; calls := calls w ++ [c] |}.

(** A body run to its end: the world it leaves and how it completes. *)
Definition Run (A : Type) : Type := World → World * Completion A.

#[global] Instance Run_ret : MRet Run := λ A a w, (w, Normal a).
#[global] Instance Run_bind : MBind Run := λ A B f m w,
  match m w with
  | (w', Normal a) => f a w'
  | (w', Abrupt e) => (w', Abrupt e)
  end.

Definition try_catch {A} (m : Run A) (h : JsError → Run A) : Run A :=
  λ w, match m w with
       | (w', Normal a) => (w', Normal a)
       | (w', Abrupt e) => h e w'
       end.

Definition throw {A} (e : JsError) : Run A := λ w, (w, Abrupt e).
Definition gets {A} (f : World → A) : Run A := λ w, (w, Normal (f w)).
Definition modify (f : World → World) : Run unit := λ w, (f w, Normal tt).
Definition console (l : Level) (text : string) : Run unit :=
  modify (emit (c_console l text)).
Definition when (b : bool) (m : Run unit) : Run unit :=
  if b then m else mret tt.

(** [this.slot = new Audio.Sound()] *)
Definition construct (s : Slot) : Run unit :=
  modify (emit (c_new s)) ;;
  match new_Sound with
  | Normal snd => modify (set_sound s (Some snd))
  | Abrupt e => throw e
  end.

(** [await this.slot.op(..)]: a [TypeError] when the field is null. *)
Definition method (s : Slot) (c : Call) (op : Snd → Snd * Completion unit)
    : Run unit :=
  λ w, match sounds (this w) s with
       | None => (w, Abrupt TypeError)
       | Some snd =>
           let '(snd', r) := op snd in
           (emit c (set_sound s (Some snd') w), r)
       end.

(** [await this.slot?.op(..)]: nothing happens when the field is null. *)
Definition method_opt (s : Slot) (c : Call)
    (op : Snd → Snd * Completion unit) : Run unit :=
  λ w, match sounds (this w) s with
       | None => (w, Normal tt)
       | Some snd =>
           let '(snd', r) := op snd in
           (emit c (set_sound s (Some snd') w), r)
       end.

Definition is_null (s : Slot) : Run bool :=
  gets (λ w, bool_decide (sounds (this w) s = None)).

(** [loadSounds], lines 15-51. *)
Definition loadSounds : Run unit :=
  try_catch
    (construct ringtoneSound ;;
     construct outgoingSound ;;
     construct endSound ;;
     construct connectedSound ;;
     try_catch
       (method ringtoneSound (c_load ringtoneSound ringtone_mp3)
          (loadAsync ringtone_mp3))
       (λ e, console c_warn "⚠️ Ringtone sound not found, using default") ;;
     try_catch
       (method outgoingSound (c_load outgoingSound outgoing_mp3)
          (loadAsync outgoing_mp3))
       (λ e, console c_warn "⚠️ Outgoing sound not found, using default") ;;
     try_catch
       (method endSound (c_load endSound end_mp3) (loadAsync end_mp3))
       (λ e, console c_warn "⚠️ End sound not found, using default") ;;
     try_catch
       (method connectedSound (c_load connectedSound connected_mp3)
          (loadAsync connected_mp3))
       (λ e, console c_warn "⚠️ Connected sound not found, using default") ;;
     console c_log "✅ Sounds loaded")
    (λ e, console c_error "❌ Error loading sounds:").

(** [configureAudioMode], lines 56-77. *)
Definition configureAudioMode : Run unit :=
  try_catch
    (let mode := if platform_is_android then android_do_not_mix
                 else ios_do_not_mix in
     λ w, let '(ses, r) := setAudioModeAsync mode (session w) in
          ({| this := this w; session := ses;
              calls := calls w ++ [c_setAudioMode mode] |}, r))
    (λ e, console c_error "❌ Error configuring audio mode:").

(** [stopRingtone], lines 99-110. *)
Definition stopRingtone : Run unit :=
  try_catch
    (null ← is_null ringtoneSound;
     when (negb null)
       (method ringtoneSound (c_stop ringtoneSound) stopAsync ;;
        method ringtoneSound (c_loop ringtoneSound false)
          (setIsLoopingAsync false)) ;;
     modify (set_isRingtoneActive false) ;;
     console c_log "✅ Ringtone stopped")
    (λ e, console c_error "❌ Error stopping ringtone:").

(** [stopOutgoing], lines 132-143. *)
Definition stopOutgoing : Run unit :=
  try_catch
    (null ← is_null outgoingSound;
     when (negb null)
       (method outgoingSound (c_stop outgoingSound) stopAsync ;;
        method outgoingSound (c_loop outgoingSound false)
          (setIsLoopingAsync false)) ;;
     modify (set_isOutgoingActive false) ;;
     console c_log "✅ Outgoing sound stopped")
    (λ e, console c_error "❌ Error stopping outgoing sound:").

(** [playRingtone], lines 79-97. *)
Definition playRingtone : Run unit :=
  try_catch
    (null ← is_null ringtoneSound;
     when null loadSounds ;;
     stopOutgoing ;;
     configureAudioMode ;;
     method_opt ringtoneSound (c_loop ringtoneSound true)
       (setIsLoopingAsync true) ;;
     method_opt ringtoneSound (c_play ringtoneSound) playAsync ;;
     modify (set_isRingtoneActive true) ;;
     console c_log "✅ Ringtone playing")
    (λ e, console c_error "❌ Error playing ringtone:").

(** [playOutgoing], lines 112-130. *)
Definition playOutgoing : Run unit :=
  try_catch
    (null ← is_null outgoingSound;
     when null loadSounds ;;
     stopRingtone ;;
     configureAudioMode ;;
     method_opt outgoingSound (c_loop outgoingSound true)
       (setIsLoopingAsync true) ;;
     method_opt outgoingSound (c_play outgoingSound) playAsync ;;
     modify (set_isOutgoingActive true) ;;
     console c_log "✅ Outgoing sound playing")
    (λ e, console c_error "❌ Error playing outgoing sound:").

(** [playConnected], lines 145-162. *)
Definition playConnected : Run unit :=
  try_catch
    (null ← is_null connectedSound;
     when null loadSounds ;;
     stopRingtone ;;
     stopOutgoing ;;
     configureAudioMode ;;
     method_opt connectedSound (c_play connectedSound) playAsync ;;
     console c_log "✅ Connected sound playing")
    (λ e, console c_error "❌ Error playing connected sound:").

(** [playEndSound], lines 164-181. *)
Definition playEndSound : Run unit :=
  try_catch
    (null ← is_null endSound;
     when null loadSounds ;;
     stopRingtone ;;
     stopOutgoing ;;
     configureAudioMode ;;
     method_opt endSound (c_play endSound) playAsync ;;
     console c_log "✅ End sound playing")
    (λ e, console c_error "❌ Error playing end sound:").

(** [stopAllSounds], lines 183-200. *)
Definition stopAllSounds : Run unit :=
  try_catch
    (stopRingtone ;;
     stopOutgoing ;;
     null ← is_null connectedSound;
     when (negb null) (method connectedSound (c_stop connectedSound) stopAsync) ;;
     null ← is_null endSound;
     when (negb null) (method endSound (c_stop endSound) stopAsync) ;;
     console c_log "✅ All sounds stopped")
    (λ e, console c_error "❌ Error stopping all sounds:").

(** [unloadSounds], lines 202-218. *)
Definition unloadSounds : Run unit :=
  try_catch
    (method_opt ringtoneSound (c_unload ringtoneSound) unloadAsync ;;
     method_opt outgoingSound (c_unload outgoingSound) unloadAsync ;;
     method_opt endSound (c_unload endSound) unloadAsync ;;
     method_opt connectedSound (c_unload connectedSound) unloadAsync ;;
     modify (set_sound ringtoneSound None) ;;
     modify (set_sound outgoingSound None) ;;
     modify (set_sound endSound None) ;;
     modify (set_sound connectedSound None) ;;
     console c_log "✅ Sounds unloaded")
    (λ e, console c_error "❌ Error unloading sounds:").

(** [isRingtonePlayingNow] and [isOutgoingPlayingNow], lines 220-226. *)
Definition isRingtonePlayingNow (w : World) : bool :=
  isRingtoneActive (this w).
Definition isOutgoingPlayingNow (w : World) : bool :=
  isOutgoingActive (this w).

End Service.

Section Facts.
Context `{Player}.

(** ** What a body leaves alone *)

Definition keeps {A X} (π : World → X) (m : Run A) : Prop :=
  ∀ w, π (m w).1 = π w.

Lemma keeps_bind {A B X} (π : World → X) (m : Run A) (f : A → Run B) :
  keeps π m → (∀ a, keeps π (f a)) → keeps π (m ≫= f).
Proof.
  intros Hm Hf w. unfold mbind, Run_bind. specialize (Hm w).
  destruct (m w) as [w1 [a|e]]; cbn in *; [|done].
  by rewrite Hf.
Qed.

Lemma keeps_try_catch {A X} (π : World → X) (m : Run A) h :
  keeps π m → (∀ e, keeps π (h e)) → keeps π (try_catch m h).
Proof.
  intros Hm Hh w. unfold try_catch. specialize (Hm w).
  destruct (m w) as [w1 [a|e]]; cbn in *; [done|].
  by rewrite Hh.
Qed.

Lemma keeps_when {X} (π : World → X) b m : keeps π m → keeps π (when b m).
Proof. by destruct b. Qed.

Lemma keeps_modify {X} (π : World → X) f :
  (∀ w, π (f w) = π w) → keeps π (modify f).
Proof. intros Hf w. apply Hf. Qed.

Lemma keeps_gets {A X} (π : World → X) (f : World → A) : keeps π (gets f).
Proof. by intros w. Qed.

Lemma keeps_ret {A X} (π : World → X) (a : A) : keeps π (mret a : Run A).
Proof. by intros w. Qed.

Lemma keeps_throw {A X} (π : World → X) e : keeps π (throw e : Run A).
Proof. by intros w. Qed.

Lemma keeps_method {X} (π : World → X) s c op :
  (∀ w v, π (emit c (set_sound s v w)) = π w) → keeps π (method s c op).
Proof.
  intros Hπ w. unfold method. destruct (sounds (this w) s); [|done].
  destruct (op _) as [snd' r]. apply Hπ.
Qed.

Lemma keeps_method_opt {X} (π : World → X) s c op :
  (∀ w v, π (emit c (set_sound s v w)) = π w) → keeps π (method_opt s c op).
Proof.
  intros Hπ w. unfold method_opt. destruct (sounds (this w) s); [|done].
  destruct (op _) as [snd' r]. apply Hπ.
Qed.

Ltac keeps_step :=
  match goal with
  | |- keeps _ (try_catch _ _) => apply keeps_try_catch; [|intros ?]
  | |- keeps _ (_ ≫= _) => apply keeps_bind; [|intros ?]
  | |- keeps _ (when _ _) => apply keeps_when
  | |- keeps _ (console _ _) => apply keeps_modify; intros ?; reflexivity
  | |- keeps _ (modify _) => apply keeps_modify; intros ?; reflexivity
  | |- keeps _ (is_null _) => apply keeps_gets
  | |- keeps _ (gets _) => apply keeps_gets
  | |- keeps _ (mret _) => apply keeps_ret
  | |- keeps _ (throw _) => apply keeps_throw
  | |- keeps _ (method _ _ _) => apply keeps_method; intros ??; reflexivity
  | |- keeps _ (method_opt _ _ _) =>
      apply keeps_method_opt; intros ??; reflexivity
  | |- keeps _ (construct _) => unfold construct
  | |- keeps _ (match ?x with _ => _ end) => destruct x
  | |- keeps _ (λ w, let '(_, _) := _ in _) =>
      let w := fresh in intros w; cbn;
      match goal with |- context [let '(_, _) := ?x in _] => by destruct x end
  end.

Definition flags (w : World) : bool * bool :=
  (isRingtoneActive (this w), isOutgoingActive (this w)).

Lemma keeps_flags_loadSounds : keeps flags loadSounds.
Proof. unfold loadSounds. repeat keeps_step. Qed.

Lemma keeps_flags_configureAudioMode : keeps flags configureAudioMode.
Proof. unfold configureAudioMode. repeat keeps_step. Qed.

Lemma keeps_flags_unloadSounds : keeps flags unloadSounds.
Proof. unfold unloadSounds. repeat keeps_step. Qed.

(** ** Bodies that end normally *)

Lemma try_catch_console (m : Run unit) l text w :
  (try_catch m (λ e, console l text) w).2 = Normal tt.
Proof.
  unfold try_catch. destruct (m w) as [w1 [[]|e]]; reflexivity.
Qed.


(** ** Stopping a tone *)

(** What [stopRingtone] and [stopOutgoing] do to a flag: it is lowered
    when the sound was never created, or when both [stopAsync] and
    [setIsLoopingAsync(false)] resolve; when either is rejected the
    flag keeps its value. *)
Definition after_stop (s : Slot) (flag : bool) (w : World) : bool :=
  match sounds (this w) s with
  | None => false
  | Some snd =>
      match stopAsync snd with
      | (snd1, Normal _) =>
          match (setIsLoopingAsync false snd1).2 with
          | Normal _ => false
          | Abrupt _ => flag
          end
      | (_, Abrupt _) => flag
      end
  end.

Lemma stopRingtone_flags w :
  (stopRingtone w).2 = Normal tt
  ∧ flags (stopRingtone w).1
    = (after_stop ringtoneSound (isRingtoneActive (this w)) w,
       isOutgoingActive (this w)).
Proof.
  split; [apply try_catch_console|].
  unfold stopRingtone, after_stop, try_catch, is_null, gets, method, when,
    console, modify, mbind, Run_bind, mret, Run_ret.
  destruct (sounds (this w) ringtoneSound) as [snd|] eqn:E.
  - rewrite bool_decide_false by done. cbn [negb]. rewrite E.
    destruct (stopAsync snd) as [snd1 [[]|e]]; cbn; [|done].
    rewrite decide_True by done.
    by destruct (setIsLoopingAsync false snd1) as [snd2 [[]|e]].
  - by rewrite bool_decide_true.
Qed.

Lemma stopOutgoing_flags w :
  (stopOutgoing w).2 = Normal tt
  ∧ flags (stopOutgoing w).1
    = (isRingtoneActive (this w),
       after_stop outgoingSound (isOutgoingActive (this w)) w).
Proof.
  split; [apply try_catch_console|].
  unfold stopOutgoing, after_stop, try_catch, is_null, gets, method, when,
    console, modify, mbind, Run_bind, mret, Run_ret.
  destruct (sounds (this w) outgoingSound) as [snd|] eqn:E.
  - rewrite bool_decide_false by done. cbn [negb]. rewrite E.
    destruct (stopAsync snd) as [snd1 [[]|e]]; cbn; [|done].
    rewrite decide_True by done.
    by destruct (setIsLoopingAsync false snd1) as [snd2 [[]|e]].
  - by rewrite bool_decide_true.
Qed.

(** X20. [stopRingtone] never throws and never touches the waiting tone's
    flag.  It lowers [isRingtoneActive] when there is no ringtone
    object or when the player stopped it; when the player rejects
    [stopAsync] or [setIsLoopingAsync(false)], the error is logged and
    [isRingtonePlayingNow()] keeps answering what it answered before. *)
Theorem stopRingtone_outcomes w :
  let r := stopRingtone w in
  r.2 = Normal tt
  ∧ isOutgoingPlayingNow r.1 = isOutgoingPlayingNow w
  ∧ isRingtonePlayingNow r.1
    = after_stop ringtoneSound (isRingtonePlayingNow w) w.
Proof.
  intros r. subst r. destruct (stopRingtone_flags w) as [Hn Hf].
  unfold flags in Hf. injection Hf as Hr Ho. done.
Qed.

(** ** The two tones exclude each other *)

Lemma run_bind {A B} (m : Run A) (f : A → Run B) w :
  (m ≫= f) w = match m w with
               | (w', Normal a) => f a w'
               | (w', Abrupt e) => (w', Abrupt e)
               end.
Proof. reflexivity. Qed.

Lemma loadSounds_normal w : (loadSounds w).2 = Normal tt.
Proof. unfold loadSounds. apply try_catch_console. Qed.

Lemma when_loadSounds b w :
  ∃ w0, when b loadSounds w = (w0, Normal tt) ∧ flags w0 = flags w.
Proof.
  destruct b; unfold when; [|exists w; split; reflexivity].
  exists (loadSounds w).1. split; [|apply keeps_flags_loadSounds].
  pose proof (loadSounds_normal w) as Hn.
  destruct (loadSounds w) as [w0 c]. cbn in *. by subst.
Qed.

(** The flags after a body [prefix ;; rest] run under a handler that
    only logs, when the prefix ends normally. *)
Lemma after_prefix {X} (π : World → X) (rest : Run unit) l text w1 :
  (∀ c w, π (emit c w) = π w) → keeps π rest →
  π (match rest w1 with
     | (w', Normal a) => (w', Normal a)
     | (w', Abrupt e) => console l text w'
     end).1 = π w1.
Proof.
  intros Hπ Hk. specialize (Hk w1).
  destruct (rest w1) as [w2 [[]|e]]; cbn in *; [done|].
  by rewrite Hπ.
Qed.

Definition ringtone_flag (w : World) : bool := isRingtoneActive (this w).
Definition outgoing_flag (w : World) : bool := isOutgoingActive (this w).

Lemma playRingtone_outgoing w :
  ∃ w0, flags w0 = flags w
        ∧ isOutgoingActive (this (playRingtone w).1)
          = after_stop outgoingSound (isOutgoingActive (this w)) w0.
Proof.
  unfold playRingtone. unfold try_catch at 1.
  rewrite run_bind. unfold is_null at 1, gets at 1. cbn beta iota.
  rewrite run_bind.
  destruct (when_loadSounds
              (bool_decide (sounds (this w) ringtoneSound = None)) w)
    as (w0 & -> & Hw0).
  exists w0. split; [done|]. cbn beta iota. rewrite run_bind.
  destruct (stopOutgoing_flags w0) as [Hn Hf].
  destruct (stopOutgoing w0) as [w1 c1]. cbn [fst snd] in Hn, Hf. subst c1.
  cbn beta iota.
  change (isOutgoingActive (this ?x)) with (outgoing_flag x).
  rewrite (after_prefix outgoing_flag); [|done|].
  - unfold flags in Hf, Hw0. injection Hf as _ Hf. injection Hw0 as _ Hw0.
    unfold outgoing_flag. by rewrite Hf, Hw0.
  - pose proof keeps_flags_configureAudioMode as Hc.
    apply keeps_bind; [intros w'; specialize (Hc w'); unfold flags in Hc;
                       by injection Hc|intros ?].
    repeat keeps_step.
Qed.

Lemma playOutgoing_ringtone w :
  ∃ w0, flags w0 = flags w
        ∧ isRingtoneActive (this (playOutgoing w).1)
          = after_stop ringtoneSound (isRingtoneActive (this w)) w0.
Proof.
  unfold playOutgoing. unfold try_catch at 1.
  rewrite run_bind. unfold is_null at 1, gets at 1. cbn beta iota.
  rewrite run_bind.
  destruct (when_loadSounds
              (bool_decide (sounds (this w) outgoingSound = None)) w)
    as (w0 & -> & Hw0).
  exists w0. split; [done|]. cbn beta iota. rewrite run_bind.
  destruct (stopRingtone_flags w0) as [Hn Hf].
  destruct (stopRingtone w0) as [w1 c1]. cbn [fst snd] in Hn, Hf. subst c1.
  cbn beta iota.
  change (isRingtoneActive (this ?x)) with (ringtone_flag x).
  rewrite (after_prefix ringtone_flag); [|done|].
  - unfold flags in Hf, Hw0. injection Hf as Hf _. injection Hw0 as Hw0 _.
    unfold ringtone_flag. by rewrite Hf, Hw0.
  - pose proof keeps_flags_configureAudioMode as Hc.
    apply keeps_bind; [intros w'; specialize (Hc w'); unfold flags in Hc;
                       by injection Hc|intros ?].
    repeat keeps_step.
Qed.

(** The player stops a sound whenever it is asked to. *)
Definition reliable_stop : Prop :=
  ∀ snd, (stopAsync snd).2 = Normal tt
         ∧ (setIsLoopingAsync false snd).2 = Normal tt.

Lemma reliable_after_stop s flag w :
  reliable_stop → after_stop s flag w = false.
Proof.
  intros Hr. unfold after_stop. destruct (sounds (this w) s) as [snd|]; [|done].
  destruct (Hr snd) as [H1 _].
  destruct (stopAsync snd) as [snd1 c]. cbn in H1. subst c.
  destruct (Hr snd1) as [_ H2]. by rewrite H2.
Qed.

(** Both tones are down after a body that stops the ringtone, stops
    the waiting tone and then leaves the flags alone. *)
Lemma both_stopped (rest : Run unit) l text w :
  reliable_stop → keeps flags rest →
  flags (try_catch (stopRingtone ;; stopOutgoing ;; rest)
           (λ e, console l text) w).1 = (false, false).
Proof.
  intros Hr Hk. unfold try_catch. rewrite run_bind.
  destruct (stopRingtone_flags w) as [Hn Hf].
  destruct (stopRingtone w) as [w1 c1]. cbn [fst snd] in Hn, Hf. subst c1.
  cbn beta iota. rewrite run_bind.
  destruct (stopOutgoing_flags w1) as [Hn' Hf'].
  destruct (stopOutgoing w1) as [w2 c2]. cbn [fst snd] in Hn', Hf'. subst c2.
  cbn beta iota. rewrite (after_prefix flags); [|done|done].
  rewrite Hf'. unfold flags in Hf. injection Hf as Hf1 Hf2.
  by rewrite Hf1, !reliable_after_stop.
Qed.

Lemma both_stopped_after_load s (rest : Run unit) l text w :
  reliable_stop → keeps flags rest →
  flags (try_catch
           (null ← is_null s;
            when null loadSounds ;;
            stopRingtone ;; stopOutgoing ;; rest)
           (λ e, console l text) w).1 = (false, false).
Proof.
  intros Hr Hk. unfold try_catch.
  rewrite run_bind. unfold is_null at 1, gets at 1. cbn beta iota.
  rewrite run_bind.
  destruct (when_loadSounds (bool_decide (sounds (this w) s = None)) w)
    as (w0 & -> & Hw0).
  cbn beta iota.
  exact (both_stopped rest l text w0 Hr Hk).
Qed.

(** X21. With a player that stops a sound whenever it is asked to, the two
    looping tones exclude each other: after [playRingtone] the waiting
    tone is marked stopped, and after [playOutgoing] the ringtone is,
    whatever else fails on the way; after [playConnected],
    [playEndSound] and [stopAllSounds] both are marked stopped. *)
Theorem tones_are_exclusive w :
  reliable_stop →
  isOutgoingPlayingNow (playRingtone w).1 = false
  ∧ isRingtonePlayingNow (playOutgoing w).1 = false
  ∧ flags (playConnected w).1 = (false, false)
  ∧ flags (playEndSound w).1 = (false, false)
  ∧ flags (stopAllSounds w).1 = (false, false).
Proof.
  intros Hr. unfold isOutgoingPlayingNow, isRingtonePlayingNow. split_and!.
  - destruct (playRingtone_outgoing w) as (w0 & _ & ->).
    by apply reliable_after_stop.
  - destruct (playOutgoing_ringtone w) as (w0 & _ & ->).
    by apply reliable_after_stop.
  - apply both_stopped_after_load; [done|].
    pose proof keeps_flags_configureAudioMode.
    apply keeps_bind; [done|intros ?]. repeat keeps_step.
  - apply both_stopped_after_load; [done|].
    pose proof keeps_flags_configureAudioMode.
    apply keeps_bind; [done|intros ?]. repeat keeps_step.
  - apply both_stopped; [done|]. repeat keeps_step.
Qed.

(** ** Unloading *)

(** The player unloads the sound of a slot when asked to; a slot with
    no sound has nothing to unload. *)
Definition unloads (s : Slot) (w : World) : Prop :=
  match sounds (this w) s with
  | None => True
  | Some snd => (unloadAsync snd).2 = Normal tt
  end.

(** The same fields hold a sound object. *)
Definition same_slots (w w' : World) : Prop :=
  ∀ s, is_Some (sounds (this w') s) ↔ is_Some (sounds (this w) s).

Lemma unload_step s w :
  match method_opt s (c_unload s) unloadAsync w with
  | (w', Normal _) =>
      unloads s w ∧ same_slots w w'
      ∧ ∀ s', s' ≠ s → sounds (this w') s' = sounds (this w) s'
  | (w', Abrupt _) => ¬ unloads s w ∧ same_slots w w'
  end.
Proof.
  unfold method_opt, unloads, same_slots.
  destruct (sounds (this w) s) as [snd|] eqn:E.
  - destruct (unloadAsync snd) as [snd' [[]|e]]; cbn -[decide].
    + split_and!; [done| |].
      * intros s'. destruct (decide (s' = s)) as [->|]; [|done].
        rewrite E. split; eauto.
      * intros s' Hne. by rewrite decide_False.
    + split; [done|].
      intros s'. destruct (decide (s' = s)) as [->|]; [|done].
      rewrite E. split; eauto.
  - split_and!; [done|done|done].
Qed.

Lemma same_slots_trans w1 w2 w3 :
  same_slots w1 w2 → same_slots w2 w3 → same_slots w1 w3.
Proof. intros H12 H23 s. etrans; [apply H23|apply H12]. Qed.

Lemma same_slots_emit c w : same_slots w (emit c w).
Proof. by intros s. Qed.

Lemma unloads_transport s w w' :
  sounds (this w') s = sounds (this w) s → unloads s w' → unloads s w.
Proof. unfold unloads. by intros ->. Qed.

(** X22. [unloadSounds] clears the four fields only after all four sounds
    were unloaded: when the player rejects one [unloadAsync], every
    field, also of a sound that was unloaded before the failure, keeps
    its object.  Either way the two flags are not reset, so
    [isRingtonePlayingNow()] goes on answering [true] for a ringtone
    that has been unloaded. *)
Theorem unloadSounds_outcomes w :
  let r := unloadSounds w in
  r.2 = Normal tt
  ∧ isRingtonePlayingNow r.1 = isRingtonePlayingNow w
  ∧ isOutgoingPlayingNow r.1 = isOutgoingPlayingNow w
  ∧ ((∀ s, unloads s w) → ∀ s, sounds (this r.1) s = None)
  ∧ (¬ (∀ s, unloads s w) → same_slots w r.1).
Proof.
  intros r. subst r.
  pose proof (keeps_flags_unloadSounds w) as Hf. unfold flags in Hf.
  injection Hf as Hf1 Hf2.
  split; [apply try_catch_console|].
  split; [exact Hf1|]. split; [exact Hf2|]. clear Hf1 Hf2.
  unfold unloadSounds, try_catch. rewrite run_bind.
  pose proof (unload_step ringtoneSound w) as H1.
  destruct (method_opt ringtoneSound _ unloadAsync w) as [w1 [[]|e1]];
    [destruct H1 as (U1 & S1 & K1)|destruct H1 as (U1 & S1)]; cbn beta iota.
  2: { split; [intros Hall; by destruct U1|intros _].
       eapply same_slots_trans; [exact S1|apply same_slots_emit]. }
  rewrite run_bind.
  pose proof (unload_step outgoingSound w1) as H2.
  destruct (method_opt outgoingSound _ unloadAsync w1) as [w2 [[]|e2]];
    [destruct H2 as (U2 & S2 & K2)|destruct H2 as (U2 & S2)]; cbn beta iota.
  2: { split.
       - intros Hall. destruct U2.
         unfold unloads. rewrite K1 by done. apply Hall.
       - intros _. eapply same_slots_trans; [exact S1|].
         eapply same_slots_trans; [exact S2|apply same_slots_emit]. }
  rewrite run_bind.
  pose proof (unload_step endSound w2) as H3.
  destruct (method_opt endSound _ unloadAsync w2) as [w3 [[]|e3]];
    [destruct H3 as (U3 & S3 & K3)|destruct H3 as (U3 & S3)]; cbn beta iota.
  2: { split.
       - intros Hall. destruct U3.
         unfold unloads. rewrite K2, K1 by done. apply Hall.
       - intros _. eapply same_slots_trans; [exact S1|].
         eapply same_slots_trans; [exact S2|].
         eapply same_slots_trans; [exact S3|apply same_slots_emit]. }
  rewrite run_bind.
  pose proof (unload_step connectedSound w3) as H4.
  destruct (method_opt connectedSound _ unloadAsync w3) as [w4 [[]|e4]];
    [destruct H4 as (U4 & S4 & K4)|destruct H4 as (U4 & S4)]; cbn beta iota.
  2: { split.
       - intros Hall. destruct U4.
         unfold unloads. rewrite K3, K2, K1 by done. apply Hall.
       - intros _. eapply same_slots_trans; [exact S1|].
         eapply same_slots_trans; [exact S2|].
         eapply same_slots_trans; [exact S3|].
         eapply same_slots_trans; [exact S4|apply same_slots_emit]. }
  split.
  - intros _ []; reflexivity.
  - intros Hnot. destruct Hnot. intros [].
    + exact U1.
    + unfold unloads in *. by rewrite <- K1.
    + unfold unloads in *. by rewrite <- K1, <- K2.
    + unfold unloads in *. by rewrite <- K1, <- K2, <- K3.
Qed.

(** ** Playing without a sound *)

Definition ringtone_slot (w : World) : option Snd :=
  sounds (this w) ringtoneSound.

Lemma configureAudioMode_normal w : (configureAudioMode w).2 = Normal tt.
Proof. unfold configureAudioMode. apply try_catch_console. Qed.

(** X23. When the ringtone object does not exist and cannot be created,
    [playRingtone] still runs to its last line: the optional calls on
    the missing object are skipped, and the ringtone is marked playing
    although there is no sound that could play. *)
Theorem playRingtone_without_a_sound w e :
  sounds (this w) ringtoneSound = None →
  new_Sound = Abrupt e →
  let r := playRingtone w in
  r.2 = Normal tt
  ∧ isRingtonePlayingNow r.1 = true
  ∧ sounds (this r.1) ringtoneSound = None
  ∧ last (calls r.1) = Some (c_console c_log "✅ Ringtone playing").
Proof.
  intros Hnull Hnew r. subst r.
  destruct (playRingtone w) as [wf cf] eqn:EX. cbn [fst snd]. revert EX.
  unfold playRingtone. unfold try_catch at 1.
  rewrite run_bind. unfold is_null at 1, gets at 1. cbn beta iota.
  rewrite Hnull, bool_decide_true by done. rewrite run_bind.
  assert (∃ w0, when true loadSounds w = (w0, Normal tt)
                ∧ ringtone_slot w0 = None) as (w0 & -> & H0).
  { cbn [when]. unfold loadSounds, try_catch. rewrite run_bind.
    unfold construct at 1. rewrite run_bind, Hnew. cbn.
    eexists. split; [reflexivity|exact Hnull]. }
  cbn beta iota. rewrite run_bind.
  assert (keeps ringtone_slot stopOutgoing) as Hk1.
  { unfold stopOutgoing. repeat keeps_step. }
  assert (keeps ringtone_slot configureAudioMode) as Hk2.
  { unfold configureAudioMode. repeat keeps_step. }
  destruct (stopOutgoing_flags w0) as [Hn1 _]. specialize (Hk1 w0).
  destruct (stopOutgoing w0) as [w1 c1]. cbn [fst snd] in Hn1, Hk1. subst c1.
  cbn beta iota. rewrite run_bind.
  pose proof (configureAudioMode_normal w1) as Hn2. specialize (Hk2 w1).
  destruct (configureAudioMode w1) as [w2 c2]. cbn [fst snd] in Hn2, Hk2.
  subst c2. cbn beta iota.
  assert (sounds (this w2) ringtoneSound = None) as H2.
  { unfold ringtone_slot in *. congruence. }
  rewrite run_bind. unfold method_opt at 1. rewrite H2. cbn beta iota.
  rewrite run_bind. unfold method_opt at 1. rewrite H2. cbn -[app last].
  intros [= <- <-]. cbn -[app last].
  split_and!; try done. by rewrite last_snoc.
Qed.

End Facts.

(** ** Two players to run the service on *)

(** A player that does what it is asked; the state of a sound is
    whether it is playing. *)
Definition steady : Player := {|
  Snd := bool;
  Session := unit;
  platform_is_android := true;
  new_Sound := Normal false;
  loadAsync := λ _ s, (s, Normal tt);
  stopAsync := λ _, (false, Normal tt);
  setIsLoopingAsync := λ _ s, (s, Normal tt);
  playAsync := λ _, (true, Normal tt);
  unloadAsync := λ _, (false, Normal tt);
  setAudioModeAsync := λ _ s, (s, Normal tt);
|}.

(** A player that cannot create sounds. *)
Definition exhausted : Player := {|
  Snd := bool;
  Session := unit;
  platform_is_android := true;
  new_Sound := Abrupt {| message := "out of memory" |};
  loadAsync := λ _ s, (s, Normal tt);
  stopAsync := λ _, (false, Normal tt);
  setIsLoopingAsync := λ _ s, (s, Normal tt);
  playAsync := λ _, (true, Normal tt);
  unloadAsync := λ _, (false, Normal tt);
  setAudioModeAsync := λ _ s, (s, Normal tt);
|}.

(** [new SoundService()] on each of them. *)
Definition steady0 : @World steady :=
  @Build_World steady (@newSoundService steady) tt [].
Definition exhausted0 : @World exhausted :=
  @Build_World exhausted (@newSoundService exhausted) tt [].

Lemma tones_are_exclusive_witness :
  let w := (@playOutgoing steady steady0).1 in
  isOutgoingPlayingNow w = true
  ∧ isOutgoingPlayingNow (playRingtone w).1 = false
  ∧ isRingtonePlayingNow (playOutgoing (playRingtone w).1).1 = false.
Proof.
  intros w. split; [reflexivity|].
  assert (@reliable_stop steady) as Hr by (intros snd; split; reflexivity).
  split.
  - exact (proj1 (tones_are_exclusive w Hr)).
  - exact (proj1 (proj2 (tones_are_exclusive (playRingtone w).1 Hr))).
Defined.

(** On the steady player the ringtone does play after the waiting
    tone. *)
Example ringtone_after_waiting_tone :
  let w := (@playRingtone steady (@playOutgoing steady steady0).1).1 in
  isRingtonePlayingNow w = true
  ∧ sounds (this w) ringtoneSound = Some true
  ∧ sounds (this w) outgoingSound = Some false.
Proof. vm_compute. done. Qed.

Lemma playRingtone_without_a_sound_witness :
  let r := @playRingtone exhausted exhausted0 in
  r.2 = Normal tt
  ∧ isRingtonePlayingNow r.1 = true
  ∧ sounds (this r.1) ringtoneSound = None.
Proof.
  intros r.
  destruct (@playRingtone_without_a_sound exhausted exhausted0
              {| message := "out of memory" |} eq_refl eq_refl)
    as (H1 & H2 & H3 & _).
  split_and!; [exact H1|exact H2|exact H3].
Defined.

End Sound.

(** * The call log of [CallProvider] (CallContext.tsx)

    The pure computations of [initiateManualCall], of the status
    listener and of [endManualCall]: the text of a call's duration and
    the conversation the entry is filed under. *)
Module CallLog.

Local Open Scope Z_scope.

(** [s.padStart(n, pad)]: the pad is repeated and cut to the missing
    length; an empty pad leaves the string alone. *)
Definition padStart (n : nat) (pad : string) (s : string) : string :=
  let missing := (n - String.length s)%nat in
  if decide (pad = "") then s
  else String.substring 0 missing
         (String.concat "" (replicate missing pad)) +:+ s.

(** Lines 535-537: [Math.floor(duration / 60)], [duration % 60] and the
    template. *)
Definition durationStr (duration : Z) : string :=
  let mins := duration / 60 in
  let secs := Z.rem duration 60 in
  pretty mins +:+ ":" +:+ padStart 2 "0" (pretty secs).

Definition digit (n : Z) : Ascii.ascii :=
  Ascii.ascii_of_nat (48 + Z.to_nat n).

Section Conversation.
(** [a < b] on strings, as [Array.prototype.sort] compares them. *)
Context (lt : string → string → bool).

(** [[a, b].sort()]: [undefined] sorts last. *)
Definition sort2 (a b : option string) : option string * option string :=
  match a, b with
  | Some x, Some y => if lt y x then (b, a) else (a, b)
  | None, Some _ => (b, a)
  | _, _ => (a, b)
  end.

(** [`${x}`] *)
Definition template (x : option string) : string := default "undefined" x.

(** [`private_${sortedIds[0]}_${sortedIds[1]}`] *)
Definition conversationId (a b : option string) : string :=
  "private_" +:+ template (sort2 a b).1 +:+ "_" +:+ template (sort2 a b).2.

(** [initiateManualCall], lines 348-349, and the [answered] branch of
    the status listener, lines 397-398 (the caller's side). *)
Definition conversation_at_start (uid receiverId : string) : string :=
  conversationId (Some uid) (Some receiverId).

(** The terminal branch of the status listener, lines 411-413. *)
Definition conversation_at_terminal (uid callerId receiverId : string)
    : string :=
  let otherId := if decide (callerId = uid) then receiverId else callerId in
  conversationId (Some uid) (Some otherId).

(** [endManualCall], lines 531-532; [user?.uid] may be undefined. *)
Definition conversation_at_end (uid : option string)
    (callerId receiverId : string) : string :=
  conversationId uid
    (Some (if decide (Some receiverId = uid) then callerId else receiverId)).

End Conversation.

(** X24. For a duration that is not negative, the text is the minutes, a
    colon, and the seconds in exactly two digits. *)
Theorem durationStr_format duration :
  0 ≤ duration →
  durationStr duration
  = pretty (duration / 60) +:+ ":"
    +:+ String (digit ((duration `mod` 60) / 10))
          (String (digit ((duration `mod` 60) `mod` 10)) "").
Proof.
  intros Hd. unfold durationStr. cbv zeta.
  rewrite Z.rem_mod_nonneg by lia.
  assert (∃ k : nat, duration `mod` 60 = Z.of_nat k ∧ (k < 60)%nat)
    as (k & -> & Hk).
  { exists (Z.to_nat (duration `mod` 60)).
    pose proof (Z.mod_pos_bound duration 60). lia. }
  f_equal. f_equal.
  do 60 (destruct k as [|k]; [vm_compute; reflexivity|]). lia.
Qed.

(** X25. Caller and receiver file a call under the same conversation, at
    every place that computes it: when the call is started, when the
    status listener logs its outcome, and when either party ends it.
    Only [endManualCall] runs without a user: it then files the entry
    under a conversation with [undefined]. *)
Theorem one_conversation_per_call lt caller receiver :
  (∀ a b, a ≠ b → lt a b = negb (lt b a)) →
  let id := conversation_at_start lt caller receiver in
  conversation_at_terminal lt caller caller receiver = id
  ∧ conversation_at_terminal lt receiver caller receiver = id
  ∧ conversation_at_end lt (Some caller) caller receiver = id
  ∧ conversation_at_end lt (Some receiver) caller receiver = id
  ∧ conversation_at_end lt None caller receiver
    = "private_" +:+ receiver +:+ "_undefined".
Proof.
  intros Hlt id. subst id.
  assert (∀ a b, conversationId lt (Some a) (Some b)
                 = conversationId lt (Some b) (Some a)) as Hsym.
  { intros a b. destruct (decide (a = b)) as [->|Hne]; [done|].
    unfold conversationId, sort2. rewrite (Hlt a b Hne).
    by destruct (lt b a). }
  unfold conversation_at_start, conversation_at_terminal,
    conversation_at_end.
  split_and!.
  - by rewrite decide_True.
  - destruct (decide (caller = receiver)) as [->|]; [done|apply Hsym].
  - destruct (decide (Some receiver = Some caller)) as [[= ->]|]; done.
  - rewrite decide_True by done. apply Hsym.
  - rewrite decide_False by done. reflexivity.
Qed.

Lemma durationStr_format_witness : durationStr 125 = "2:05".
Proof. exact (durationStr_format 125 ltac:(lia)). Defined.

(** Byte-wise comparison is one such order. *)
Lemma ltb_total a b : a ≠ b → String.ltb a b = negb (String.ltb b a).
Proof.
  intros Hne. unfold String.ltb. rewrite (String.compare_antisym b a).
  destruct (String.compare a b) eqn:E; try reflexivity.
  by apply String.compare_eq_iff in E.
Qed.

Lemma one_conversation_per_call_witness :
  conversation_at_start String.ltb "bob" "alice" = "private_alice_bob"
  ∧ conversation_at_terminal String.ltb "alice" "bob" "alice"
    = "private_alice_bob"
  ∧ conversation_at_end String.ltb (Some "alice") "bob" "alice"
    = "private_alice_bob".
Proof.
  split; [reflexivity|].
  destruct (one_conversation_per_call String.ltb "bob" "alice" ltb_total)
    as (_ & H1 & _ & H2 & _).
  split; [exact H1|exact H2].
Defined.

End CallLog.
